(** * Whitaker's Words (Python port): the matching and disambiguation engine

    A shallow embedding of the two parsers of the repository,

    - [parse.py]  : the dictionary-based parser (module [parse] below), with
      congruence checking, verb/participle disambiguation and the one-shot
      reduction;
    - [parser.py] : the object-based parser (module [parser] below), with
      [Inflection], [Form], [Word].

    Python values are modelled as follows: [int] as [Z], [str] as [string]
    (ASCII text), [list] as [list], a [dict] used as a read-only table as
    [gmap], a [dict] whose insertion order is observed as an association
    list, and raising code as a function into [result]. *)

From Stdlib Require Import ZArith String Ascii List Lia Bool.
From stdpp Require Import base decidable option list gmap strings pretty.

Open Scope string_scope.
Open Scope list_scope.
Open Scope Z_scope.

(** ** Python primitives *)

Module Py.

(** The exceptions the modelled code can raise. *)
Inductive exn : Type :=
| IndexError
| KeyError
| ValueError
| AttributeError
| WordsException.

#[global] Instance exn_eq_dec : EqDecision exn.
Proof. solve_decision. Defined.

Inductive result (A : Type) : Type :=
| Ok (a : A)
| Raise (e : exn).
Arguments Ok {A} a.
Arguments Raise {A} e.

Definition bind {A B} (m : result A) (k : A -> result B) : result B :=
  match m with
  | Ok a => k a
  | Raise e => Raise e
  end.

Notation "x <- m ;; k" := (bind m (fun x => k))
  (at level 100, m at next level, right associativity).

Definition returns {A} (m : result A) : Prop := exists a, m = Ok a.

(** A Python value that is either a [bool] or an [int]: the value of
    [a and b] when [a] is an [int]. *)
Inductive pyval : Type :=
| VBool (b : bool)
| VInt (z : Z).

Definition truthy (v : pyval) : bool :=
  match v with
  | VBool b => b
  | VInt z => negb (z =? 0)
  end.

Definition is_bool (v : pyval) : Prop :=
  match v with VBool _ => True | VInt _ => False end.

(** [l[i]] on a list: negative indices count from the end, anything
    outside [-len, len) raises [IndexError]. *)
Definition getitem {A} (l : list A) (i : Z) : result A :=
  let len := Z.of_nat (length l) in
  let j := if i <? 0 then i + len else i in
  if (0 <=? j) && (j <? len) then
    match nth_error l (Z.to_nat j) with
    | Some a => Ok a
    | None => Raise IndexError
    end
  else Raise IndexError.

(** [s[:k]] and [s[k:]] for [0 <= k]. *)
Definition str_take (k : nat) (s : string) : string := String.substring 0 k s.
Definition str_drop (k : nat) (s : string) : string :=
  String.substring k (String.length s - k) s.

(** [s[a:b]] for [0 <= a <= b]. *)
Definition slice (a b : nat) (s : string) : string := String.substring a (b - a) s.

(** [s[:-k]] for [0 < k]: everything but the last [k] characters. *)
Definition drop_last (k : nat) (s : string) : string :=
  str_take (String.length s - k) s.

(** [s[-k:]] for [0 < k]: the last [k] characters. *)
Definition last_chars (k : nat) (s : string) : string :=
  str_drop (String.length s - k) s.

(** [s[i]] on a string, as the one-character string Python returns. *)
Definition str_getitem (s : string) (i : Z) : result string :=
  c <- getitem (list_ascii_of_string s) i ;; Ok (String c EmptyString).

Definition startswith (s p : string) : bool := String.prefix p s.

Definition endswith (s e : string) : bool :=
  (String.length e <=? String.length s)%nat
  && bool_decide (last_chars (String.length e) s = e).

(** [re.sub(e + "$", empty, s)] and [re.sub("^" + p, empty, s)], with
    [empty] the empty string, when [e], [p] consist of letters (the affix
    tables hold plain spellings, so the pattern is a literal anchored at
    one end) and [s] ends, resp. starts, with it: the one anchored
    occurrence is deleted. *)
Definition sub_suffix (e s : string) : string := drop_last (String.length e) s.
Definition sub_prefix (p s : string) : string := str_drop (String.length p) s.

(** [x in l]. *)
Definition contains {A} `{EqDecision A} (x : A) (l : list A) : bool :=
  bool_decide (x ∈ l).

(** [l.index(x)]: the first position of [x], [ValueError] when absent. *)
Fixpoint index {A} `{EqDecision A} (x : A) (l : list A) : result nat :=
  match l with
  | [] => Raise ValueError
  | y :: l' => if decide (y = x) then Ok 0%nat
               else i <- index x l' ;; Ok (S i)
  end.

(** [l.remove(x)]: deletes the first element equal to [x], [ValueError]
    when there is none. *)
Fixpoint remove {A} `{EqDecision A} (x : A) (l : list A) : result (list A) :=
  match l with
  | [] => Raise ValueError
  | y :: l' => if decide (y = x) then Ok l'
               else r <- remove x l' ;; Ok (y :: r)
  end.

Definition is_letter (c : ascii) : bool :=
  let k := nat_of_ascii c in
  ((65 <=? k) && (k <=? 90) || (97 <=? k) && (k <=? 122))%nat.

(** Text of ASCII characters only.  [isalpha], [lower] and [split] below
    are those of Python on such text and on no other: Python also counts
    the letters and the blanks outside ASCII, and its [lower] can change
    the length of a text that has them. *)
Definition is_ascii (s : string) : bool :=
  forallb (fun c => (nat_of_ascii c <? 128)%nat) (list_ascii_of_string s).

(** A spelling of ASCII letters only: as a pattern of [re] it matches
    itself and nothing else, so [sub_suffix] and [sub_prefix] above are
    the substitutions of the code for it.  Another spelling is read as a
    pattern by the code (the pattern [a*] followed by the end anchor
    matches no character of a text that ends with [a*]), or refused with
    an error of [re]; both are outside this model. *)
Definition plain (e : string) : bool :=
  forallb is_letter (list_ascii_of_string e).

(** [s.isalpha()] on ASCII text: non-empty and letters only. *)
Definition isalpha (s : string) : bool :=
  match list_ascii_of_string s with
  | [] => false
  | cs => forallb is_letter cs
  end.

Definition lower_char (c : ascii) : ascii :=
  let k := nat_of_ascii c in
  if ((65 <=? k) && (k <=? 90))%nat then ascii_of_nat (k + 32) else c.

(** [s.lower()] on ASCII text. *)
Fixpoint lower (s : string) : string :=
  match s with
  | EmptyString => EmptyString
  | String c s' => String (lower_char c) (lower s')
  end.

(** A loop whose body may raise, threading the loop state. *)
Fixpoint foldM {A S} (f : S -> A -> result S) (s : S) (l : list A) : result S :=
  match l with
  | [] => Ok s
  | a :: l' => s' <- f s a ;; foldM f s' l'
  end.

(** An insertion-ordered [dict] as an association list with one pair per
  key: [d[k]] when present, [k in d], and [d[k] = v] (in place for a key
  that is present, at the end for a new key). *)
Fixpoint dict_get {K V} `{EqDecision K} (k : K) (d : list (K * V)) : option V :=
  match d with
  | [] => None
  | (k', v) :: d' => if decide (k' = k) then Some v else dict_get k d'
  end.

Fixpoint dict_set {K V} `{EqDecision K} (k : K) (v : V) (d : list (K * V)) : list (K * V) :=
  match d with
  | [] => [(k, v)]
  | (k', v') :: d' => if decide (k' = k) then (k, v) :: d'
                      else (k', v') :: dict_set k v d'
  end.

Definition dict_values {K V} (d : list (K * V)) : list V := map snd d.
Definition dict_keys {K V} (d : list (K * V)) : list K := map fst d.

(** [d1.update(d2)]. *)
Definition dict_update {K V} `{EqDecision K} (d1 d2 : list (K * V)) : list (K * V) :=
  fold_left (fun d kv => dict_set (fst kv) (snd kv) d) d2 d1.

(** [str(k)] for a length [k]. *)
Definition str_of_nat (k : nat) : string := pretty k.

Definition is_space (c : ascii) : bool :=
  let k := nat_of_ascii c in
  ((k =? 32) || (9 <=? k) && (k <=? 13) || (28 <=? k) && (k <=? 31))%nat.

(** [s.split()]: the maximal runs of non-blank characters.  [cur] is the
  run being read, in reverse. *)
Fixpoint split_from (cur : list ascii) (cs : list ascii) : list string :=
  match cs with
  | [] => match cur with
          | [] => []
          | _ => [string_of_list_ascii (rev cur)]
          end
  | c :: cs' =>
      if is_space c then
        match cur with
        | [] => split_from [] cs'
        | _ => string_of_list_ascii (rev cur) :: split_from [] cs'
        end
      else split_from (c :: cur) cs'
  end.

Definition split (s : string) : list string :=
  split_from [] (list_ascii_of_string s).

(** An element of a sequence that holds strings and integers. *)
Inductive atom : Type :=
| AStr (s : string)
| AInt (z : Z).

#[global] Instance atom_eq_dec : EqDecision atom.
Proof. solve_decision. Defined.

(** [str(a)]. *)
Definition str (a : atom) : string :=
  match a with
  | AStr s => s
  | AInt z => pretty z
  end.

End Py.

Import Py.

(** ** parse.py : the dictionary-based parser *)

Module parse.

(** An entry of [wordlist]. *)
Record DictEntry : Type := mkDictEntry {
  de_id : Z;
  de_pos : string;
  de_parts : list string;
  de_senses : list string
}.

(** An entry of a list of [stems]. *)
Record Stem : Type := mkStem {
  st_orth : string;
  st_pos : string;
  st_form : string;
  st_n : list Z;
  st_wid : Z
}.

(** An entry of a list of [inflects]. *)
Record Inflect : Type := mkInflect {
  in_ending : string;
  in_pos : string;
  in_n : list Z;
  in_form : string;
  in_iid : Z
}.

(** An entry of [addons]. *)
Record Addon : Type := mkAddon {
  ad_orth : string;
  ad_pos : string;
  ad_senses : list string
}.

(** An entry of a list of [uniques]. *)
Record Unique : Type := mkUnique {
  un_orth : string;
  un_pos : string;
  un_form : string;
  un_senses : list string
}.

#[global] Instance DictEntry_eq_dec : EqDecision DictEntry.
Proof. solve_decision. Defined.
#[global] Instance Stem_eq_dec : EqDecision Stem.
Proof. solve_decision. Defined.
#[global] Instance Inflect_eq_dec : EqDecision Inflect.
Proof. solve_decision. Defined.
#[global] Instance Addon_eq_dec : EqDecision Addon.
Proof. solve_decision. Defined.
#[global] Instance Unique_eq_dec : EqDecision Unique.
Proof. solve_decision. Defined.

(** The value stored under ['encl']: the empty string of the unsplit
    text, or the affix that was split off. *)
Inductive Encl : Type :=
| EnclEmpty
| EnclAddon (e : Addon).

#[global] Instance Encl_eq_dec : EqDecision Encl.
Proof. solve_decision. Defined.

(** The data a [Parser] is constructed with.  A slot of [wordlist] that
    is falsy (an empty entry) is [None]. *)
Record Data : Type := mkData {
  wordlist : list (option DictEntry);
  wordkeys : gset string;
  stems : gmap string (list Stem);
  uniques : gmap string (list Unique);
  inflects : gmap string (gmap string (list Inflect));
  addons : gmap string (list Addon)
}.

(** One matched stem: [{'st': ..., 'infls': [...]}], and ['encl'] once
    [analyze_forms] has set it. *)
Record MatchedStem : Type := mkMatchedStem {
  ms_st : Stem;
  ms_infls : list Inflect;
  ms_encl : option Encl
}.

#[global] Instance MatchedStem_eq_dec : EqDecision MatchedStem.
Proof. solve_decision. Defined.

(** One element of the list [lookup_stems] returns:
    [{'w': ..., 'enclitic': ..., 'stems': [...]}]. *)
Record DictResult : Type := mkDictResult {
  dr_w : DictEntry;
  dr_enclitic : Encl;
  dr_stems : list MatchedStem
}.

(** What ['w'] holds in [parse_result]. *)
Inductive Entry : Type :=
| EDict (d : DictEntry)
| EUnique (u : Unique).

Record ResultWord : Type := mkResultWord {
  rw_w : Entry;
  rw_enclitic : Encl;
  rw_stems : list MatchedStem
}.

Definition of_dict_result (r : DictResult) : ResultWord :=
  mkResultWord (EDict (dr_w r)) (dr_enclitic r) (dr_stems r).

(** One element of the list [split_form_enclitic] returns:
    [{'base': ..., 'encl': ...}]. *)
Record Split : Type := mkSplit {
  base : string;
  encl : Encl
}.

#[global] Instance Split_eq_dec : EqDecision Split.
Proof. solve_decision. Defined.

(** [Parser.remove_extra_infls]: the loop runs over a copy of the list and
    removes from the list itself. *)
Definition remove_extra_infls (stem : MatchedStem) (remove_type : string) : result MatchedStem :=
  let stem_infls_copy := ms_infls stem in
  infls <- foldM (fun cur infl =>
                    if bool_decide (in_pos infl = remove_type)
                    then remove infl cur
                    else Ok cur)
                 (ms_infls stem) stem_infls_copy ;;
  Ok (mkMatchedStem (ms_st stem) infls (ms_encl stem)).

Section Parser.

Variable self : Data.

(** [Parser.check_match]. *)
Definition check_match (stem : Stem) (infl : Inflect) : result pyval :=
  if negb (bool_decide (in_pos infl = st_pos stem)) then
    if bool_decide (in_pos infl = "VPAR") && bool_decide (st_pos stem = "V") then
      match getitem (wordlist self) (st_wid stem) with
      | Raise IndexError => Ok (VBool false)
      | Raise e => Raise e
      | Ok None => Ok (VBool false)
      | Ok (Some wrd) =>
          if bool_decide (slice 8 12 (in_form infl) = "PERF") then
            p <- getitem (de_parts wrd) (-1) ;;
            Ok (VBool (bool_decide (st_orth stem = p)))
          else
            p <- getitem (de_parts wrd) 0 ;;
            Ok (VBool (bool_decide (st_orth stem = p)))
      end
    else Ok (VBool false)
  else
    let default :=
      if (length (st_n stem) =? 0)%nat then Ok (VInt 0)
      else
        a <- getitem (in_n infl) 0 ;;
        b <- getitem (st_n stem) 0 ;;
        Ok (VBool (bool_decide (a = b))) in
    if bool_decide (st_pos stem = "N") then
      cond <-
        (if bool_decide (in_n infl = st_n stem) then Ok true
         else
           a <- getitem (in_n infl) 0 ;;
           b <- getitem (st_n stem) 0 ;;
           if bool_decide (a = b) then
             c <- getitem (in_n infl) (-1) ;; Ok (bool_decide (c = 0))
           else Ok false) ;;
      if (cond : bool) then
        g <- str_getitem (in_form infl) (-1) ;;
        f <- str_getitem (st_form stem) 0 ;;
        if bool_decide (g = f) then Ok (VBool true)
        else
          g' <- str_getitem (in_form infl) (-1) ;;
          Ok (VBool (bool_decide (g' = "C")))
      else default
    else if bool_decide (st_pos stem = "ADV") then
      if bool_decide (st_form stem = "X") then
        match getitem (wordlist self) (st_wid stem) with
        | Raise IndexError => Ok (VBool false)
        | Raise e => Raise e
        | Ok None => Ok (VBool false)
        | Ok (Some wrd) => Ok (VBool (contains (st_orth stem) (de_parts wrd)))
        end
      else Ok (VBool (bool_decide (st_form stem = in_form infl)))
    else default.

(** The inner [for idx, matched_stem in enumerate(...)] loop of
    [match_stems_inflections] with its [else] clause: the first matched
    stem of the same [wid] receives the ending; when the loop was not left
    by [break], a new matched stem is appended. *)
Fixpoint add_to_lemmas (stem_cand : Stem) (infl_cand : Inflect)
  (lst : list MatchedStem) : list MatchedStem :=
  match lst with
  | [] => [mkMatchedStem stem_cand [infl_cand] None]
  | matched_stem :: rest =>
      if bool_decide (st_wid (ms_st matched_stem) = st_wid stem_cand)
      then mkMatchedStem (ms_st matched_stem)
                         (ms_infls matched_stem ++ [infl_cand])
                         (ms_encl matched_stem) :: rest
      else matched_stem :: add_to_lemmas stem_cand infl_cand rest
  end.

(** The body of the innermost loop of [match_stems_inflections]. *)
Definition match_step (stem_cand : Stem)
  (matched_stems : list (string * list MatchedStem)) (infl_cand : Inflect)
  : result (list (string * list MatchedStem)) :=
  c <- check_match stem_cand infl_cand ;;
  if truthy c then
    match dict_get (st_orth stem_cand) matched_stems with
    | Some lst =>
        Ok (dict_set (st_orth stem_cand)
                     (add_to_lemmas stem_cand infl_cand lst) matched_stems)
    | None =>
        Ok (dict_set (st_orth stem_cand)
                     [mkMatchedStem stem_cand [infl_cand] None] matched_stems)
    end
  else Ok matched_stems.

(** [Parser.match_stems_inflections]. *)
Definition match_stems_inflections (form : string) (infls : list (list Inflect))
  : result (list (string * list MatchedStem)) :=
  foldM (fun matched_stems infl_lemma =>
           first <- getitem infl_lemma 0 ;;
           let stem_lemma :=
             if (0 <? String.length (in_ending first))%nat
             then drop_last (String.length (in_ending first)) form
             else form in
           match stems self !! stem_lemma with
           | Some stem_list =>
               foldM (fun ms stem_cand =>
                        foldM (match_step stem_cand) ms infl_lemma)
                     matched_stems stem_list
           | None => Ok matched_stems
           end)
        [] infls.

(** The [for word in results] loop of [lookup_stems]: [None] when no
    result carries the entry's id, otherwise the results with the stem
    appended to the first such result unless an equal stem is there. *)
Fixpoint merge_into_results (dict_word : DictEntry) (stem : MatchedStem)
  (results : list DictResult) : option (list DictResult) :=
  match results with
  | [] => None
  | word :: rest =>
      if bool_decide (de_id dict_word = de_id (dr_w word)) then
        if contains stem (dr_stems word) then Some (word :: rest)
        else Some (mkDictResult (dr_w word) (dr_enclitic word)
                                (dr_stems word ++ [stem]) :: rest)
      else option_map (cons word) (merge_into_results dict_word stem rest)
  end.

(** The body of the inner loop of [lookup_stems]. *)
Definition lookup_step (results : list DictResult) (stem : MatchedStem)
  : result (list DictResult) :=
  match getitem (wordlist self) (st_wid (ms_st stem)) with
  | Raise IndexError => Ok results
  | Raise e => Raise e
  | Ok None => Ok results
  | Ok (Some dict_word) =>
      match merge_into_results dict_word stem results with
      | Some results' => Ok results'
      | None =>
          stem' <-
            (if bool_decide (de_pos dict_word = "V") then
               i <- index (st_orth (ms_st stem)) (de_parts dict_word) ;;
               if (i =? 3)%nat then remove_extra_infls stem "V"
               else remove_extra_infls stem "VPAR"
             else Ok stem) ;;
          enclitic <- (match ms_encl stem' with
                       | Some e => Ok e
                       | None => Raise KeyError
                       end) ;;
          Ok (results ++ [mkDictResult dict_word enclitic [stem']])
      end
  end.

(** [Parser.lookup_stems]. *)
Definition lookup_stems (match_stems : list (string * list MatchedStem))
  : result (list DictResult) :=
  foldM (fun results stemlist => foldM lookup_step results stemlist)
        [] (dict_values match_stems).

(** The loop over [addons['tackons']] in [split_form_enclitic]. *)
Fixpoint split_tackons (s : string) (tackons : list Addon) : list Split :=
  match tackons with
  | [] => []
  | e :: rest =>
      (if endswith s (ad_orth e) then
         if negb (bool_decide (s = "est"))
         then [mkSplit (sub_suffix (ad_orth e) s) (EnclAddon e)]
         else []
       else []) ++ split_tackons s rest
  end.

(** The loop over [addons[lst]] in [split_form_enclitic], left by [break]
    at the first entry that is appended. *)
Fixpoint split_packons (s : string) (lst : list Addon) : list Split :=
  match lst with
  | [] => []
  | e :: rest =>
      if endswith s (ad_orth e) then
        let base := sub_suffix (ad_orth e) s in
        if negb (bool_decide (base = EmptyString))
        then [mkSplit base (EnclAddon e)]
        else split_packons s rest
      else split_packons s rest
  end.

(** [Parser.split_form_enclitic]. *)
Definition split_form_enclitic (s : string) : list Split :=
  let result := [mkSplit s EnclEmpty] in
  let result :=
    match addons self !! "tackons" with
    | Some tackons => result ++ split_tackons s tackons
    | None => result
    end in
  let lst := if startswith s "qu" then "packons" else "not_packons" in
  match addons self !! lst with
  | Some l => result ++ split_packons s l
  | None => result
  end.

(** The ending tables consulted by [analyze_forms], in the order they are
    appended to [viable_inflections]. *)
Definition suffix_inflections (form : string) : list (list Inflect) :=
  omap (fun inflect_length =>
          let end_of_word := last_chars inflect_length form in
          match inflects self !! str_of_nat inflect_length with
          | Some tbl => tbl !! end_of_word
          | None => None
          end)
       (seq 1 (Nat.min 8 (String.length form) - 1)).

Definition viable_inflections (form : string) : result (list (list Inflect)) :=
  undeclined <-
    (if bool_decide (form ∈ wordkeys self) then
       match inflects self !! "0" with
       | Some tbl => match tbl !! EmptyString with
                     | Some infl => Ok [infl]
                     | None => Raise KeyError
                     end
       | None => Raise KeyError
       end
     else Ok []) ;;
  Ok (undeclined ++ suffix_inflections form).

(** The part of [analyze_forms] before the test on [forms]: matching and
    dictionary lookup for [word['base']]. *)
Definition direct_forms (word : Split) : result (list DictResult) :=
  let form := base word in
  viable <- viable_inflections form ;;
  match_stems <- match_stems_inflections form viable ;;
  let match_stems :=
    map (fun kv => (fst kv,
                    map (fun stem => mkMatchedStem (ms_st stem) (ms_infls stem)
                                                   (Some (encl word)))
                        (snd kv)))
        match_stems in
  lookup_stems match_stems.

(** The first entry of an affix table that [s] starts, resp. ends, with. *)
Definition first_prefix (s : string) (l : list Addon) : option Addon :=
  List.find (fun prefix => startswith s (ad_orth prefix)) l.
Definition first_suffix (s : string) (l : list Addon) : option Addon :=
  List.find (fun suffix => endswith s (ad_orth suffix)) l.

(** The string [reduce] hands to [analyze_forms]. *)
Definition reduced_base (s : string) : string :=
  let s :=
    match addons self !! "prefixes" with
    | Some l => match first_prefix s l with
                | Some prefix => sub_prefix (ad_orth prefix) s
                | None => s
                end
    | None => s
    end in
  match addons self !! "suffixes" with
  | Some l => match first_suffix s l with
              | Some suffix => sub_suffix (ad_orth suffix) s
              | None => s
              end
  | None => s
  end.

(** [Parser.reduce], over the function it calls back.  The entries
    appended to [out] for the stripped prefix and suffix are dropped when
    [out] is assigned the result of [analyze_forms]. *)
Definition reduce_with
  (analyze_forms : Split -> bool -> option (result (list DictResult)))
  (option_ : Split) : option (result (list DictResult)) :=
  let s := reduced_base (base option_) in
  let option_ := mkSplit s (encl option_) in
  match analyze_forms option_ true with
  | None => None
  | Some (Raise e) => Some (Raise e)
  | Some (Ok out) =>
      let found_new_match :=
        existsb (fun word => (0 <? length (dr_stems word))%nat) out in
      if negb (bool_decide (out = [])) && negb found_new_match
      then Some (Ok [])
      else Some (Ok out)
  end.

(** [Parser.analyze_forms].  It and [reduce] call each other; [fuel]
    bounds the depth of these calls, and [None] is the answer only when
    the bound is hit. *)
Fixpoint analyze_forms (fuel : nat) (word : Split) (reduced : bool)
  : option (result (list DictResult)) :=
  match fuel with
  | O => None
  | S fuel' =>
      match direct_forms word with
      | Raise e => Some (Raise e)
      | Ok forms =>
          if (0 <? length forms)%nat then Some (Ok forms)
          else if negb reduced then reduce_with (analyze_forms fuel') word
          else Some (Ok [])
      end
  end.

(** [Parser.reduce]. *)
Definition reduce (fuel : nat) (option_ : Split) : option (result (list DictResult)) :=
  reduce_with (analyze_forms fuel) option_.

(** The loop of [Parser.parse] over the split forms, from the value of
    [parse_result] before a form to its value after it. *)
Definition parse_step (fuel : nat) (parse_result : list ResultWord) (word : Split)
  : option (result (list ResultWord)) :=
  match uniques self !! base word with
  | Some unique_forms =>
      Some (Ok (parse_result ++
                map (fun unique_form =>
                       mkResultWord (EUnique unique_form) (encl word) [])
                    unique_forms))
  | None =>
      match analyze_forms fuel word false with
      | None => None
      | Some (Raise e) => Some (Raise e)
      | Some (Ok forms) => Some (Ok (map of_dict_result forms))
      end
  end.

Fixpoint parse_loop (fuel : nat) (parse_result : list ResultWord) (words : list Split)
  : option (result (list ResultWord)) :=
  match words with
  | [] => Some (Ok parse_result)
  | word :: rest =>
      match parse_step fuel parse_result word with
      | None => None
      | Some (Raise e) => Some (Raise e)
      | Some (Ok parse_result') => parse_loop fuel parse_result' rest
      end
  end.

(** [Parser.parse], up to the call of the output formatter: the value of
    [parse_result] that is handed to [format_output]. *)
Definition parse (fuel : nat) (text : string) : option (result (list ResultWord)) :=
  if negb (isalpha text) then Some (Raise WordsException)
  else parse_loop fuel [] (split_form_enclitic text).

End Parser.

End parse.


(** ** parser.py : the object-based parser *)

Module parser.

(** Modelled from the spec: the [DictEntry] of the missing [datatypes]
    module, a dictionary headword with its ordered principal parts and its
    senses. *)
Record DictEntry : Type := mkDictEntry {
  de_parts : list string;
  de_senses : list string
}.

(** Modelled from the spec: the [Stem] of the missing [datatypes] module,
    with the keys the parser reads.  ['form'] is a sequence (of a string,
    its characters) whose first element the parser turns into text. *)
Record Stem : Type := mkStem {
  st_orth : string;
  st_pos : string;
  st_form : list atom;
  st_n : list atom;
  st_wid : Z;
  st_props : list string
}.

(** Modelled from the spec: the [Inflect] of the missing [datatypes]
    module, with the keys the parser reads. *)
Record Inflect : Type := mkInflect {
  in_ending : string;
  in_pos : string;
  in_n : list atom;
  in_form : list string;
  in_iid : Z
}.

(** Modelled from the spec: the [Unique] of the missing [datatypes]
    module; the key ['n'] may be absent. *)
Record Unique : Type := mkUnique {
  un_orth : string;
  un_pos : string;
  un_n : option (list atom);
  un_form : list string;
  un_senses : list string
}.

(** Modelled from the spec: the [Addon] of the missing [datatypes] module;
    the key ['aid'] may be absent. *)
Record Addon : Type := mkAddon {
  ad_orth : string;
  ad_pos : string;
  ad_senses : list string;
  ad_aid : option Z
}.

(** Modelled from the spec: the [DataLayer] of the missing [datalayer]
    module, with the tables the parser reads.  A falsy slot of [wordlist]
    is [None]; [empty pos] is the subscript [data.empty[pos]], which the
    missing module may or may not answer for every part of speech. *)
Record DataLayer : Type := mkDataLayer {
  wordlist : list (option DictEntry);
  wordkeys : gset string;
  stems : gmap string (list Stem);
  uniques : gmap string (list Unique);
  inflects : gmap string (gmap string (list Inflect));
  empty : string -> result (list Inflect);
  addons : gmap string (list Addon)
}.

(** Modelled from the spec: the enumerations of the missing [enums]
    module.  [Enum] is the type of all members, [WordType name] is the
    attribute [WordType.name], [Gender_getitem s] is the subscript
    [Gender[s]], [enum_name m] is [m.name], and [get_enum_value] is the
    decoder of that module. *)
Class Enums (Enum : Type) : Type := {
  enum_eq_dec :: EqDecision Enum;
  get_enum_value : string -> string -> result Enum;
  WordType : string -> Enum;
  Gender_getitem : string -> result Enum;
  enum_name : Enum -> string
}.

(** Modelled from the spec: [Matcher(stem, infl).check()] of the missing
    [matcher] module, the congruence check, pure and total. *)
Class Matcher : Type := {
  Matcher_check : Stem -> Inflect -> bool
}.

Section Enums.

Context {Enum : Type} `{!Enums Enum} `{!Matcher}.

(** An [Inflection] object; a [UniqueInflection] has no [id], and no
    [category] when the unique has no ['n']. *)
Record Inflection : Type := mkInflection {
  wordType : Enum;
  category : option (list atom);
  stem : string;
  affix : string;
  features : gmap string Enum;
  id : option Z
}.

(** The slots [analyse_features] fills for a word type. *)
Definition feature_slots (wt : Enum) : option (list string) :=
  if decide (wt = WordType "N") then Some ["Case"; "Number"; "Gender"]
  else if decide (wt = WordType "NUM") then Some ["Case"; "Number"; "Gender"; "NumeralType"]
  else if decide (wt = WordType "PRON") then Some ["Case"; "Number"; "Gender"; "PronounType"]
  else if decide (wt = WordType "ADJ") then Some ["Case"; "Number"; "Gender"; "Degree"]
  else if decide (wt = WordType "V") then Some ["Tense"; "Voice"; "Mood"; "Person"; "Number"]
  else if decide (wt = WordType "VPAR") then Some ["Case"; "Number"; "Gender"; "Tense"; "Voice"]
  else if decide (wt = WordType "ADV") then Some ["Degree"]
  else None.

(** The loop of [analyse_features] over [enumerate(features[:len(lst)])]:
    [lst] and [feats] are walked together until either ends. *)
Fixpoint fill_features (lst : list string) (feats : list string)
  (fs : gmap string Enum) : result (gmap string Enum) :=
  match lst, feats with
  | slot :: lst', feature :: feats' =>
      v <- get_enum_value slot feature ;;
      fill_features lst' feats' (<[slot := v]> fs)
  | _, _ => Ok fs
  end.

(** [Inflection.analyse_features], from the [features] dict before the
    call to the one after it. *)
Definition analyse_features (wt : Enum) (feats : list string)
  (fs : gmap string Enum) : result (gmap string Enum) :=
  match feature_slots wt with
  | Some lst => fill_features lst feats fs
  | None => Ok fs
  end.

(** [Inflection.override_features]. *)
Definition override_features (wt : Enum) (stem : Stem)
  (fs : gmap string Enum) : result (gmap string Enum) :=
  if bool_decide (wt = WordType "N") then
    match st_form stem with
    | first :: _ =>
        g <- Gender_getitem (str first) ;;
        Ok (<["Gender" := g]> fs)
    | [] => Ok fs
    end
  else Ok fs.

(** [Inflection.__init__]. *)
Definition Inflection_init (infl : Inflect) (stem : Stem) : result Inflection :=
  wt <- get_enum_value "WordType" (in_pos infl) ;;
  fs <- analyse_features wt (in_form infl) ∅ ;;
  fs <- override_features wt stem fs ;;
  Ok (mkInflection wt (Some (in_n infl)) (st_orth stem) (in_ending infl)
                   fs (Some (in_iid infl))).

(** [UniqueInflection.__init__]. *)
Definition UniqueInflection_init (unique : Unique) : result Inflection :=
  wt <- get_enum_value "WordType" (un_pos unique) ;;
  fs <- analyse_features wt (un_form unique) ∅ ;;
  Ok (mkInflection wt (un_n unique) (un_orth unique) EmptyString fs None).

(** [Inflection.__eq__] on two [Inflection] objects; reading the
    [category] of an object that has none raises. *)
Definition Inflection_eq (self other : Inflection) : result bool :=
  if negb (bool_decide (affix self = affix other)) then Ok false
  else if negb (bool_decide (wordType self = wordType other)) then Ok false
  else
    match category self, category other with
    | Some c1, Some c2 =>
        Ok (bool_decide (c1 = c2) && bool_decide (features self = features other))
    | _, _ => Raise AttributeError
    end.

(** [x in l] on a list of [Inflection] objects, none of them the object
    [x] itself. *)
Fixpoint Inflection_in (x : Inflection) (l : list Inflection) : result bool :=
  match l with
  | [] => Ok false
  | e :: l' =>
      b <- Inflection_eq e x ;;
      if (b : bool) then Ok true else Inflection_in x l'
  end.

(** A [Lexeme] object; [is_unique] tells a [UniqueLexeme], which has
    neither [form] nor [props]. *)
Record Lexeme : Type := mkLexeme {
  lx_id : Z;
  lx_category : list atom;
  lx_roots : list string;
  lx_senses : list string;
  lx_wordType : Enum;
  lx_form : option (list atom);
  lx_props : option (list string);
  is_unique : bool
}.

(** [Lexeme.__init__]. *)
Definition Lexeme_init (stem : Stem) : result Lexeme :=
  wt <- get_enum_value "WordType" (st_pos stem) ;;
  Ok (mkLexeme (st_wid stem) (st_n stem) [] [] wt
               (Some (st_form stem)) (Some (st_props stem)) false).

(** [UniqueLexeme.__init__]. *)
Definition UniqueLexeme_init (unique : Unique) : result Lexeme :=
  wt <- get_enum_value "WordType" (un_pos unique) ;;
  Ok (mkLexeme 0 [] [] (un_senses unique) wt None None true).

(** An [Enclitic] object. *)
Record Enclitic : Type := mkEnclitic {
  en_text : string;
  en_position : list string;
  en_senses : list string;
  en_id : Z
}.

(** [Enclitic.__init__]. *)
Definition Enclitic_init (enclitic : Addon) : Enclitic :=
  mkEnclitic (ad_orth enclitic) (split (ad_pos enclitic)) (ad_senses enclitic)
             (default 0 (ad_aid enclitic)).

(** An [Analysis] object. *)
Record Analysis : Type := mkAnalysis {
  lexeme : Lexeme;
  root : string;
  inflections : list Inflection;
  enclitic : option Enclitic
}.

(** [Analysis.lookup_stem]. *)
Definition Analysis_lookup_stem (self : Analysis) (wordlist : list (option DictEntry))
  : result Analysis :=
  dict_word <- getitem wordlist (lx_id (lexeme self)) ;;
  match dict_word with
  | Some dict_word =>
      let lx := lexeme self in
      Ok (mkAnalysis
            (mkLexeme (lx_id lx) (lx_category lx) (de_parts dict_word)
                      (de_senses dict_word) (lx_wordType lx) (lx_form lx)
                      (lx_props lx) (is_unique lx))
            (root self) (inflections self) (enclitic self))
  | None => Ok self
  end.

(** A [Form] object. *)
Record Form : Type := mkForm {
  text : string;
  analyses : list (Z * Analysis);
  form_enclitic : option Enclitic
}.

(** [Form.__init__]. *)
Definition Form_init (text : string) (enclitic : option Enclitic) : Form :=
  mkForm text [] enclitic.

(** [Form.analyse_unique]. *)
Definition Form_analyse_unique (self : Form) (unique_form : Unique) : result Form :=
  match analyses self with
  | _ :: _ =>
      match dict_get 0 (analyses self) with
      | Some a =>
          i <- UniqueInflection_init unique_form ;;
          let a' := mkAnalysis (lexeme a) (root a) (inflections a ++ [i]) (enclitic a) in
          Ok (mkForm (text self) (dict_set 0 a' (analyses self)) (form_enclitic self))
      | None => Raise KeyError
      end
  | [] =>
      lx <- UniqueLexeme_init unique_form ;;
      i <- UniqueInflection_init unique_form ;;
      Ok (mkForm (text self) [(0, mkAnalysis lx EmptyString [i] None)] (form_enclitic self))
  end.

Section Parser.

Variable data : DataLayer.

(** The body of the loop over [stem_list] in
    [Form.match_stems_inflections]. *)
Definition match_step (infl_cand : Inflect)
  (matched_stems : list (Z * Analysis)) (stem_cand : Stem)
  : result (list (Z * Analysis)) :=
  if Matcher_check stem_cand infl_cand then
    let word_id := st_wid stem_cand in
    inflection <- Inflection_init infl_cand stem_cand ;;
    match dict_get word_id matched_stems with
    | Some a =>
        present <- Inflection_in inflection (inflections a) ;;
        if (present : bool) then Ok matched_stems
        else Ok (dict_set word_id
                   (mkAnalysis (lexeme a) (root a)
                               (inflections a ++ [inflection]) (enclitic a))
                   matched_stems)
    | None =>
        lx <- Lexeme_init stem_cand ;;
        Ok (dict_set word_id (mkAnalysis lx EmptyString [inflection] None) matched_stems)
    end
  else Ok matched_stems.

(** The spelling [Form.match_stems_inflections] looks up for an ending. *)
Definition stem_lemma (text : string) (infl_cand : Inflect) : string :=
  if negb (bool_decide (in_ending infl_cand = EmptyString))
  then drop_last (String.length (in_ending infl_cand)) text
  else text.

(** [Form.match_stems_inflections]. *)
Definition Form_match_stems_inflections (text : string)
  (viable_inflections : list Inflect) : result (list (Z * Analysis)) :=
  foldM (fun matched_stems infl_cand =>
           match stems data !! stem_lemma text infl_cand with
           | Some stem_list => foldM (match_step infl_cand) matched_stems stem_list
           | None => Ok matched_stems
           end)
        [] viable_inflections.

(** The word types of the stems spelled exactly [text], in the order the
    set is iterated.  Python leaves that order open; [elements] fixes one. *)
Definition wordtypes (stem_list : list Stem) : list string :=
  elements (list_to_set (map st_pos stem_list) : gset string).

(** The endings [Form.analyse] collects from [data.empty]. *)
Definition undeclined_inflections (text : string) : result (list Inflect) :=
  if bool_decide (text ∈ wordkeys data) then
    match stems data !! text with
    | Some stem_list =>
        foldM (fun viable wordtype =>
                 l <- empty data wordtype ;; Ok (viable ++ l))
              [] (wordtypes stem_list)
    | None => Ok []
    end
  else Ok [].

(** The loop of [Form.analyse] over the ending lengths, from the list
    before the loop to the list after it. *)
Definition suffix_inflections (text : string) (viable : list Inflect) : list Inflect :=
  fold_left (fun viable inflect_length =>
               let end_of_word := last_chars inflect_length text in
               match inflects data !! str_of_nat inflect_length with
               | Some tbl =>
                   match tbl !! end_of_word with
                   | Some infl => viable ++ infl
                   | None => viable
                   end
               | None => viable
               end)
            (seq 1 (Nat.min 8 (String.length text) - 1)) viable.

(** The list [viable_inflections] that [Form.analyse] hands to
    [match_stems_inflections]. *)
Definition viable_inflections (text : string) : result (list Inflect) :=
  viable <- undeclined_inflections text ;;
  Ok (suffix_inflections text viable).

(** The loop of [Form.analyse] over [analyses.values()]. *)
Fixpoint resolve_analyses (enclitic : option Enclitic) (found : list (Z * Analysis))
  : result (list (Z * Analysis)) :=
  match found with
  | [] => Ok []
  | (k, analysis) :: rest =>
      analysis' <- Analysis_lookup_stem
                     (mkAnalysis (lexeme analysis) (root analysis)
                                 (inflections analysis) enclitic)
                     (wordlist data) ;;
      rest' <- resolve_analyses enclitic rest ;;
      Ok ((k, analysis') :: rest')
  end.

(** The local [analyses] of [Form.analyse] when the loop over its values
    is done. *)
Definition regular_analyses (self : Form) : result (list (Z * Analysis)) :=
  viable <- viable_inflections (text self) ;;
  found <- Form_match_stems_inflections (text self) viable ;;
  resolve_analyses (form_enclitic self) found.

(** [Form.analyse]. *)
Definition Form_analyse (self : Form) : result Form :=
  found <- regular_analyses self ;;
  match analyses self with
  | _ :: _ =>
      Ok (mkForm (text self) (dict_update (analyses self) found)
                 (form_enclitic self))
  | [] => Ok (mkForm (text self) found (form_enclitic self))
  end.

(** [Form.filter_analysis]. *)
Definition Form_filter_analysis (analysis : Z * Analysis) : result bool :=
  match enclitic (snd analysis) with
  | Some enclitic =>
      p <- getitem (en_position enclitic) 0 ;;
      if bool_decide (p = "X") || bool_decide (p = "PACK") then Ok true
      else
        p' <- getitem (en_position enclitic) 0 ;;
        Ok (bool_decide (p' = enum_name (lx_wordType (lexeme (snd analysis)))))
  | None =>
      Ok (negb (bool_decide (lx_roots (lexeme (snd analysis)) = []))
          || is_unique (lexeme (snd analysis)))
  end.

(** [filter(f, l)] for a predicate that may raise. *)
Fixpoint filterM {A} (f : A -> result bool) (l : list A) : result (list A) :=
  match l with
  | [] => Ok []
  | a :: l' =>
      b <- f a ;;
      r <- filterM f l' ;;
      Ok (if (b : bool) then a :: r else r)
  end.

(** [Form.filter_good_analyses]. *)
Definition Form_filter_good_analyses (self : Form) : result Form :=
  kept <- filterM Form_filter_analysis (analyses self) ;;
  Ok (mkForm (text self) kept (form_enclitic self)).

(** The body of the loop of [Word.analyse]. *)
Definition analyse_form (apply_filter : bool) (form : Form) : result Form :=
  form <-
    match uniques data !! text form with
    | Some unique_forms => foldM Form_analyse_unique form unique_forms
    | None => Ok form
    end ;;
  form <- Form_analyse form ;;
  if apply_filter then Form_filter_good_analyses form else Ok form.

(** The loop of [Word.analyse]: the forms are objects of the list, each
    changed in place. *)
Fixpoint analyse_forms (apply_filter : bool) (forms : list Form) : result (list Form) :=
  match forms with
  | [] => Ok []
  | form :: rest =>
      form' <- analyse_form apply_filter form ;;
      rest' <- analyse_forms apply_filter rest ;;
      Ok (form' :: rest')
  end.

(** [Word.filter_good_forms]. *)
Definition Word_filter_good_forms (forms : list Form) : list Form :=
  filter (fun form => analyses form <> []) forms.

(** [Word.analyse], from [self.forms] before to [self.forms] after. *)
Definition Word_analyse (forms : list Form) (apply_filter : bool) : result (list Form) :=
  forms <- analyse_forms apply_filter forms ;;
  if apply_filter then Ok (Word_filter_good_forms forms) else Ok forms.

(** [Word.find_enclitic]. *)
Definition Word_find_enclitic (text : string) (list_name : string) : list Form :=
  match addons data !! list_name with
  | Some l =>
      flat_map (fun affix =>
                  let affix_text := ad_orth affix in
                  if endswith text affix_text then
                    let base := sub_suffix affix_text text in
                    if negb (bool_decide (base = EmptyString))
                    then [Form_init base (Some (Enclitic_init affix))]
                    else []
                  else [])
               l
  | None => []
  end.

(** [Word.split_form_enclitic], giving the value assigned to
    [self.forms]. *)
Definition Word_split_form_enclitic (text : string) : list Form :=
  let result := [Form_init text None] in
  let result := result ++ Word_find_enclitic text "tackons" in
  if startswith text "qu"
  then result ++ Word_find_enclitic text "packons"
  else result ++ Word_find_enclitic text "not_packons".

(** [Word.get_analyses]. *)
Definition Word_get_analyses (forms : list Form) : list Analysis :=
  flat_map (fun form => dict_values (analyses form)) forms.

(** A [Word] object. *)
Record Word : Type := mkWord {
  word_text : string;
  forms : list Form
}.

(** [Parser.parse]. *)
Definition Parser_parse (text : string) (apply_filters : bool) : result Word :=
  if negb (isalpha text) then Raise WordsException
  else
    let text := lower text in
    forms <- Word_analyse (Word_split_form_enclitic text) apply_filters ;;
    Ok (mkWord text forms).

End Parser.

End Enums.

End parser.


(** ** The specification's vocabulary *)

Module spec.

Section Segmenter.

Context {A F : Type}.
Variable orth : A -> string.
Variable mk : string -> option A -> F.

(** An affix entry matches [s] when [s] ends with it and a base is left. *)
Definition leaves_base (s : string) (e : A) : bool :=
  endswith s (orth e) && negb (bool_decide (sub_suffix (orth e) s = EmptyString)).

Definition cut (s : string) (e : A) : F := mk (sub_suffix (orth e) s) (Some e).

(** The segmenter as the specification words it: the text itself, one
    form per matching tackon unless the text is the reserved string, then
    the first match of the packon table (text starting with "qu") or of
    the not-packon table. *)
Definition segment (reserved : string) (tackons packons not_packons : list A)
    (s : string) : list F :=
  mk s None
  :: (if bool_decide (s = reserved) then []
      else map (cut s) (List.filter (leaves_base s) tackons))
  ++ match List.find (leaves_base s)
                     (if startswith s "qu" then packons else not_packons) with
     | Some e => [cut s e]
     | None => []
     end.

(** The segmenter that reserves no string and keeps every match. *)
Definition segment_all (tackons packons not_packons : list A) (s : string) : list F :=
  mk s None
  :: map (cut s) (List.filter (leaves_base s) tackons)
  ++ map (cut s) (List.filter (leaves_base s)
                              (if startswith s "qu" then packons else not_packons)).

End Segmenter.

Section Candidates.

Context {I : Type}.
Variable inflects : gmap string (gmap string (list I)).

(** The endings registered under a length and the suffix of that length. *)
Definition registered (base : string) (k : nat) : list I :=
  match inflects !! str_of_nat k with
  | Some tbl => default [] (tbl !! last_chars k base)
  | None => []
  end.

(** Source (b): the suffix lengths from 1 up to [min(7, length - 1)]. *)
Definition suffix_candidates (base : string) : list I :=
  flat_map (registered base) (seq 1 (Nat.min 7 (String.length base - 1))).

End Candidates.

(** [mapM f l]: the results of [f] over [l], the first exception if any. *)
Fixpoint mapM {X Y} (f : X -> result Y) (l : list X) : result (list Y) :=
  match l with
  | [] => Ok []
  | x :: l' => y <- f x ;; ys <- mapM f l' ;; Ok (y :: ys)
  end.

End spec.

(** ** The specification's vocabulary over parse.py *)

Module parse_spec.

Import parse.

(** The principal part a participle ending is compared with: the last one
    for a perfect-tense ending, the first one otherwise. *)
Definition designated_part (infl : Inflect) (wrd : DictEntry) : option string :=
  if bool_decide (slice 8 12 (in_form infl) = "PERF")
  then last (de_parts wrd)
  else head (de_parts wrd).




(** [a] is the first entry of [l] that satisfies [f]. *)
Definition is_first {A} (f : A -> bool) (l : list A) (a : A) : Prop :=
  exists l1 l2, l = l1 ++ a :: l2 /\ f a = true /\ forall b, b ∈ l1 -> f b = false.

(** What one pass over an affix table strips: the spelling of its first
    matching entry, or nothing when no entry matches or the table is
    absent. *)
Definition stripped (f : Addon -> bool) (table : option (list Addon)) (p : string) : Prop :=
  match table with
  | Some l => (exists a, is_first f l a /\ p = ad_orth a)
              \/ ((forall b, b ∈ l -> f b = false) /\ p = EmptyString)
  | None => p = EmptyString
  end.

(** The reduced result is given up when it holds analyses, none of them
    with a stem. *)
Definition discard_placeholders (out : list DictResult) : list DictResult :=
  if bool_decide (out <> [] /\ Forall (fun word => dr_stems word = []) out)
  then [] else out.

(** Two endings are equal by value when they agree on part of speech,
    category, affix and features. *)
Definition same_value (i j : Inflect) : Prop :=
  in_pos i = in_pos j /\ in_n i = in_n j
  /\ in_ending i = in_ending j /\ in_form i = in_form j.

(** The segmenter of the specification over the tables of parse.py. *)
Definition to_split (b : string) (e : option Addon) : Split :=
  mkSplit b (from_option EnclAddon EnclEmpty e).

Definition table (self : Data) (name : string) : list Addon :=
  default [] (addons self !! name).

Definition segment_spec (self : Data) (s : string) : list Split :=
  spec.segment ad_orth to_split "est"
    (table self "tackons") (table self "packons") (table self "not_packons") s.

(** Source (a) of the candidate endings over the tables of parse.py: the
    zero-length endings whose part of speech is that of a stem spelled
    exactly like the base, for a base among the word keys. *)
Definition undeclined_candidates (self : Data) (form : string) : list Inflect :=
  if bool_decide (form ∈ wordkeys self) then
    List.filter (fun infl => contains (in_pos infl)
                               (map st_pos (default [] (stems self !! form))))
                (default [] (inflects self !! "0" ≫= fun tbl => tbl !! EmptyString))
  else [].

Definition candidates_spec (self : Data) (form : string) : list Inflect :=
  undeclined_candidates self form ++ spec.suffix_candidates (inflects self) form.

End parse_spec.

(** ** A small dictionary for parse.py *)

Module parse_sample.

Import parse.

Definition amo : DictEntry := mkDictEntry 1 "V" ["am"; "am"; "amav"; "amat"] ["love"].
Definition bene : DictEntry := mkDictEntry 2 "ADV" ["bene"] ["well"].
Definition aqua : DictEntry := mkDictEntry 3 "N" ["aqu"; "aqu"] ["water"].
(** An entry that lists no principal parts. *)
Definition inquam : DictEntry := mkDictEntry 4 "V" [] ["say"].

Definition am : Stem := mkStem "am" "V" "X" [1; 1] 1.
Definition amat : Stem := mkStem "amat" "V" "X" [1; 1] 1.
Definition bene_stem : Stem := mkStem "bene" "ADV" "POS" [] 2.
Definition aqu : Stem := mkStem "aqu" "N" "F T" [1; 1] 3.
Definition inqu : Stem := mkStem "inqu" "V" "X" [3; 1] 4.
(** A stem row whose spelling is not one of the principal parts of the
    verb its [wid] names. *)
Definition amaver : Stem := mkStem "amaver" "V" "X" [1; 1] 1.

Definition adv_pos : Inflect := mkInflect EmptyString "ADV" [] "POS" 1.
Definition n_undeclined : Inflect := mkInflect EmptyString "N" [9; 9] "X X X" 7.
Definition a_nom : Inflect := mkInflect "a" "N" [1; 1] "NOM S C" 2.
Definition us_ppl : Inflect := mkInflect "us" "VPAR" [0; 0] "NOM S M PERF PASSIVE PPL" 3.
Definition ans_ppl : Inflect := mkInflect "ans" "VPAR" [1; 0] "NOM S X PRES ACTIVE PPL" 4.
Definition at_ind : Inflect := mkInflect "at" "V" [1; 1] "PRES ACTIVE IND 3 S" 5.
Definition a_imp : Inflect := mkInflect "a" "V" [1; 1] "PRES ACTIVE IMP 2 S" 6.
(** A second row of the ending -at, with an identifier of its own. *)
Definition at_ind_again : Inflect := mkInflect "at" "V" [1; 1] "PRES ACTIVE IND 3 S" 8.

Definition que : Addon := mkAddon "que" "X" ["and"].
Definition ne : Addon := mkAddon "ne" "X" ["is it not that"].
Definition cumque : Addon := mkAddon "cumque" "PACK" ["-ever"].

Definition sum_est : Unique := mkUnique "est" "V" "PRES ACTIVE IND 3 S" ["is"].

Definition data : Data :=
  mkData [None; Some amo; Some bene; Some aqua; Some inquam]
         {[ "bene" ]}
         (list_to_map [("am", [am]); ("amat", [amat]); ("bene", [bene_stem]);
                       ("aqu", [aqu; aqu]); ("inqu", [inqu]); ("amaver", [amaver])])
         (list_to_map [("est", [sum_est])])
         (list_to_map
            [("0", list_to_map [(EmptyString, [adv_pos; n_undeclined])]);
             ("1", list_to_map [("a", [a_nom; a_imp])]);
             ("2", list_to_map [("us", [us_ppl]); ("at", [at_ind])]);
             ("3", list_to_map [("ans", [ans_ppl])])])
         (list_to_map [("tackons", [que; ne]);
                       ("packons", [cumque; que]);
                       ("not_packons", [cumque])]).



(** Two matched stems of the verb [amo], the fourth principal part first. *)
Definition amo_matches : list (string * list MatchedStem) :=
  [("amat", [mkMatchedStem amat [us_ppl; a_imp] (Some EnclEmpty)]);
   ("am", [mkMatchedStem am [at_ind; ans_ppl] (Some EnclEmpty)])].

(** A matched stem built from the row [amaver]. *)
Definition amaver_matches : list (string * list MatchedStem) :=
  [("amaver", [mkMatchedStem amaver [at_ind] (Some EnclEmpty)])].

End parse_sample.

(** ** The specification's vocabulary over parser.py *)

Module parser_spec.

Import parser.

Section Spec.

Context {Enum : Type} `{!Enums Enum} `{!Matcher}.

Definition to_form (b : string) (e : option Addon) : Form (Enum := Enum) :=
  Form_init b (option_map Enclitic_init e).

Definition table (data : DataLayer) (name : string) : list Addon :=
  default [] (addons data !! name).

(** The segmenter of the specification over the tables of parser.py, and
    the one that reserves no string and keeps every match. *)
Definition segment_spec (data : DataLayer) (s : string) : list (Form (Enum := Enum)) :=
  spec.segment ad_orth to_form "est"
    (table data "tackons") (table data "packons") (table data "not_packons") s.

Definition segment_all (data : DataLayer) (s : string) : list (Form (Enum := Enum)) :=
  spec.segment_all ad_orth to_form
    (table data "tackons") (table data "packons") (table data "not_packons") s.

(** Source (a) of the candidate endings: for a base that is a word key,
    the zero-length endings of each part of speech found among the stems
    spelled exactly like the base. *)
Definition undeclined_candidates (data : DataLayer) (base : string)
    : result (list Inflect) :=
  if bool_decide (base ∈ wordkeys data) then
    zero <- spec.mapM (empty data) (wordtypes (default [] (stems data !! base))) ;;
    Ok (concat zero)
  else Ok [].

Definition candidates_spec (data : DataLayer) (base : string) : result (list Inflect) :=
  zero <- undeclined_candidates data base ;;
  Ok (zero ++ spec.suffix_candidates (inflects data) base).

(** What makes two [Inflection] objects equal: affix, word type, category
    and features. *)
Definition value_key (i : Inflection (Enum := Enum))
    : string * Enum * option (list atom) * gmap string Enum :=
  (affix i, wordType i, category i, features i).

(** A stem and an ending that the assembler pairs for [text]: the ending
    is a candidate, the stem is listed under the spelling left when the
    ending is cut off, and the two are congruent. *)
Definition congruent_pair (data : DataLayer) (text : string)
    (viable : list Inflect) (stem : Stem) (infl : Inflect) : Prop :=
  infl ∈ viable /\
  (exists stem_list, stems data !! stem_lemma text infl = Some stem_list
                     /\ stem ∈ stem_list) /\
  Matcher_check stem infl = true.

(** What the loop keeps: one analysis per key, in which every inflection
    has a category and no two inflections are equal by value. *)
Definition assembled (ms : list (Z * Analysis (Enum := Enum))) : Prop :=
  NoDup (dict_keys ms) /\
  forall k a, dict_get k ms = Some a ->
    Forall (fun i => is_Some (category i)) (inflections a)
    /\ NoDup (map value_key (inflections a)).

(** From one state of the loop to a later one, an analysis stays under
    its key and loses no inflection. *)
Definition grows (ms ms' : list (Z * Analysis (Enum := Enum))) : Prop :=
  forall k a, dict_get k ms = Some a ->
    exists a', dict_get k ms' = Some a' /\
               forall key, key ∈ map value_key (inflections a) ->
                           key ∈ map value_key (inflections a').

(** The ending of a congruent pair is recorded under the stem's headword. *)
Definition recorded (infl : Inflect) (stem : Stem)
    (ms : list (Z * Analysis (Enum := Enum))) : Prop :=
  Matcher_check stem infl = true ->
  exists a i, dict_get (st_wid stem) ms = Some a
              /\ Inflection_init infl stem = Ok i
              /\ value_key i ∈ map value_key (inflections a).

(** The analysis [Form.analyse_unique] leaves under key 0 of a fresh form
    after the unique entries [u :: us]. *)
Definition unique_analysis (u : Unique) (us : list Unique)
    : result (Analysis (Enum := Enum)) :=
  lx <- UniqueLexeme_init u ;;
  unique_inflections <- spec.mapM UniqueInflection_init (u :: us) ;;
  Ok (mkAnalysis lx EmptyString unique_inflections None).


End Spec.

End parser_spec.

(** ** A small dictionary for parser.py *)

Module parser_sample.

Import parser.

(** Modelled from the spec: a member of an enumeration as the pair of the
    name of its class and its own name; the decoder accepts every code,
    and the genders are M, F, N, C and X. *)
#[global] Instance enums : Enums (string * string) := {
  get_enum_value cls value := Ok (cls, value);
  WordType name := ("WordType", name);
  Gender_getitem s :=
    if bool_decide (s ∈ ["M"; "F"; "N"; "C"; "X"]) then Ok ("Gender", s)
    else Raise KeyError;
  enum_name m := snd m
}.

(** Modelled from the spec: a congruence check that asks for the same
    part of speech. *)
#[global] Instance matcher : Matcher := {
  Matcher_check stem infl := bool_decide (in_pos infl = st_pos stem)
}.

Definition aqua : DictEntry := mkDictEntry ["aqu"; "aqu"] ["water"].
Definition vis : DictEntry := mkDictEntry ["vis"; "vir"] ["force"].

Definition aqu : Stem := mkStem "aqu" "N" [AStr "F"; AStr "T"] [AInt 1; AInt 1] 1 [].
Definition v : Stem := mkStem "v" "N" [AStr "F"; AStr "T"] [AInt 3; AInt 3] 2 [].
(** A stem row whose [wid] is past the end of the word list. *)
Definition stray : Stem := mkStem "stray" "N" [AStr "F"; AStr "T"] [AInt 1; AInt 1] 7 [].

Definition a_nom : Inflect := mkInflect "a" "N" [AInt 1; AInt 1] ["NOM"; "S"; "C"] 1.
Definition a_abl : Inflect := mkInflect "a" "N" [AInt 1; AInt 1] ["ABL"; "S"; "C"] 2.
Definition a_nom_f : Inflect := mkInflect "a" "N" [AInt 1; AInt 1] ["NOM"; "S"; "F"] 3.
Definition is_nom : Inflect := mkInflect "is" "N" [AInt 3; AInt 3] ["NOM"; "S"; "F"] 4.


Definition volo_vis : Unique :=
  mkUnique "vis" "V" None ["PRES"; "ACTIVE"; "IND"; "2"; "S"] ["you wish"].

Definition que : Addon := mkAddon "que" "X" ["and"] (Some 1).
Definition ne : Addon := mkAddon "ne" "X" ["is it not that"] (Some 2).
Definition cumque : Addon := mkAddon "cumque" "PACK" ["-ever"] (Some 3).

Definition data : DataLayer :=
  mkDataLayer [None; Some aqua; Some vis]
              ∅
              (list_to_map [("aqu", [aqu; aqu]); ("v", [v]); ("stray", [stray])])
              (list_to_map [("vis", [volo_vis])])
              (list_to_map
                 [("1", list_to_map [("a", [a_nom; a_abl; a_nom_f])]);
                  ("2", list_to_map [("is", [is_nom])])])
              (fun _ => Ok [])
              (list_to_map [("tackons", [que; ne; mkAddon "est" "X" ["is"] None]);
                            ("packons", [cumque; que]);
                            ("not_packons", [cumque])]).

End parser_sample.

(** ** Invariants of the loops of parse.py *)

Module parse_inv.

Import parse.

(** The spelling [match_stems_inflections] looks up for a list of endings
    whose first element is [first]. *)
Definition stem_lemma (form : string) (first : Inflect) : string :=
  if (0 <? String.length (in_ending first))%nat
  then drop_last (String.length (in_ending first)) form
  else form.

(** The matched stems under one spelling: at least one, one per headword
    id, each spelled like the key, each with at least one ending, none
    with an enclitic yet. *)
Definition lemmas_ok (k : string) (lst : list MatchedStem) : Prop :=
  lst <> []
  /\ NoDup (map (fun m => st_wid (ms_st m)) lst)
  /\ forall m, m ∈ lst ->
       st_orth (ms_st m) = k /\ ms_encl m = None /\ ms_infls m <> [].

Definition matched_ok (ms : list (string * list MatchedStem)) : Prop :=
  NoDup (dict_keys ms)
  /\ forall k lst, dict_get k ms = Some lst -> lemmas_ok k lst.

(** From one state of the loop to a later one, a matched stem stays under
    its spelling and headword id and loses no ending. *)
Definition matched_grows (ms ms' : list (string * list MatchedStem)) : Prop :=
  forall k lst m, dict_get k ms = Some lst -> m ∈ lst ->
    exists lst' m', dict_get k ms' = Some lst' /\ m' ∈ lst'
                    /\ st_wid (ms_st m') = st_wid (ms_st m)
                    /\ forall i, i ∈ ms_infls m -> i ∈ ms_infls m'.

(** A stem row and an ending that [check_match] accepts. *)
Definition congruent (self : Data) (stem_cand : Stem) (infl_cand : Inflect) : Prop :=
  exists c, check_match self stem_cand infl_cand = Ok c /\ truthy c = true.

(** The ending of a congruent pair is recorded under the spelling and the
    headword id of the stem row. *)
Definition matched_recorded (self : Data) (stem_cand : Stem) (infl_cand : Inflect)
    (ms : list (string * list MatchedStem)) : Prop :=
  congruent self stem_cand infl_cand ->
  exists lst m, dict_get (st_orth stem_cand) ms = Some lst /\ m ∈ lst
                /\ st_wid (ms_st m) = st_wid stem_cand
                /\ infl_cand ∈ ms_infls m.

(** The results of [lookup_stems]: one per dictionary id, each with at
    least one stem and an entry that a slot of the word list holds. *)
Definition results_ok (self : Data) (results : list DictResult) : Prop :=
  NoDup (map (fun w => de_id (dr_w w)) results)
  /\ forall w, w ∈ results ->
       dr_stems w <> []
       /\ exists i, getitem (wordlist self) i = Ok (Some (dr_w w)).

(** From one state of the loop to a later one, a result keeps its entry
    and its stems. *)
Definition results_grow (results results' : list DictResult) : Prop :=
  forall w, w ∈ results ->
    exists w', w' ∈ results' /\ dr_w w' = dr_w w
               /\ dr_enclitic w' = dr_enclitic w
               /\ forall m, m ∈ dr_stems w -> m ∈ dr_stems w'.

(** The entry of a matched stem that resolves is among the results. *)
Definition resolved (self : Data) (m : MatchedStem) (results : list DictResult) : Prop :=
  forall d, getitem (wordlist self) (st_wid (ms_st m)) = Ok (Some d) ->
            exists w, w ∈ results /\ de_id (dr_w w) = de_id d.

(** Every spelling of the affix tables is [plain]. *)
Definition plain_addons (self : Data) : bool :=
  forallb (fun kv => forallb (fun e => plain (ad_orth e)) (snd kv))
          (map_to_list (addons self)).

(** Every result and every stem in it carries the enclitic [e]. *)
Definition carries (e : Encl) (results : list DictResult) : Prop :=
  forall w, w ∈ results ->
    dr_enclitic w = e /\ forall m, m ∈ dr_stems w -> ms_encl m = Some e.

(** The exceptions the helpers below [parse] raise. *)
Definition internal (e : exn) : Prop :=
  e = IndexError \/ e = KeyError \/ e = ValueError.

End parse_inv.

(** ** Invariants of the loops of parser.py *)

Module parser_inv.

Import parser parser_spec.

Section Inv.

Context {Enum : Type} `{!Enums Enum} `{!Matcher}.

(** What the assembler never does: every analysis is stored under the id
    of its lexeme, is not of a unique entry, has no dictionary entry and no
    enclitic yet, and every inflection in it is built from a congruent pair
    of that headword. *)
Definition sourced (data : DataLayer) (s : string) (viable : list Inflect)
    (ms : list (Z * Analysis (Enum := Enum))) : Prop :=
  forall k a, (k, a) ∈ ms ->
    lx_id (lexeme a) = k
    /\ is_unique (lexeme a) = false
    /\ lx_roots (lexeme a) = []
    /\ enclitic a = None
    /\ inflections a <> []
    /\ forall i, i ∈ inflections a ->
         exists stem infl, congruent_pair data s viable stem infl
                           /\ st_wid stem = k
                           /\ Inflection_init infl stem = Ok i.

(** A dict of analyses with one pair per key, each analysis under the id
    of its lexeme. *)
Definition keyed (found : list (Z * Analysis (Enum := Enum))) : Prop :=
  NoDup (dict_keys found)
  /\ forall k a, (k, a) ∈ found -> lx_id (lexeme a) = k.

(** The analyses [Form.filter_analysis] accepts. *)
Definition kept (x : Z * Analysis (Enum := Enum)) : Prop :=
  match enclitic (snd x) with
  | Some en =>
      exists p, head (en_position en) = Some p
                /\ (p = "X" \/ p = "PACK"
                    \/ p = enum_name (lx_wordType (lexeme (snd x))))
  | None =>
      lx_roots (lexeme (snd x)) <> [] \/ is_unique (lexeme (snd x)) = true
  end.

(** Every spelling of the affix tables is [plain]. *)
Definition plain_addons (data : DataLayer) : bool :=
  forallb (fun kv => forallb (fun e => plain (ad_orth e)) (snd kv))
          (map_to_list (addons data)).

(** A form cut from the word [s]: the word itself, or a non-empty base
    with an enclitic of one of the lists the word is tested against. *)
Definition segment_of (data : DataLayer) (s : string) (f : Form (Enum := Enum)) : Prop :=
  (text f = s /\ form_enclitic f = None)
  \/ exists list_name l e,
       (list_name = "tackons"
        \/ list_name = if startswith s "qu" then "packons" else "not_packons")
       /\ addons data !! list_name = Some l /\ e ∈ l
       /\ s = (text f ++ ad_orth e)%string
       /\ text f <> EmptyString
       /\ form_enclitic f = Some (Enclitic_init e).

End Inv.

End parser_inv.

(** * Properties *)

(** ** Python primitives *)

Module PyFacts.

Lemma getitem_raise {A} (l : list A) (i : Z) (e : exn) :
  getitem l i = Raise e -> e = IndexError.
Proof.
  unfold getitem. destruct (_ && _); [destruct (nth_error _ _)|]; congruence.
Qed.

Lemma getitem_first {A} (l : list A) :
  getitem l 0 = match head l with Some x => Ok x | None => Raise IndexError end.
Proof. destruct l; reflexivity. Qed.

Lemma nth_error_last {A} (l : list A) :
  nth_error l (length l - 1) = last l.
Proof.
  induction l as [|x l IH]; [reflexivity|].
  destruct l as [|y l]; [reflexivity|].
  simpl in *. rewrite Nat.sub_0_r in IH. exact IH.
Qed.

Lemma getitem_last {A} (l : list A) :
  getitem l (-1) = match last l with Some x => Ok x | None => Raise IndexError end.
Proof.
  destruct l as [|x l]; [reflexivity|].
  unfold getitem.
  replace (-1 <? 0) with true by reflexivity.
  set (len := Z.of_nat (length (x :: l))).
  assert (Hlen : 1 <= len) by (unfold len; simpl length; lia).
  replace ((0 <=? -1 + len) && (-1 + len <? len)) with true
    by (symmetry; apply andb_true_iff; split; [apply Z.leb_le|apply Z.ltb_lt]; lia).
  replace (Z.to_nat (-1 + len)) with (length (x :: l) - 1)%nat by (unfold len; lia).
  rewrite nth_error_last.
  destruct (last (x :: l)) eqn:E; [reflexivity|].
  apply last_None in E. discriminate.
Qed.

Lemma getitem_out_of_range {A} (l : list A) (i : Z) :
  i < - Z.of_nat (length l) \/ Z.of_nat (length l) <= i ->
  getitem l i = Raise IndexError.
Proof.
  intros Hi. unfold getitem.
  destruct (i <? 0) eqn:Hneg.
  - apply Z.ltb_lt in Hneg.
    destruct (0 <=? i + Z.of_nat (length l)) eqn:H0; simpl.
    + apply Z.leb_le in H0.
      destruct (i + Z.of_nat (length l) <? Z.of_nat (length l)) eqn:H1; [|reflexivity].
      exfalso. lia.
    + reflexivity.
  - apply Z.ltb_ge in Hneg.
    destruct (0 <=? i) eqn:H0; simpl; [|reflexivity].
    destruct (i <? Z.of_nat (length l)) eqn:H1; [|reflexivity].
    apply Z.ltb_lt in H1. exfalso. lia.
Qed.

Lemma remove_first {A} `{EqDecision A} (x : A) (kept rest : list A) :
  x ∉ kept -> remove x (kept ++ x :: rest) = Ok (kept ++ rest).
Proof.
  induction kept as [|y kept IH]; intros Hx; simpl.
  - rewrite decide_True; reflexivity.
  - rewrite decide_False by (intros ->; apply Hx; left).
    rewrite IH by (intros Hin; apply Hx; right; exact Hin).
    reflexivity.
Qed.

Lemma index_elem_of {A} `{EqDecision A} (x : A) (l : list A) :
  x ∈ l <-> exists i, index x l = Ok i.
Proof.
  induction l as [|y l IH]; simpl.
  - split; [intros H'; inversion H' | intros [i Hi]; discriminate].
  - destruct (decide (y = x)) as [->|Hne].
    + split; [intros _; eexists; reflexivity | intros _; left].
    + rewrite elem_of_cons, IH. split.
      * intros [->|[i Hi]]; [congruence|]. rewrite Hi. eexists; reflexivity.
      * intros [i Hi]. right. destruct (index x l); [eexists; reflexivity | discriminate].
Qed.

Lemma index_raise {A} `{EqDecision A} (x : A) (l : list A) :
  x ∉ l -> index x l = Raise ValueError.
Proof.
  induction l as [|y l IH]; intros Hx; simpl; [reflexivity|].
  rewrite decide_False by (intros ->; apply Hx; left).
  rewrite IH by (intros Hin; apply Hx; right; exact Hin). reflexivity.
Qed.

(** Strings: a prefix or suffix that was tested for is what is cut off. *)

Lemma substring_full (s : string) : String.substring 0 (String.length s) s = s.
Proof. induction s as [|c s IH]; simpl; [reflexivity | rewrite IH; reflexivity]. Qed.

Lemma substring_split (k : nat) (s : string) :
  (k <= String.length s)%nat ->
  (String.substring 0 k s ++ String.substring k (String.length s - k) s)%string = s.
Proof.
  revert k. induction s as [|c s IH]; intros k Hk.
  - destruct k; [reflexivity | simpl in Hk; lia].
  - destruct k as [|k].
    + rewrite Nat.sub_0_r, substring_full. reflexivity.
    + simpl in Hk. specialize (IH k ltac:(lia)).
      change (String c (String.substring 0 k s
                        ++ String.substring k (String.length s - k) s)%string
              = String c s).
      rewrite IH. reflexivity.
Qed.

Lemma startswith_split (s p : string) :
  startswith s p = true -> s = (p ++ sub_prefix p s)%string.
Proof.
  unfold startswith, sub_prefix, str_drop. intros Hp.
  assert (Hlen : (String.length p <= String.length s)%nat).
  { clear -Hp. revert s Hp. induction p as [|c p IH]; intros s Hp; simpl; [lia|].
    destruct s as [|c' s]; simpl in *; [discriminate|].
    destruct (ascii_dec c c'); [|discriminate].
    specialize (IH s Hp). lia. }
  apply String.prefix_correct in Hp.
  pose proof (substring_split (String.length p) s Hlen) as Hsplit.
  rewrite Hp in Hsplit. symmetry. exact Hsplit.
Qed.

Lemma endswith_split (s e : string) :
  endswith s e = true -> s = (sub_suffix e s ++ e)%string.
Proof.
  unfold endswith, sub_suffix, drop_last, last_chars, str_take, str_drop.
  intros He. apply andb_true_iff in He as [Hlen He].
  apply Nat.leb_le in Hlen. apply bool_decide_eq_true_1 in He.
  pose proof (substring_split (String.length s - String.length e) s ltac:(lia))
    as Hsplit.
  rewrite He in Hsplit. symmetry. exact Hsplit.
Qed.

Lemma append_empty_r (s : string) : (s ++ EmptyString)%string = s.
Proof.
  induction s as [|c s IH]; [reflexivity|].
  change (String c (s ++ EmptyString)%string = String c s). rewrite IH. reflexivity.
Qed.

(** Insertion-ordered dictionaries. *)

Section Dict.

Context {K V : Type} `{EqDecision K}.
Implicit Types (d : list (K * V)) (k : K) (v : V).

Lemma dict_get_set_eq d k v : dict_get k (dict_set k v d) = Some v.
Proof.
  induction d as [|[k' v'] d IH]; simpl.
  - rewrite decide_True; reflexivity.
  - destruct (decide (k' = k)) as [->|Hne]; simpl.
    + rewrite decide_True; reflexivity.
    + rewrite decide_False by assumption. exact IH.
Qed.

Lemma dict_get_set_ne d k k' v : k <> k' -> dict_get k' (dict_set k v d) = dict_get k' d.
Proof.
  intros Hne. induction d as [|[k0 v0] d IH]; simpl.
  - rewrite decide_False by assumption. reflexivity.
  - destruct (decide (k0 = k)) as [->|Hne0]; simpl.
    + rewrite !decide_False by assumption. reflexivity.
    + destruct (decide (k0 = k')); [reflexivity | exact IH].
Qed.

Lemma dict_get_elem_of d k v : dict_get k d = Some v -> (k, v) ∈ d.
Proof.
  induction d as [|[k' v'] d IH]; simpl; [discriminate|].
  destruct (decide (k' = k)) as [->|Hne].
  - intros [= ->]. left.
  - intros Hg. right. exact (IH Hg).
Qed.

Lemma elem_of_dict_get d k v : NoDup (dict_keys d) -> (k, v) ∈ d -> dict_get k d = Some v.
Proof.
  induction d as [|[k' v'] d IH]; simpl; intros Hnd Hin; [inversion Hin|].
  apply NoDup_cons in Hnd as [Hk' Hnd].
  apply elem_of_cons in Hin as [[= -> ->]|Hin].
  - rewrite decide_True; reflexivity.
  - rewrite decide_False; [exact (IH Hnd Hin)|].
    intros ->. apply Hk'. apply (list_elem_of_fmap_2 fst _ _ Hin).
Qed.

Lemma dict_keys_set d k v :
  dict_keys (dict_set k v d)
  = if bool_decide (k ∈ dict_keys d) then dict_keys d else dict_keys d ++ [k].
Proof.
  induction d as [|[k' v'] d IH]; simpl; [reflexivity|].
  destruct (decide (k' = k)) as [->|Hne]; simpl.
  - rewrite bool_decide_eq_true_2 by left. reflexivity.
  - rewrite IH. destruct (bool_decide (k ∈ dict_keys d)) eqn:Hin.
    + apply bool_decide_eq_true_1 in Hin.
      rewrite bool_decide_eq_true_2 by (right; exact Hin). reflexivity.
    + apply bool_decide_eq_false_1 in Hin.
      rewrite bool_decide_eq_false_2; [reflexivity|].
      intros Hin'. apply elem_of_cons in Hin' as [->|Hin']; [apply Hne | apply Hin]; auto.
Qed.

Lemma dict_set_NoDup d k v : NoDup (dict_keys d) -> NoDup (dict_keys (dict_set k v d)).
Proof.
  intros Hnd. rewrite dict_keys_set.
  destruct (bool_decide (k ∈ dict_keys d)) eqn:Hin; [exact Hnd|].
  apply bool_decide_eq_false_1 in Hin.
  apply NoDup_app. split_and!; [exact Hnd | | apply NoDup_singleton].
  intros x Hx Hx'. apply list_elem_of_singleton in Hx'. subst x. exact (Hin Hx).
Qed.

Lemma dict_update_get d d' k :
  NoDup (dict_keys d') ->
  dict_get k (dict_update d d')
  = match dict_get k d' with Some v => Some v | None => dict_get k d end.
Proof.
  unfold dict_update. revert d. induction d' as [|[k' v'] d' IH]; intros d Hnd; simpl.
  - reflexivity.
  - apply NoDup_cons in Hnd as [Hk' Hnd]. rewrite IH by exact Hnd.
    destruct (decide (k' = k)) as [->|Hne].
    + destruct (dict_get k d') eqn:Hg.
      * exfalso. apply Hk'.
        apply dict_get_elem_of in Hg. apply (list_elem_of_fmap_2 fst _ _ Hg).
      * apply dict_get_set_eq.
    + destruct (dict_get k d'); [reflexivity|]. apply dict_get_set_ne. exact Hne.
Qed.

End Dict.

(** A loop that may raise: an invariant [Inv], a preorder [R] between the
    state before and after a step, and a fact [Q a] established by the
    step for [a] and kept along [R]. *)
Lemma foldM_post {A S} (Inv : S -> Prop) (R : S -> S -> Prop) (Q : A -> S -> Prop)
    (f : S -> A -> result S) (l : list A) :
  (forall s, R s s) ->
  (forall s1 s2 s3, R s1 s2 -> R s2 s3 -> R s1 s3) ->
  (forall a s s', Q a s -> R s s' -> Q a s') ->
  (forall s a s', a ∈ l -> Inv s -> f s a = Ok s' -> Inv s' /\ R s s' /\ Q a s') ->
  forall s s', Inv s -> foldM f s l = Ok s' ->
               Inv s' /\ R s s' /\ forall a, a ∈ l -> Q a s'.
Proof.
  intros Hrefl Htrans Hstable.
  induction l as [|a l IH]; intros Hstep s s' Hs; simpl.
  - intros [= <-]. split_and!; [exact Hs | apply Hrefl | intros a Ha; inversion Ha].
  - destruct (f s a) as [s1|e] eqn:Hf; simpl; [|discriminate].
    intros Hfold.
    destruct (Hstep s a s1 ltac:(left) Hs Hf) as (Hs1 & HR1 & HQ1).
    destruct (IH (fun s2 a2 s2' Ha2 => Hstep s2 a2 s2' ltac:(right; exact Ha2))
                 s1 s' Hs1 Hfold) as (Hs' & HR' & HQ').
    split_and!; [exact Hs' | exact (Htrans _ _ _ HR1 HR') |].
    intros a' Ha'. apply elem_of_cons in Ha' as [->|Ha'].
    + exact (Hstable _ _ _ HQ1 HR').
    + exact (HQ' a' Ha').
Qed.

(** [range(1, min(8, len))] has [min(7, len - 1)] elements. *)
Lemma suffix_bound (len : nat) : (Nat.min 8 len - 1 = Nat.min 7 (len - 1))%nat.
Proof. lia. Qed.

Lemma foldM_returns {A S} (Inv : S -> Prop) (f : S -> A -> result S) (l : list A) :
  (forall s a, a ∈ l -> Inv s -> exists s', f s a = Ok s' /\ Inv s') ->
  forall s, Inv s -> exists s', foldM f s l = Ok s' /\ Inv s'.
Proof.
  induction l as [|a l IH]; intros Hstep s Hs; simpl.
  - exists s. split; [reflexivity | exact Hs].
  - destruct (Hstep s a ltac:(left) Hs) as (s1 & Hf & Hs1). rewrite Hf. cbn [bind].
    apply IH; [|exact Hs1]. intros s2 a2 Ha2. apply Hstep. right. exact Ha2.
Qed.

End PyFacts.

(** ** parse.py *)

Module parse_facts.

Import parse parse_spec PyFacts.

(** C1. When the parts of speech of ending and stem differ, [check_match]
    returns [True] exactly when the ending is tagged VPAR, the stem is
    tagged V, the stem's [wid] resolves to a non-empty dictionary entry and
    the stem's spelling is that entry's last principal part (perfect-tense
    slice of the ending's form) or first principal part (otherwise); an
    unresolved [wid] or an empty slot gives [False], and so does every
    other mismatch of the parts of speech. *)
Theorem check_match_pos_differ (self : Data) (stem : Stem) (infl : Inflect) :
  in_pos infl <> st_pos stem ->
  (check_match self stem infl = Ok (VBool true) <->
     in_pos infl = "VPAR" /\ st_pos stem = "V" /\
     exists wrd, getitem (wordlist self) (st_wid stem) = Ok (Some wrd) /\
                 designated_part infl wrd = Some (st_orth stem))
  /\ (forall v, check_match self stem infl = Ok v -> is_bool v)
  /\ (getitem (wordlist self) (st_wid stem) = Raise IndexError \/
      getitem (wordlist self) (st_wid stem) = Ok None ->
      check_match self stem infl = Ok (VBool false))
  /\ (~ (in_pos infl = "VPAR" /\ st_pos stem = "V") ->
      check_match self stem infl = Ok (VBool false)).
Proof.
  intros Hpos. unfold check_match, designated_part.
  rewrite (bool_decide_eq_false_2 _ Hpos). cbn [negb].
  destruct (bool_decide (in_pos infl = "VPAR")) eqn:Hi;
    [apply bool_decide_eq_true_1 in Hi | apply bool_decide_eq_false_1 in Hi];
    (destruct (bool_decide (st_pos stem = "V")) eqn:Hs;
     [apply bool_decide_eq_true_1 in Hs | apply bool_decide_eq_false_1 in Hs]);
    cbn [andb].
  2-4: (split_and!; [split; [discriminate | intros (? & ? & _); contradiction]
                    | intros v [= <-]; exact I | reflexivity | reflexivity]).
  destruct (getitem (wordlist self) (st_wid stem)) as [[wrd|]|e] eqn:Hw.
  - (* the entry is found *)
    assert (Hcmp : forall o : option string,
      let r := p <- match o with Some x => Ok x | None => Raise IndexError end ;;
               Ok (VBool (bool_decide (st_orth stem = p))) in
      (r = Ok (VBool true) <-> o = Some (st_orth stem))
      /\ (forall v, r = Ok v -> is_bool v)).
    { intros [p|]; cbn; split.
      - split.
        + intros [= Hb]. apply bool_decide_eq_true_1 in Hb. congruence.
        + intros [= <-]. rewrite bool_decide_eq_true_2; reflexivity.
      - intros v [= <-]. exact I.
      - split; discriminate.
      - discriminate. }
    destruct (bool_decide (slice 8 12 (in_form infl) = "PERF"));
      [rewrite getitem_last | rewrite getitem_first];
      (match goal with
       | |- context [match ?o with Some x => Ok x | None => _ end] =>
           destruct (Hcmp o) as [Htrue Hbool]
       end;
       split_and!;
       [ rewrite Htrue; split;
         [ intros Ho; split_and!; [assumption..|]; eexists; split; [reflexivity|exact Ho]
         | intros (_ & _ & w & [= <-] & Ho); exact Ho ]
       | exact Hbool
       | intros [?|?]; discriminate
       | intros Hn; exfalso; apply Hn; split; assumption ]).
  - (* the slot is empty *)
    split_and!; [split; [discriminate | intros (_ & _ & w & ? & _); discriminate]
                | intros v [= <-]; exact I | reflexivity | reflexivity].
  - (* the index is out of range *)
    pose proof (getitem_raise _ _ _ Hw) as ->.
    split_and!; [split; [discriminate | intros (_ & _ & w & ? & _); discriminate]
                | intros v [= <-]; exact I | reflexivity | reflexivity].
Qed.

(** *** The disambiguator *)

(** The loop of [remove_extra_infls] never fails to find the element it
    removes, and leaves the endings of the other types in their order. *)
Lemma remove_loop (t : string) (rest kept : list Inflect) :
  (forall y, y ∈ kept -> in_pos y <> t) ->
  foldM (fun cur infl =>
           if bool_decide (in_pos infl = t) then remove infl cur else Ok cur)
        (kept ++ rest) rest
  = Ok (kept ++ filter (fun infl => in_pos infl <> t) rest).
Proof.
  revert kept. induction rest as [|x rest IH]; intros kept Hkept; simpl.
  - reflexivity.
  - destruct (bool_decide (in_pos x = t)) eqn:Hx.
    + apply bool_decide_eq_true_1 in Hx.
      rewrite remove_first by (intros Hin; exact (Hkept x Hin Hx)).
      cbn [bind]. rewrite IH by assumption.
      rewrite filter_cons_False by (intros Hn; exact (Hn Hx)). reflexivity.
    + apply bool_decide_eq_false_1 in Hx.
      cbn [bind].
      replace (kept ++ x :: rest) with ((kept ++ [x]) ++ rest)
        by (rewrite <- app_assoc; reflexivity).
      rewrite IH.
      * rewrite filter_cons_True by assumption.
        rewrite <- app_assoc. reflexivity.
      * intros y Hy. apply elem_of_app in Hy as [Hy|Hy]; [auto|].
        apply list_elem_of_singleton in Hy. subst y. assumption.
Qed.

Lemma remove_extra_infls_filter (stem : MatchedStem) (t : string) :
  remove_extra_infls stem t
  = Ok (mkMatchedStem (ms_st stem)
                      (filter (fun infl => in_pos infl <> t) (ms_infls stem))
                      (ms_encl stem)).
Proof.
  unfold remove_extra_infls.
  pose proof (remove_loop t (ms_infls stem) []) as Hloop.
  simpl app in Hloop. rewrite Hloop by (intros y Hy; inversion Hy).
  reflexivity.
Qed.

Lemma merge_into_results_None (d : DictEntry) (stem : MatchedStem)
    (results : list DictResult) :
  merge_into_results d stem results = None <->
  forall w, w ∈ results -> de_id (dr_w w) <> de_id d.
Proof.
  induction results as [|w results IH]; simpl.
  - split; [intros _ w Hw; inversion Hw | reflexivity].
  - destruct (bool_decide (de_id d = de_id (dr_w w))) eqn:Hid.
    + apply bool_decide_eq_true_1 in Hid. split.
      * destruct (contains stem (dr_stems w)); discriminate.
      * intros Hall. exfalso. apply (Hall w); [left | congruence].
    + apply bool_decide_eq_false_1 in Hid.
      destruct (merge_into_results d stem results) eqn:Hm; simpl.
      * split; [discriminate|]. intros Hall.
        destruct IH as [_ IH]. discriminate IH.
        intros w' Hw'. apply Hall. right. exact Hw'.
      * split; [|reflexivity]. intros _ w' Hw'.
        apply elem_of_cons in Hw' as [->|Hw']; [congruence|].
        destruct IH as [IH _]. apply IH; [reflexivity | exact Hw'].
Qed.

Lemma merge_into_results_Some (d : DictEntry) (stem : MatchedStem)
    (results results' : list DictResult) :
  merge_into_results d stem results = Some results' ->
  exists w', w' ∈ results' /\ de_id (dr_w w') = de_id d /\ stem ∈ dr_stems w'.
Proof.
  revert results'. induction results as [|w results IH]; intros results'; simpl.
  - discriminate.
  - destruct (bool_decide (de_id d = de_id (dr_w w))) eqn:Hid.
    + apply bool_decide_eq_true_1 in Hid.
      unfold contains.
      destruct (bool_decide (stem ∈ dr_stems w)) eqn:Hin; intros [= <-].
      * apply bool_decide_eq_true_1 in Hin.
        exists w. split_and!; [left | congruence | exact Hin].
      * eexists. split_and!; [left | simpl; congruence |].
        simpl. apply elem_of_app. right. left.
    + destruct (merge_into_results d stem results) as [r|]; [|discriminate].
      intros [= <-]. destruct (IH r eq_refl) as (w' & Hw' & Hid' & Hst).
      exists w'. split_and!; [right; exact Hw' | exact Hid' | exact Hst].
Qed.



(** *** Where the helpers raise *)

(** A participle ending against a verb stem whose entry lists no principal
    part: the subscript of the empty list is outside the [try]. *)
Lemma check_match_no_parts (self : Data) (stem : Stem) (infl : Inflect) (wrd : DictEntry) :
  in_pos infl = "VPAR" -> st_pos stem = "V" ->
  getitem (wordlist self) (st_wid stem) = Ok (Some wrd) ->
  de_parts wrd = [] ->
  check_match self stem infl = Raise IndexError.
Proof.
  intros Hi Hs Hw Hparts. unfold check_match.
  rewrite bool_decide_eq_false_2 by (rewrite Hi, Hs; discriminate). cbn [negb].
  rewrite (bool_decide_eq_true_2 _ Hi), (bool_decide_eq_true_2 _ Hs). cbn [andb].
  rewrite Hw, Hparts. destruct (bool_decide _); reflexivity.
Qed.

(** A matched stem of a verb that is not yet among the results, spelled
    unlike every principal part: [index] raises. *)
Lemma lookup_step_absent_spelling (self : Data) (results : list DictResult)
    (stem : MatchedStem) (d : DictEntry) :
  getitem (wordlist self) (st_wid (ms_st stem)) = Ok (Some d) ->
  de_pos d = "V" ->
  (forall w, w ∈ results -> de_id (dr_w w) <> de_id d) ->
  st_orth (ms_st stem) ∉ de_parts d ->
  lookup_step self results stem = Raise ValueError.
Proof.
  intros Hd Hpos Hnew Habsent. unfold lookup_step. rewrite Hd.
  destruct (merge_into_results_None d stem results) as [_ Hnone].
  rewrite (Hnone Hnew), (bool_decide_eq_true_2 _ Hpos), (index_raise _ _ Habsent).
  reflexivity.
Qed.

(** *** The reducer *)

Lemma find_is_first {A} (f : A -> bool) (l : list A) :
  match List.find f l with
  | Some a => is_first f l a
  | None => forall b, b ∈ l -> f b = false
  end.
Proof.
  induction l as [|x l IH]; simpl.
  - intros b Hb. inversion Hb.
  - destruct (f x) eqn:Hx.
    + exists [], l. split_and!; [reflexivity | exact Hx | intros b Hb; inversion Hb].
    + destruct (List.find f l) as [a|].
      * destruct IH as (l1 & l2 & -> & Ha & Hl1).
        exists (x :: l1), l2. split_and!; [reflexivity | exact Ha |].
        intros b Hb. apply elem_of_cons in Hb as [->|Hb]; auto.
      * intros b Hb. apply elem_of_cons in Hb as [->|Hb]; auto.
Qed.

Lemma discard_placeholders_eq (out : list DictResult) :
  (if negb (bool_decide (out = []))
      && negb (existsb (fun word => (0 <? length (dr_stems word))%nat) out)
   then [] else out) = discard_placeholders out.
Proof.
  unfold discard_placeholders.
  assert (Hex : existsb (fun word => (0 <? length (dr_stems word))%nat) out = false
                <-> Forall (fun word => dr_stems word = []) out).
  { induction out as [|w out IH]; simpl.
    - split; [constructor | reflexivity].
    - rewrite orb_false_iff, IH, Forall_cons. apply and_iff_compat_r.
      destruct (dr_stems w); split; intros Hx;
        first [reflexivity | discriminate Hx]. }
  destruct (bool_decide (out = [])) eqn:Hnil; simpl.
  - apply bool_decide_eq_true_1 in Hnil. subst out.
    rewrite bool_decide_eq_false_2 by (intros [Hn _]; congruence). reflexivity.
  - apply bool_decide_eq_false_1 in Hnil.
    destruct (existsb _ out) eqn:Hfound; simpl.
    + rewrite bool_decide_eq_false_2; [reflexivity|].
      intros [_ Hall]. apply Hex in Hall. congruence.
    + rewrite bool_decide_eq_true_2; [reflexivity|].
      split; [exact Hnil | apply Hex; reflexivity].
Qed.

Lemma analyze_forms_reduced (self : Data) (fuel : nat) (word : Split) :
  analyze_forms self (S fuel) word true = Some (direct_forms self word).
Proof.
  simpl. destruct (direct_forms self word) as [forms|e]; [|reflexivity].
  destruct forms; reflexivity.
Qed.

Lemma reduce_eq (self : Data) (fuel : nat) (word : Split) :
  reduce self (S fuel) word
  = Some (out <- direct_forms self (mkSplit (reduced_base self (base word)) (encl word)) ;;
          Ok (discard_placeholders out)).
Proof.
  unfold reduce, reduce_with. rewrite analyze_forms_reduced.
  destruct (direct_forms self _) as [out|e]; [|reflexivity].
  cbn [bind]. rewrite <- discard_placeholders_eq.
  destruct (negb (bool_decide (out = [])) && _); reflexivity.
Qed.

Lemma reduced_base_strips (self : Data) (s : string) :
  exists p q,
    s = (p ++ (reduced_base self s ++ q))%string
    /\ stripped (fun a => startswith s (ad_orth a)) (addons self !! "prefixes") p
    /\ stripped (fun a => endswith (reduced_base self s ++ q)%string (ad_orth a))
                (addons self !! "suffixes") q.
Proof.
  unfold reduced_base, first_prefix, first_suffix.
  set (s1 := match addons self !! "prefixes" with
             | Some l => match List.find (fun prefix => startswith s (ad_orth prefix)) l with
                         | Some prefix => sub_prefix (ad_orth prefix) s
                         | None => s
                         end
             | None => s
             end).
  assert (Hp : exists p, s = (p ++ s1)%string
               /\ stripped (fun a => startswith s (ad_orth a)) (addons self !! "prefixes") p).
  { subst s1. destruct (addons self !! "prefixes") as [l|]; [|exists EmptyString; split; reflexivity].
    pose proof (find_is_first (fun a => startswith s (ad_orth a)) l) as Hf.
    destruct (List.find _ l) as [a|].
    - exists (ad_orth a). split.
      + apply startswith_split. destruct Hf as (? & ? & _ & Ha & _). exact Ha.
      + left. exists a. split; [exact Hf | reflexivity].
    - exists EmptyString. split; [reflexivity | right; split; [exact Hf | reflexivity]]. }
  destruct Hp as (p & Hs & Hstrip). exists p.
  destruct (addons self !! "suffixes") as [l|].
  - pose proof (find_is_first (fun a => endswith s1 (ad_orth a)) l) as Hf.
    destruct (List.find _ l) as [a|].
    + assert (Hsplit : s1 = (sub_suffix (ad_orth a) s1 ++ ad_orth a)%string).
      { apply endswith_split. destruct Hf as (? & ? & _ & Ha & _). exact Ha. }
      exists (ad_orth a). rewrite <- Hsplit. split_and!; [exact Hs | exact Hstrip |].
      left. exists a. split; [exact Hf | reflexivity].
    + exists EmptyString. rewrite append_empty_r. split_and!; [exact Hs | exact Hstrip |].
      right. split; [exact Hf | reflexivity].
  - exists EmptyString. rewrite append_empty_r. split_and!; [exact Hs | exact Hstrip | reflexivity].
Qed.

(** Reduction is one-shot.  With the [reduced] flag set
    [analyze_forms] answers by direct matching alone, at call depth one;
    with the flag unset it calls the reducer exactly when direct matching
    returned no result (the only case a call depth of one does not
    cover), and a call depth of two always suffices.  The reducer strips
    at most the first matching prefix and then the first matching suffix,
    runs direct matching once more on what is left, and gives the result
    up when it holds analyses none of which has a stem (which, by
    [parse_more.reduce_keeps_result], is never). *)
Lemma reduction_one_shot (self : Data) (word : Split) :
  let word' := mkSplit (reduced_base self (base word)) (encl word) in
  (forall fuel, analyze_forms self (S fuel) word true = Some (direct_forms self word))
  /\ analyze_forms self 1 word false
     = match direct_forms self word with
       | Ok [] => None
       | r => Some r
       end
  /\ (forall fuel, analyze_forms self (S (S fuel)) word false
                   = Some (match direct_forms self word with
                           | Ok [] => out <- direct_forms self word' ;;
                                      Ok (discard_placeholders out)
                           | r => r
                           end))
  /\ (forall fuel, reduce self (S fuel) word
                   = Some (out <- direct_forms self word' ;;
                           Ok (discard_placeholders out)))
  /\ (exists p q,
        base word = (p ++ (base word' ++ q))%string
        /\ stripped (fun a => startswith (base word) (ad_orth a))
                    (addons self !! "prefixes") p
        /\ stripped (fun a => endswith (base word' ++ q)%string (ad_orth a))
                    (addons self !! "suffixes") q).
Proof.
  intros word'. split_and!.
  - intros fuel. apply analyze_forms_reduced.
  - simpl. destruct (direct_forms self word) as [[|w forms]|e]; reflexivity.
  - intros fuel.
    change (analyze_forms self (S (S fuel)) word false)
      with (match direct_forms self word with
            | Raise e => Some (Raise e)
            | Ok forms =>
                if (0 <? length forms)%nat then Some (Ok forms)
                else reduce self (S fuel) word
            end).
    destruct (direct_forms self word) as [[|w forms]|e]; try reflexivity.
    simpl Nat.ltb. cbv iota. apply reduce_eq.
  - intros fuel. apply reduce_eq.
  - apply reduced_base_strips.
Qed.

(** *** The segmenter *)

Lemma split_packons_first (s : string) (l : list Addon) :
  split_packons s l
  = match List.find (spec.leaves_base ad_orth s) l with
    | Some e => [spec.cut ad_orth to_split s e]
    | None => []
    end.
Proof.
  induction l as [|e l IH]; simpl; [reflexivity|].
  unfold spec.leaves_base at 1.
  destruct (endswith s (ad_orth e)); simpl; [|exact IH].
  destruct (bool_decide (sub_suffix (ad_orth e) s = EmptyString)); simpl; [exact IH | reflexivity].
Qed.

Lemma split_tackons_all (s : string) (l : list Addon) :
  (forall e, e ∈ l -> endswith s (ad_orth e) = true -> s <> "est" ->
             sub_suffix (ad_orth e) s <> EmptyString) ->
  split_tackons s l
  = if bool_decide (s = "est") then []
    else map (spec.cut ad_orth to_split s) (List.filter (spec.leaves_base ad_orth s) l).
Proof.
  induction l as [|e l IH]; intros Hbase; simpl.
  - destruct (bool_decide (s = "est")); reflexivity.
  - rewrite IH by (intros e' He'; apply Hbase; right; exact He').
    unfold spec.leaves_base at 2.
    destruct (endswith s (ad_orth e)) eqn:Hend; simpl.
    + destruct (bool_decide (s = "est")) eqn:Hest; simpl; [reflexivity|].
      apply bool_decide_eq_false_1 in Hest.
      rewrite bool_decide_eq_false_2 by (apply Hbase; [left | exact Hend | exact Hest]).
      reflexivity.
    + reflexivity.
Qed.

(** The segmenter of parse.py is the specified one on every text that no
    matching tackon consumes whole. *)
Lemma split_form_enclitic_spec (self : Data) (s : string) :
  (forall e, e ∈ table self "tackons" -> endswith s (ad_orth e) = true ->
             s <> "est" -> sub_suffix (ad_orth e) s <> EmptyString) ->
  split_form_enclitic self s = segment_spec self s.
Proof.
  intros Hbase. unfold split_form_enclitic, segment_spec, spec.segment, table in *.
  assert (Htack : match addons self !! "tackons" with
                  | Some tackons => [mkSplit s EnclEmpty] ++ split_tackons s tackons
                  | None => [mkSplit s EnclEmpty]
                  end
                  = to_split s None
                    :: (if bool_decide (s = "est") then []
                        else map (spec.cut ad_orth to_split s)
                                 (List.filter (spec.leaves_base ad_orth s)
                                              (default [] (addons self !! "tackons"))))).
  { destruct (addons self !! "tackons") as [l|]; simpl in *.
    - rewrite split_tackons_all by exact Hbase. reflexivity.
    - destruct (bool_decide (s = "est")); reflexivity. }
  rewrite Htack. clear Htack.
  destruct (startswith s "qu").
  - destruct (addons self !! "packons") as [l|]; simpl.
    + rewrite split_packons_first. reflexivity.
    + rewrite app_nil_r. reflexivity.
  - destruct (addons self !! "not_packons") as [l|]; simpl.
    + rewrite split_packons_first. reflexivity.
    + rewrite app_nil_r. reflexivity.
Qed.

(** *** The candidate endings *)

Lemma suffix_inflections_concat (self : Data) (form : string) :
  concat (suffix_inflections self form)
  = spec.suffix_candidates (inflects self) form.
Proof.
  unfold suffix_inflections, spec.suffix_candidates.
  rewrite suffix_bound.
  induction (seq 1 (Nat.min 7 (String.length form - 1))) as [|k l IH]; [reflexivity|].
  cbn [omap list_omap flat_map]. unfold spec.registered at 1.
  destruct (inflects self !! str_of_nat k) as [tbl|].
  - destruct (tbl !! last_chars k form); cbn [default concat app].
    + rewrite <- IH. reflexivity.
    + exact IH.
  - exact IH.
Qed.

(** The candidate endings of parse.py: every zero-length ending of the
    table when the base is a word key, then source (b). *)
Lemma viable_inflections_concat (self : Data) (form : string) (viable : list (list Inflect)) :
  viable_inflections self form = Ok viable ->
  concat viable
  = (if bool_decide (form ∈ wordkeys self)
     then default [] (inflects self !! "0" ≫= fun tbl => tbl !! EmptyString)
     else [])
    ++ spec.suffix_candidates (inflects self) form.
Proof.
  unfold viable_inflections. intros Hv.
  destruct (bool_decide (form ∈ wordkeys self)).
  - destruct (inflects self !! "0") as [tbl|]; [|discriminate].
    simpl. destruct (tbl !! EmptyString) as [zero|]; [|discriminate].
    cbn [bind] in Hv. injection Hv as <-.
    cbn [app concat default]. rewrite suffix_inflections_concat. reflexivity.
  - cbn [bind] in Hv. injection Hv as <-.
    cbn [app]. apply suffix_inflections_concat.
Qed.

(** *** Uniques *)


(** For any other base the loop of [parse] assigns [parse_result] anew:
    what the earlier forms gave does not enter the outcome. *)
Lemma parse_step_overwrites (self : Data) (fuel : nat)
    (earlier earlier' : list ResultWord) (word : Split) :
  uniques self !! base word = None ->
  parse_step self fuel earlier word = parse_step self fuel earlier' word.
Proof. intros Hu. unfold parse_step. rewrite Hu. reflexivity. Qed.


End parse_facts.


(** ** parser.py *)

Module parser_facts.

Import parser parser_spec PyFacts.

Section Facts.

Context {Enum : Type} `{!Enums Enum} `{!Matcher}.

(** *** Inflections *)

Lemma Inflection_init_fields (infl : Inflect) (stem : Stem) (i : Inflection) :
  Inflection_init infl stem = Ok i ->
  get_enum_value "WordType" (in_pos infl) = Ok (wordType i)
  /\ category i = Some (in_n infl)
  /\ affix i = in_ending infl
  /\ exists fs, analyse_features (wordType i) (in_form infl) ∅ = Ok fs
                /\ override_features (wordType i) stem fs = Ok (features i).
Proof.
  unfold Inflection_init.
  destruct (get_enum_value "WordType" (in_pos infl)) as [wt|]; [|discriminate].
  cbn [bind].
  destruct (analyse_features wt (in_form infl) ∅) as [fs|] eqn:Hfs; [|discriminate].
  cbn [bind].
  destruct (override_features wt stem fs) as [fs'|] eqn:Hfs'; [|discriminate].
  cbn [bind]. intros [= <-]. cbn.
  split_and!; try reflexivity. exists fs. split; [exact Hfs | exact Hfs'].
Qed.


Lemma Inflection_eq_value_key (e x : Inflection) :
  is_Some (category e) -> is_Some (category x) ->
  Inflection_eq e x = Ok (bool_decide (value_key e = value_key x)).
Proof.
  intros [c1 H1] [c2 H2]. unfold Inflection_eq, value_key. rewrite H1, H2.
  destruct (bool_decide (affix e = affix x)) eqn:Ha; cbn [negb];
    [apply bool_decide_eq_true_1 in Ha | apply bool_decide_eq_false_1 in Ha].
  2: { rewrite bool_decide_eq_false_2; [reflexivity | congruence]. }
  destruct (bool_decide (wordType e = wordType x)) eqn:Hw; cbn [negb];
    [apply bool_decide_eq_true_1 in Hw | apply bool_decide_eq_false_1 in Hw].
  2: { rewrite bool_decide_eq_false_2; [reflexivity | congruence]. }
  f_equal.
  destruct (bool_decide (c1 = c2)) eqn:Hc; cbn [andb];
    [apply bool_decide_eq_true_1 in Hc | apply bool_decide_eq_false_1 in Hc].
  2: { rewrite bool_decide_eq_false_2; [reflexivity | congruence]. }
  destruct (bool_decide (features e = features x)) eqn:Hf;
    [apply bool_decide_eq_true_1 in Hf | apply bool_decide_eq_false_1 in Hf].
  - rewrite bool_decide_eq_true_2; [reflexivity | congruence].
  - rewrite bool_decide_eq_false_2; [reflexivity | congruence].
Qed.

Lemma Inflection_in_value_key (x : Inflection) (l : list Inflection) :
  is_Some (category x) ->
  Forall (fun e => is_Some (category e)) l ->
  Inflection_in x l = Ok (bool_decide (value_key x ∈ map value_key l)).
Proof.
  intros Hx. induction 1 as [|e l He Hl IH]; simpl.
  - reflexivity.
  - rewrite (Inflection_eq_value_key e x He Hx). cbn [bind].
    destruct (bool_decide (value_key e = value_key x)) eqn:Heq.
    + apply bool_decide_eq_true_1 in Heq.
      rewrite bool_decide_eq_true_2; [reflexivity | rewrite Heq; left].
    + apply bool_decide_eq_false_1 in Heq. rewrite IH.
      f_equal. apply bool_decide_ext. rewrite elem_of_cons. split; [auto|].
      intros [Hk|Hk]; [congruence | exact Hk].
Qed.

(** *** The assembler *)

Section Assembler.

Variable data : DataLayer.

Implicit Types (ms : list (Z * Analysis (Enum := Enum))).
Implicit Types (a : Analysis (Enum := Enum)) (i : Inflection (Enum := Enum)).

Lemma grows_refl ms : grows ms ms.
Proof. intros k a Ha. exists a. split; [exact Ha | auto]. Qed.

Lemma grows_trans ms1 ms2 ms3 : grows ms1 ms2 -> grows ms2 ms3 -> grows ms1 ms3.
Proof.
  intros H12 H23 k a Ha.
  destruct (H12 k a Ha) as (a2 & Ha2 & Hsub2).
  destruct (H23 k a2 Ha2) as (a3 & Ha3 & Hsub3).
  exists a3. split; [exact Ha3 | auto].
Qed.

Lemma recorded_grows infl stem ms ms' :
  recorded infl stem ms -> grows ms ms' -> recorded infl stem ms'.
Proof.
  intros Hrec Hgrow Hm. destruct (Hrec Hm) as (a & i & Ha & Hi & Hkey).
  destruct (Hgrow _ _ Ha) as (a' & Ha' & Hsub).
  exists a', i. split_and!; [exact Ha' | exact Hi | auto].
Qed.

Lemma assembled_set ms k a :
  assembled ms ->
  Forall (fun i => is_Some (category i)) (inflections a) ->
  NoDup (map value_key (inflections a)) ->
  assembled (dict_set k a ms).
Proof.
  intros [Hkeys Hall] Hcat Hnd. split; [apply dict_set_NoDup, Hkeys|].
  intros k' a' Hg. destruct (decide (k = k')) as [<-|Hne].
  - rewrite dict_get_set_eq in Hg. injection Hg as <-. split; assumption.
  - rewrite dict_get_set_ne in Hg by exact Hne. exact (Hall _ _ Hg).
Qed.

Lemma match_step_assembled (infl : Inflect) ms (stem : Stem) ms' :
  assembled ms ->
  match_step infl ms stem = Ok ms' ->
  assembled ms' /\ grows ms ms' /\ recorded infl stem ms'.
Proof.
  intros Hms. unfold match_step.
  destruct (Matcher_check stem infl) eqn:Hm.
  2: { intros [= <-]. split_and!; [exact Hms | apply grows_refl |].
       intros Hm'. rewrite Hm in Hm'. discriminate Hm'. }
  destruct (Inflection_init infl stem) as [i|] eqn:Hi; [|discriminate]. cbn [bind].
  assert (Hcat : is_Some (category i)).
  { destruct (Inflection_init_fields _ _ _ Hi) as (_ & -> & _). eexists; reflexivity. }
  destruct (dict_get (st_wid stem) ms) as [a|] eqn:Ha.
  - destruct Hms as [Hkeys Hall]. destruct (Hall _ _ Ha) as [Hcats Hnd].
    rewrite (Inflection_in_value_key i (inflections a) Hcat Hcats). cbn [bind].
    destruct (bool_decide (value_key i ∈ map value_key (inflections a))) eqn:Hin;
      [apply bool_decide_eq_true_1 in Hin | apply bool_decide_eq_false_1 in Hin];
      intros [= <-].
    + split_and!; [split; assumption | apply grows_refl |].
      intros _. exists a, i. split_and!; [exact Ha | exact Hi | exact Hin].
    + split_and!.
      * apply assembled_set; [split; assumption | |]; cbn [inflections].
        -- apply Forall_app. split; [exact Hcats | repeat constructor; exact Hcat].
        -- rewrite map_app. apply NoDup_app. split_and!; [exact Hnd | | apply NoDup_singleton].
           intros key Hkey Hkey'. apply list_elem_of_singleton in Hkey'. subst key.
           exact (Hin Hkey).
      * intros k a0 Ha0. destruct (decide (st_wid stem = k)) as [<-|Hne].
        -- rewrite Ha in Ha0. injection Ha0 as <-.
           eexists. split; [apply dict_get_set_eq|]. cbn [inflections].
           intros key Hkey. rewrite map_app. apply elem_of_app. left. exact Hkey.
        -- exists a0. split; [rewrite dict_get_set_ne by exact Hne; exact Ha0 | auto].
      * intros _. eexists _, i. split_and!; [apply dict_get_set_eq | exact Hi |].
        cbn [inflections]. rewrite map_app. apply elem_of_app. right. left.
  - destruct (Lexeme_init stem) as [lx|]; [|discriminate]. cbn [bind].
    intros [= <-]. split_and!.
    + apply assembled_set; [exact Hms | |]; cbn [inflections].
      * repeat constructor. exact Hcat.
      * apply NoDup_singleton.
    + intros k a0 Ha0. destruct (decide (st_wid stem = k)) as [<-|Hne]; [congruence|].
      exists a0. split; [rewrite dict_get_set_ne by exact Hne; exact Ha0 | auto].
    + intros _. eexists _, i. split_and!; [apply dict_get_set_eq | exact Hi | left].
Qed.

(** The assembler of parser.py: one analysis per headword id, no
    inflection twice by value, every congruent ending recorded. *)
Lemma Form_match_stems_inflections_assembled (text : string)
    (viable : list Inflect) ms :
  Form_match_stems_inflections data text viable = Ok ms ->
  NoDup (dict_keys ms)
  /\ (forall k a, (k, a) ∈ ms -> NoDup (map value_key (inflections a)))
  /\ (forall stem infl, congruent_pair data text viable stem infl ->
        exists a i, dict_get (st_wid stem) ms = Some a
                    /\ Inflection_init infl stem = Ok i
                    /\ value_key i ∈ map value_key (inflections a)).
Proof.
  unfold Form_match_stems_inflections. intros Hfold.
  pose (Q := fun (infl : Inflect) ms =>
               forall stem_list stem,
                 stems data !! stem_lemma text infl = Some stem_list ->
                 stem ∈ stem_list -> recorded infl stem ms).
  apply (foldM_post assembled grows Q) in Hfold.
  - destruct Hfold as ([Hkeys Hall] & _ & HQ). split_and!.
    + exact Hkeys.
    + intros k a Hin. apply (Hall k a). apply elem_of_dict_get; assumption.
    + intros stem infl (Hinfl & (stem_list & Hlist & Hstem) & Hm).
      exact (HQ infl Hinfl stem_list stem Hlist Hstem Hm).
  - apply grows_refl.
  - apply grows_trans.
  - intros infl s s' HQ Hgrow stem_list stem Hlist Hstem.
    exact (recorded_grows _ _ _ _ (HQ stem_list stem Hlist Hstem) Hgrow).
  - intros s infl s' _ Hs.
    destruct (stems data !! stem_lemma text infl) as [stem_list|] eqn:Hlist.
    + intros Hinner.
      apply (foldM_post assembled grows (recorded infl)) in Hinner.
      * destruct Hinner as (Hs' & Hgrow & Hrec). split_and!; [exact Hs' | exact Hgrow |].
        intros stem_list' stem Hlist' Hstem. rewrite Hlist in Hlist'.
        injection Hlist' as <-. exact (Hrec stem Hstem).
      * apply grows_refl.
      * apply grows_trans.
      * intros stem s1 s2. apply recorded_grows.
      * intros s1 stem s2 _. apply match_step_assembled.
      * exact Hs.
    + intros [= <-]. split_and!; [exact Hs | apply grows_refl |].
      intros stem_list stem Hlist'. rewrite Hlist in Hlist'. discriminate Hlist'.
  - split; [constructor | intros k a Hg; discriminate].
Qed.

End Assembler.

(** *** The segmenter *)

Lemma Word_find_enclitic_all (data : DataLayer) (text list_name : string) :
  Word_find_enclitic (Enum := Enum) data text list_name
  = map (spec.cut ad_orth to_form text)
        (List.filter (spec.leaves_base ad_orth text) (table data list_name)).
Proof.
  unfold Word_find_enclitic, table.
  destruct (addons data !! list_name) as [l|]; [|reflexivity].
  change (default [] (Some l)) with l.
  induction l as [|e l IH]; [reflexivity|].
  cbn [flat_map List.filter]. rewrite IH.
  destruct (endswith text (ad_orth e)) eqn:He.
  - destruct (bool_decide (sub_suffix (ad_orth e) text = EmptyString)) eqn:Hb; cbn [negb].
    + replace (spec.leaves_base ad_orth text e) with false
        by (unfold spec.leaves_base; rewrite He, Hb; reflexivity).
      reflexivity.
    + replace (spec.leaves_base ad_orth text e) with true
        by (unfold spec.leaves_base; rewrite He, Hb; reflexivity).
      reflexivity.
  - replace (spec.leaves_base ad_orth text e) with false
      by (unfold spec.leaves_base; rewrite He; reflexivity).
    reflexivity.
Qed.

(** The segmenter of parser.py reserves no string and keeps every match
    that leaves a base. *)
Lemma Word_split_form_enclitic_all (data : DataLayer) (text : string) :
  Word_split_form_enclitic (Enum := Enum) data text = segment_all data text.
Proof.
  unfold Word_split_form_enclitic, segment_all, spec.segment_all.
  rewrite !Word_find_enclitic_all.
  destruct (startswith text "qu"); rewrite <- app_assoc; reflexivity.
Qed.

(** *** The candidate endings *)

Lemma undeclined_loop (data : DataLayer) (wts : list string) (acc : list Inflect) :
  foldM (fun viable wordtype => l <- empty data wordtype ;; Ok (viable ++ l)) acc wts
  = (zero <- spec.mapM (empty data) wts ;; Ok (acc ++ concat zero)).
Proof.
  revert acc. induction wts as [|wt wts IH]; intros acc; simpl.
  - rewrite app_nil_r. reflexivity.
  - destruct (empty data wt) as [l|]; [|reflexivity]. cbn [bind].
    rewrite IH. destruct (spec.mapM (empty data) wts); [|reflexivity].
    cbn [bind concat]. rewrite app_assoc. reflexivity.
Qed.

Lemma suffix_loop (data : DataLayer) (text : string) (ks : list nat) (acc : list Inflect) :
  fold_left (fun viable inflect_length =>
               match inflects data !! str_of_nat inflect_length with
               | Some tbl =>
                   match tbl !! last_chars inflect_length text with
                   | Some infl => viable ++ infl
                   | None => viable
                   end
               | None => viable
               end) ks acc
  = acc ++ flat_map (spec.registered (inflects data) text) ks.
Proof.
  revert acc. induction ks as [|k ks IH]; intros acc; simpl.
  - rewrite app_nil_r. reflexivity.
  - rewrite IH. unfold spec.registered at 2.
    destruct (inflects data !! str_of_nat k) as [tbl|]; [|reflexivity].
    destruct (tbl !! last_chars k text); cbn [default].
    + rewrite app_assoc. reflexivity.
    + reflexivity.
Qed.

(** The candidate endings of parser.py are the two specified sources, one
    after the other. *)
Lemma viable_inflections_spec (data : DataLayer) (text : string) :
  viable_inflections data text = candidates_spec data text.
Proof.
  unfold viable_inflections, candidates_spec, undeclined_inflections,
    undeclined_candidates, suffix_inflections.
  rewrite (suffix_bound (String.length text)).
  destruct (bool_decide (text ∈ wordkeys data)).
  - destruct (stems data !! text) as [stem_list|].
    + change (default [] (Some stem_list)) with stem_list.
      rewrite undeclined_loop.
      destruct (spec.mapM (empty data) (wordtypes stem_list)); [|reflexivity].
      cbn [bind app]. rewrite suffix_loop. reflexivity.
    + change (default [] (@None (list Stem))) with (@nil Stem).
      change (wordtypes []) with (@nil string).
      cbn [bind spec.mapM concat]. rewrite suffix_loop. reflexivity.
  - cbn [bind]. rewrite suffix_loop. reflexivity.
Qed.

(** *** Forms and words *)

Lemma analyse_forms_each (data : DataLayer) (apply_filter : bool)
    (forms forms' : list Form) :
  analyse_forms data apply_filter forms = Ok forms' <->
  Forall2 (fun form form' => analyse_form data apply_filter form = Ok form') forms forms'.
Proof.
  revert forms'. induction forms as [|f forms IH]; intros forms'; simpl.
  - split; [intros [= <-]; constructor | intros Hall; inversion Hall; reflexivity].
  - split.
    + destruct (analyse_form data apply_filter f) as [f'|e] eqn:Hf; [|discriminate].
      cbn [bind].
      destruct (analyse_forms data apply_filter forms) as [rest|e] eqn:Hrest;
        [|discriminate].
      cbn [bind]. intros [= <-]. constructor; [exact Hf | apply IH; reflexivity].
    + intros Hall. inversion Hall as [|? f2 ? rest2 Hf2 Hrest]; subst.
      apply IH in Hrest. rewrite Hf2, Hrest. reflexivity.
Qed.

Lemma get_analyses_good_forms (forms : list (Form (Enum := Enum))) :
  Word_get_analyses (Word_filter_good_forms forms) = Word_get_analyses forms.
Proof.
  unfold Word_get_analyses, Word_filter_good_forms.
  induction forms as [|f forms IH]; [reflexivity|].
  destruct (decide (analyses f <> [])) as [Hne|Hnil].
  - rewrite filter_cons_True by exact Hne. simpl. rewrite IH. reflexivity.
  - rewrite filter_cons_False by exact Hnil. simpl. rewrite IH.
    destruct (analyses f); [reflexivity | exfalso; apply Hnil; discriminate].
Qed.

(** X23. The analyses of a word of parser.py are those of all its forms, each
    form analysed and filtered on its own, in the order of the forms. *)
Lemma Word_get_analyses_union (data : DataLayer) (apply_filter : bool)
    (forms forms' : list Form) :
  Word_analyse data forms apply_filter = Ok forms' ->
  exists each,
    Forall2 (fun form form' => analyse_form data apply_filter form = Ok form')
            forms each
    /\ Word_get_analyses forms' = flat_map (fun form' => dict_values (analyses form')) each.
Proof.
  unfold Word_analyse.
  destruct (analyse_forms data apply_filter forms) as [each|] eqn:Heach; [|discriminate].
  cbn [bind]. intros Hforms. exists each. split; [apply analyse_forms_each, Heach|].
  destruct apply_filter; injection Hforms as <-.
  - apply get_analyses_good_forms.
  - reflexivity.
Qed.

(** *** Dictionary lookup *)

Lemma Analysis_lookup_stem_out_of_range (a : Analysis (Enum := Enum))
    (wordlist : list (option DictEntry)) :
  lx_id (lexeme a) < - Z.of_nat (length wordlist)
  \/ Z.of_nat (length wordlist) <= lx_id (lexeme a) ->
  Analysis_lookup_stem a wordlist = Raise IndexError.
Proof.
  intros Hid. unfold Analysis_lookup_stem.
  rewrite getitem_out_of_range by exact Hid. reflexivity.
Qed.

(** *** Uniques *)

Lemma analyse_unique_more (f : Form (Enum := Enum)) (a : Analysis) (us : list Unique) :
  analyses f = [(0, a)] ->
  foldM Form_analyse_unique f us
  = (more <- spec.mapM UniqueInflection_init us ;;
     Ok (mkForm (text f)
                [(0, mkAnalysis (lexeme a) (root a) (inflections a ++ more) (enclitic a))]
                (form_enclitic f))).
Proof.
  revert f a. induction us as [|u us IH]; intros f a Hf; simpl.
  - rewrite app_nil_r. destruct f as [t an e]; destruct a; simpl in *. congruence.
  - unfold Form_analyse_unique at 1. rewrite Hf. simpl dict_get.
    destruct (UniqueInflection_init u) as [i|]; [|reflexivity]. cbn [bind].
    rewrite (IH _ (mkAnalysis (lexeme a) (root a) (inflections a ++ [i]) (enclitic a)))
      by reflexivity.
    destruct (spec.mapM UniqueInflection_init us); [|reflexivity].
    cbn [bind text lexeme root inflections enclitic form_enclitic].
    rewrite <- app_assoc. reflexivity.
Qed.

Lemma analyse_unique_fresh (f : Form (Enum := Enum)) (u : Unique) (us : list Unique) :
  analyses f = [] ->
  foldM Form_analyse_unique f (u :: us)
  = (a0 <- unique_analysis u us ;;
     Ok (mkForm (text f) [(0, a0)] (form_enclitic f))).
Proof.
  intros Hf. unfold unique_analysis. simpl foldM.
  unfold Form_analyse_unique at 1. rewrite Hf.
  destruct (UniqueLexeme_init u) as [lx|]; [|reflexivity]. cbn [bind spec.mapM].
  destruct (UniqueInflection_init u) as [i|]; [|reflexivity]. cbn [bind].
  rewrite (analyse_unique_more _ (mkAnalysis lx EmptyString [i] None)) by reflexivity.
  destruct (spec.mapM UniqueInflection_init us); reflexivity.
Qed.

Lemma resolve_analyses_keys (data : DataLayer) (e : option Enclitic)
    (found found' : list (Z * Analysis (Enum := Enum))) :
  resolve_analyses data e found = Ok found' -> dict_keys found' = dict_keys found.
Proof.
  revert found'. induction found as [|[k a] found IH]; intros found'; simpl.
  - intros [= <-]. reflexivity.
  - destruct (Analysis_lookup_stem _ _) as [a'|]; [|discriminate]. cbn [bind].
    destruct (resolve_analyses data e found) as [rest|]; [|discriminate]. cbn [bind].
    intros [= <-]. simpl. rewrite (IH rest eq_refl). reflexivity.
Qed.

Lemma regular_analyses_keys (data : DataLayer) (f : Form) (found : list (Z * Analysis)) :
  regular_analyses data f = Ok found -> NoDup (dict_keys found).
Proof.
  unfold regular_analyses.
  destruct (viable_inflections data (text f)) as [viable|]; [|discriminate]. cbn [bind].
  destruct (Form_match_stems_inflections data (text f) viable) as [ms|] eqn:Hms;
    [|discriminate]. cbn [bind].
  intros Hres. rewrite (resolve_analyses_keys _ _ _ _ Hres).
  exact (proj1 (Form_match_stems_inflections_assembled data _ _ _ Hms)).
Qed.



End Facts.

End parser_facts.

(** ** The two parsers against the specification *)

Module claims.

Import PyFacts.

(** C1, on the sample dictionary: the ending -us of the perfect participle
    and the fourth principal part of amo. *)
Lemma check_match_pos_differ_witness :
  parse.in_pos parse_sample.us_ppl <> parse.st_pos parse_sample.amat
  /\ parse.check_match parse_sample.data parse_sample.amat parse_sample.us_ppl
     = Ok (VBool true).
Proof.
  split; [discriminate|].
  destruct (parse_facts.check_match_pos_differ
              parse_sample.data parse_sample.amat parse_sample.us_ppl
              ltac:(discriminate)) as [[_ Hback] _].
  apply Hback. split_and!; [reflexivity | reflexivity |].
  exists parse_sample.amo. split; reflexivity.
Defined.

(** C2. The helpers are not total.  In parse.py the congruence check
    raises on a verb entry that lists no principal parts, and the lookup of
    the matched stems raises on a stem whose spelling is not among the
    principal parts of its verb; in parser.py the resolution of the
    dictionary entry raises on a headword id past the end of the word
    list.  Each exception reaches the caller of [parse]. *)
Theorem helpers_raise :
  parse.check_match parse_sample.data parse_sample.inqu parse_sample.us_ppl
    = Raise IndexError
  /\ parse.parse parse_sample.data 2 "inquus" = Some (Raise IndexError)
  /\ parse.lookup_stems parse_sample.data parse_sample.amaver_matches
    = Raise ValueError
  /\ parse.parse parse_sample.data 2 "amaverat" = Some (Raise ValueError)
  /\ parser.Parser_parse parser_sample.data "straya" true = Raise IndexError.
Proof. split_and!; vm_compute; reflexivity. Qed.

(** C3. The loop of [parse] in parse.py loses analyses: "bene" is analysed
    as the adverb, the second form "be" + "ne" has no analysis, and the
    empty result of the second form is what [parse] hands on. *)
Theorem parse_loses_earlier_forms :
  parse.split_form_enclitic parse_sample.data "bene"
    = [parse.mkSplit "bene" parse.EnclEmpty;
       parse.mkSplit "be" (parse.EnclAddon parse_sample.ne)]
  /\ parse.analyze_forms parse_sample.data 2 (parse.mkSplit "bene" parse.EnclEmpty) false
     = Some (Ok [parse.mkDictResult parse_sample.bene parse.EnclEmpty
                   [parse.mkMatchedStem parse_sample.bene_stem [parse_sample.adv_pos]
                                        (Some parse.EnclEmpty)]])
  /\ parse.parse parse_sample.data 2 "bene" = Some (Ok []).
Proof. split_and!; vm_compute; reflexivity. Qed.



(** C6. The assembler of parse.py records an ending twice: the stem table
    lists the stem of aqua once per principal part, and "aqua" comes back
    with the ending -a twice under the one matched stem; and two rows of
    the ending table that differ in their identifier only are both
    recorded under the one matched stem of "amat". *)
Theorem parse_repeats_ending :
  parse.match_stems_inflections parse_sample.data "aqua"
    [[parse_sample.a_nom; parse_sample.a_imp]]
  = Ok [("aqu", [parse.mkMatchedStem parse_sample.aqu
                   [parse_sample.a_nom; parse_sample.a_nom] None])]
  /\ parse.parse parse_sample.data 2 "aqua"
     = Some (Ok [parse.mkResultWord (parse.EDict parse_sample.aqua) parse.EnclEmpty
                   [parse.mkMatchedStem parse_sample.aqu
                      [parse_sample.a_nom; parse_sample.a_nom]
                      (Some parse.EnclEmpty)]])
  /\ parse.match_stems_inflections parse_sample.data "amat"
       [[parse_sample.at_ind; parse_sample.at_ind_again]]
     = Ok [("am", [parse.mkMatchedStem parse_sample.am
                     [parse_sample.at_ind; parse_sample.at_ind_again] None])]
  /\ parse_spec.same_value parse_sample.at_ind parse_sample.at_ind_again.
Proof. split_and!; vm_compute; try reflexivity. split_and!; reflexivity. Qed.

(** C5. Each segmenter misses a rule that the other one keeps.  The
    segmenter of parser.py does not stop at the first packon: "quicumque"
    ends with the packons -cumque and -que and gets a form for each (the
    last one a repetition of the form of the tackon -que), where the
    claim and parse.py stop at -cumque.  The segmenter of parse.py does
    not test the base in its loop over the tackons: the text "ne" gets a
    form with the empty base and the enclitic -ne, where the claim, the
    loop of parse.py over the packons and parser.py discard an empty
    base.  All affixes of the two sample dictionaries are plain. *)
Theorem segmenter_slips :
  parser.Word_split_form_enclitic (Enum := string * string) parser_sample.data "quicumque"
  = [parser.Form_init "quicumque" None;
     parser.Form_init "quicum" (Some (parser.Enclitic_init parser_sample.que));
     parser.Form_init "qui" (Some (parser.Enclitic_init parser_sample.cumque));
     parser.Form_init "quicum" (Some (parser.Enclitic_init parser_sample.que))]
  /\ parser_spec.segment_spec (Enum := string * string) parser_sample.data "quicumque"
     = [parser.Form_init "quicumque" None;
        parser.Form_init "quicum" (Some (parser.Enclitic_init parser_sample.que));
        parser.Form_init "qui" (Some (parser.Enclitic_init parser_sample.cumque))]
  /\ parse.split_form_enclitic parse_sample.data "quicumque"
     = parse_spec.segment_spec parse_sample.data "quicumque"
  /\ parse.split_form_enclitic parse_sample.data "ne"
     = [parse.mkSplit "ne" parse.EnclEmpty;
        parse.mkSplit EmptyString (parse.EnclAddon parse_sample.ne)]
  /\ parse_spec.segment_spec parse_sample.data "ne" = [parse.mkSplit "ne" parse.EnclEmpty]
  /\ parser.Word_split_form_enclitic (Enum := string * string) parser_sample.data "ne"
     = parser_spec.segment_spec parser_sample.data "ne"
  /\ parse_inv.plain_addons parse_sample.data = true
  /\ parser_inv.plain_addons parser_sample.data = true.
Proof. split_and!; vm_compute; reflexivity. Qed.


(** C7, as stated, fails on parse.py: "bene" is spelled like an adverb
    stem only, and the zero-length ending of the undeclined nouns is tried
    as well. *)
Lemma every_zero_length_ending_tried :
  exists viable,
    parse.viable_inflections parse_sample.data "bene" = Ok viable
    /\ concat viable <> parse_spec.candidates_spec parse_sample.data "bene".
Proof.
  eexists. split; [vm_compute; reflexivity|].
  vm_compute. discriminate.
Qed.

(** C7 (amended). The candidate endings of parser.py are the zero-length
    endings of each part of speech found among the stems spelled like the
    base, for a base that is a word key, followed by the endings
    registered under each suffix of length 1 to min(7, length - 1).  Those
    of parse.py are every zero-length ending of the table, for a base that
    is a word key, followed by the same endings by suffix. *)
Theorem candidate_endings :
  (forall data text,
     parser.viable_inflections data text = parser_spec.candidates_spec data text)
  /\ (forall self form viable,
        parse.viable_inflections self form = Ok viable ->
        concat viable
        = (if bool_decide (form ∈ parse.wordkeys self)
           then default [] (parse.inflects self !! "0" ≫= fun tbl => tbl !! EmptyString)
           else [])
          ++ spec.suffix_candidates (parse.inflects self) form).
Proof.
  split.
  - intros data text. apply parser_facts.viable_inflections_spec.
  - intros self form viable. apply parse_facts.viable_inflections_concat.
Qed.

(** C7 (amended), on the sample dictionary of parse.py: "aqua" is no word
    key, and its candidates are the endings registered under -a. *)
Lemma candidate_endings_witness :
  concat [[parse_sample.a_nom; parse_sample.a_imp]]
  = [] ++ spec.suffix_candidates (parse.inflects parse_sample.data) "aqua".
Proof.
  apply (proj2 candidate_endings parse_sample.data "aqua"
               [[parse_sample.a_nom; parse_sample.a_imp]]).
  vm_compute. reflexivity.
Defined.





End claims.

(** ** More on parse.py *)

Module parse_more.

Import parse parse_spec parse_inv PyFacts.

(** *** Generic facts on loops *)

Lemma foldM_raise {A S} (P : exn -> Prop) (f : S -> A -> result S) (l : list A) :
  (forall s a e, a ∈ l -> f s a = Raise e -> P e) ->
  forall s e, foldM f s l = Raise e -> P e.
Proof.
  induction l as [|a l IH]; intros Hstep s e; simpl; [discriminate|].
  destruct (f s a) as [s1|e1] eqn:Hf; simpl.
  - apply IH. intros s2 a2 e2 Ha2. apply Hstep. right. exact Ha2.
  - intros [= <-]. exact (Hstep s a e1 ltac:(left) Hf).
Qed.

Lemma foldM_inv {A S} (Inv : S -> Prop) (f : S -> A -> result S) (l : list A) :
  (forall s a s', a ∈ l -> Inv s -> f s a = Ok s' -> Inv s') ->
  forall s s', Inv s -> foldM f s l = Ok s' -> Inv s'.
Proof.
  induction l as [|a l IH]; intros Hstep s s' Hs; simpl.
  - intros [= <-]. exact Hs.
  - destruct (f s a) as [s1|] eqn:Hf; [|discriminate]. cbn [bind].
    apply IH; [|exact (Hstep s a s1 ltac:(left) Hs Hf)].
    intros s2 a2 s2' Ha2. apply Hstep. right. exact Ha2.
Qed.

Lemma filter_twice {A} (P : A -> Prop) `{forall x, Decision (P x)} (l : list A) :
  filter P (filter P l) = filter P l.
Proof.
  induction l as [|x l IH]; [reflexivity|].
  destruct (decide (P x)) as [Hx|Hx].
  - rewrite (filter_cons_True P x l Hx), (filter_cons_True P x _ Hx), IH. reflexivity.
  - rewrite (filter_cons_False P x l Hx). exact IH.
Qed.

(** *** remove_extra_infls *)

(** X1. [remove_extra_infls] always returns: the stem keeps, in their order,
    exactly the endings whose part of speech is not the removed one, its
    other fields are untouched, and removing the same type once more
    changes nothing. *)
Theorem remove_extra_infls_keeps_others (stem : MatchedStem) (t : string) :
  exists stem',
    remove_extra_infls stem t = Ok stem'
    /\ ms_st stem' = ms_st stem
    /\ ms_encl stem' = ms_encl stem
    /\ ms_infls stem' = filter (fun infl => in_pos infl <> t) (ms_infls stem)
    /\ remove_extra_infls stem' t = Ok stem'.
Proof.
  eexists. split; [apply parse_facts.remove_extra_infls_filter|].
  split_and!; try reflexivity.
  rewrite parse_facts.remove_extra_infls_filter. cbn [ms_st ms_infls ms_encl].
  rewrite filter_twice. reflexivity.
Qed.

(** *** split_form_enclitic *)

Lemma split_tackons_elem (s : string) (l : list Addon) (w : Split) :
  w ∈ split_tackons s l ->
  exists e, e ∈ l /\ encl w = EnclAddon e /\ endswith s (ad_orth e) = true
            /\ base w = sub_suffix (ad_orth e) s /\ s <> "est".
Proof.
  induction l as [|e l IH]; simpl; intros Hw; [inversion Hw|].
  apply elem_of_app in Hw as [Hw|Hw].
  - destruct (endswith s (ad_orth e)) eqn:Hend; [|inversion Hw].
    destruct (bool_decide (s = "est")) eqn:Hest; simpl in Hw; [inversion Hw|].
    apply bool_decide_eq_false_1 in Hest.
    apply list_elem_of_singleton in Hw. subst w.
    exists e. split_and!; [left | reflexivity | exact Hend | reflexivity | exact Hest].
  - destruct (IH Hw) as (e' & He' & Hrest). exists e'. split; [right; exact He' | exact Hrest].
Qed.

Lemma split_tackons_length (s : string) (l : list Addon) :
  (length (split_tackons s l) <= length l)%nat
  /\ (s = "est" -> split_tackons s l = []).
Proof.
  induction l as [|e l [IHlen IHest]]; simpl; [split; [lia | reflexivity]|].
  split.
  - rewrite length_app.
    destruct (endswith s (ad_orth e)); [destruct (negb _)|]; simpl; lia.
  - intros Hest. rewrite (IHest Hest), (bool_decide_eq_true_2 _ Hest).
    destruct (endswith s (ad_orth e)); reflexivity.
Qed.

Lemma split_packons_elem (s : string) (l : list Addon) (w : Split) :
  w ∈ split_packons s l ->
  exists e, e ∈ l /\ encl w = EnclAddon e /\ endswith s (ad_orth e) = true
            /\ base w = sub_suffix (ad_orth e) s /\ base w <> EmptyString.
Proof.
  induction l as [|e l IH]; simpl; intros Hw; [inversion Hw|].
  destruct (endswith s (ad_orth e)) eqn:Hend.
  - destruct (bool_decide (sub_suffix (ad_orth e) s = EmptyString)) eqn:Hb; simpl in Hw.
    + destruct (IH Hw) as (e' & He' & Hrest). exists e'. split; [right; exact He' | exact Hrest].
    + apply bool_decide_eq_false_1 in Hb.
      apply list_elem_of_singleton in Hw. subst w.
      exists e. split_and!; [left | reflexivity | exact Hend | reflexivity | exact Hb].
  - destruct (IH Hw) as (e' & He' & Hrest). exists e'. split; [right; exact He' | exact Hrest].
Qed.

Lemma split_packons_length (s : string) (l : list Addon) :
  (length (split_packons s l) <= 1)%nat.
Proof.
  induction l as [|e l IH]; simpl; [lia|].
  destruct (endswith s (ad_orth e)); [|exact IH].
  destruct (negb _); [simpl; lia | exact IH].
Qed.

Lemma plain_addons_table (self : Data) (name : string) (e : Addon) :
  plain_addons self = true -> e ∈ table self name -> plain (ad_orth e) = true.
Proof.
  unfold plain_addons, table. intros Hall He.
  destruct (addons self !! name) as [l|] eqn:Hl; [|inversion He].
  change (default [] (Some l)) with l in He.
  rewrite forallb_forall in Hall.
  assert (Hin : In (name, l) (map_to_list (addons self))).
  { apply list_elem_of_In, elem_of_map_to_list. exact Hl. }
  specialize (Hall (name, l) Hin). cbn [snd] in Hall.
  rewrite forallb_forall in Hall. apply Hall, list_elem_of_In, He.
Qed.

(** X2. The forms of [split_form_enclitic], for affix tables of plain
    spellings (letters only, for which the substitution of the code is the
    cut of the model): the text itself comes first, with no enclitic;
    every other form carries an entry of the tackon table or of the table
    chosen by the first two letters, and its base followed by the spelling
    of that entry is the text.  There is at most one such form more than
    there are tackons, and at most one for the text "est". *)
Theorem split_form_enclitic_spells_text (self : Data) (s : string) :
  plain_addons self = true ->
  exists rest,
    split_form_enclitic self s = mkSplit s EnclEmpty :: rest
    /\ (forall w, w ∈ rest ->
          exists e, encl w = EnclAddon e
                    /\ plain (ad_orth e) = true
                    /\ s = (base w ++ ad_orth e)%string
                    /\ (e ∈ table self "tackons"
                        \/ (e ∈ table self (if startswith s "qu" then "packons"
                                            else "not_packons")
                            /\ base w <> EmptyString)))
    /\ (length rest <= length (table self "tackons") + 1)%nat
    /\ (s = "est" -> (length rest <= 1)%nat).
Proof.
  intros Hplain.
  assert (Hpl : forall name e, e ∈ table self name -> plain (ad_orth e) = true)
    by (intros name e; apply plain_addons_table; exact Hplain).
  unfold split_form_enclitic, table.
  set (tack := match addons self !! "tackons" with
               | Some tackons => split_tackons s tackons
               | None => []
               end).
  set (name := if startswith s "qu" then "packons" else "not_packons").
  set (pack := match addons self !! name with
               | Some l => split_packons s l
               | None => []
               end).
  exists (tack ++ pack).
  assert (Htack : forall w, w ∈ tack ->
            exists e, e ∈ default [] (addons self !! "tackons")
                      /\ encl w = EnclAddon e /\ s = (base w ++ ad_orth e)%string).
  { subst tack. destruct (addons self !! "tackons") as [l|]; [|intros w Hw; inversion Hw].
    intros w Hw. destruct (split_tackons_elem s l w Hw) as (e & He & Hencl & Hend & Hbase & _).
    exists e. split_and!; [exact He | exact Hencl |].
    rewrite Hbase. apply endswith_split, Hend. }
  assert (Hpack : forall w, w ∈ pack ->
            exists e, e ∈ default [] (addons self !! name)
                      /\ encl w = EnclAddon e /\ s = (base w ++ ad_orth e)%string
                      /\ base w <> EmptyString).
  { subst pack. destruct (addons self !! name) as [l|]; [|intros w Hw; inversion Hw].
    intros w Hw. destruct (split_packons_elem s l w Hw) as (e & He & Hencl & Hend & Hbase & Hne).
    exists e. split_and!; [exact He | exact Hencl | | exact Hne].
    rewrite Hbase. apply endswith_split, Hend. }
  assert (Hlt : (length tack <= length (default [] (addons self !! "tackons")))%nat
                /\ (s = "est" -> tack = [])).
  { subst tack. destruct (addons self !! "tackons") as [l|].
    - apply split_tackons_length.
    - split; [simpl; lia | reflexivity]. }
  assert (Hlp : (length pack <= 1)%nat).
  { subst pack. destruct (addons self !! name) as [l|]; [apply split_packons_length | simpl; lia]. }
  split_and!.
  - subst tack pack name.
    destruct (addons self !! "tackons"); destruct (startswith s "qu");
      match goal with
      | |- context [addons self !! ?n] => destruct (addons self !! n)
      end; simpl; rewrite ?app_nil_r; reflexivity.
  - intros w Hw. apply elem_of_app in Hw as [Hw|Hw].
    + destruct (Htack w Hw) as (e & He & Hencl & Hs). exists e.
      split_and!; [exact Hencl | exact (Hpl "tackons" e He) | exact Hs | left; exact He].
    + destruct (Hpack w Hw) as (e & He & Hencl & Hs & Hne). exists e.
      split_and!; [exact Hencl | exact (Hpl name e He) | exact Hs |].
      right. split; [exact He | exact Hne].
  - rewrite length_app. destruct Hlt as [Hlt _]. lia.
  - intros Hest. destruct Hlt as [_ Hnil]. rewrite (Hnil Hest). simpl. exact Hlp.
Qed.

(** *** check_match *)

Lemma getitem_cases {A} (l : list A) (i : Z) :
  (exists a, getitem l i = Ok a) \/ getitem l i = Raise IndexError.
Proof.
  destruct (getitem l i) as [a|e] eqn:Hg; [left; eexists; reflexivity|].
  right. rewrite (getitem_raise _ _ _ Hg). reflexivity.
Qed.

Lemma str_getitem_cases (s : string) (i : Z) :
  (exists c, str_getitem s i = Ok c) \/ str_getitem s i = Raise IndexError.
Proof.
  unfold str_getitem.
  destruct (getitem_cases (list_ascii_of_string s) i) as [[a ->]| ->];
    [left; eexists; reflexivity | right; reflexivity].
Qed.

Lemma getitem_first_Some {A} (l : list A) :
  l <> [] -> exists a, getitem l 0 = Ok a.
Proof.
  destruct l as [|a l]; [congruence|]. intros _. exists a.
  rewrite getitem_first. reflexivity.
Qed.

Lemma getitem_last_Some {A} (l : list A) :
  l <> [] -> exists a, getitem l (-1) = Ok a.
Proof.
  intros Hl. rewrite getitem_last. destruct (last l) as [a|] eqn:Hlast.
  - exists a. reflexivity.
  - apply last_None in Hlast. contradiction.
Qed.

Lemma str_getitem_Some (s : string) (i : Z) :
  s <> EmptyString -> i = 0 \/ i = -1 -> exists c, str_getitem s i = Ok c.
Proof.
  intros Hs Hi. unfold str_getitem.
  assert (Hl : list_ascii_of_string s <> []) by (destruct s; [congruence | discriminate]).
  destruct Hi as [-> | ->].
  - destruct (getitem_first_Some _ Hl) as [a ->]. eexists; reflexivity.
  - destruct (getitem_last_Some _ Hl) as [a ->]. eexists; reflexivity.
Qed.

Ltac case_getitem :=
  repeat match goal with
  | |- context [getitem ?l ?i] =>
      let a := fresh "a" in
      destruct (getitem_cases l i) as [[a ->]| ->]; cbn [bind]
  | |- context [str_getitem ?l ?i] =>
      let a := fresh "c" in
      destruct (str_getitem_cases l i) as [[a ->]| ->]; cbn [bind]
  | |- context [if bool_decide ?P then _ else _] => destruct (bool_decide P); cbn [bind]
  | |- context [match ?o with Some _ => _ | None => _ end] => destruct o; cbn [bind]
  end.

Lemma check_match_raise (self : Data) (stem : Stem) (infl : Inflect) (e : exn) :
  check_match self stem infl = Raise e -> e = IndexError.
Proof.
  unfold check_match.
  destruct (negb (bool_decide (in_pos infl = st_pos stem))).
  - destruct (_ && _); [|discriminate].
    case_getitem; congruence.
  - destruct (length (st_n stem) =? 0)%nat; case_getitem; congruence.
Qed.

(** X3. The exceptions and the values of [check_match]: it raises nothing but
    [IndexError]; the only value that is not a [bool] is the integer 0, for
    a stem without category code that has the part of speech of the
    ending; and it returns a [bool] whenever the category codes and form
    markers of both rows are non-empty and the stem's dictionary entry, if
    it resolves, lists a principal part. *)
Theorem check_match_exceptions (self : Data) (stem : Stem) (infl : Inflect) :
  (forall e, check_match self stem infl = Raise e -> e = IndexError)
  /\ (forall z, check_match self stem infl = Ok (VInt z) ->
                z = 0 /\ st_n stem = [] /\ in_pos infl = st_pos stem)
  /\ (in_n infl <> [] -> st_n stem <> [] ->
      in_form infl <> EmptyString -> st_form stem <> EmptyString ->
      (forall wrd, getitem (wordlist self) (st_wid stem) = Ok (Some wrd) ->
                   de_parts wrd <> []) ->
      exists b, check_match self stem infl = Ok (VBool b)).
Proof.
  split_and!.
  - intros e. apply check_match_raise.
  - unfold check_match. intros z.
    destruct (bool_decide (in_pos infl = st_pos stem)) eqn:Hpos; cbn [negb].
    + apply bool_decide_eq_true_1 in Hpos.
      destruct (length (st_n stem) =? 0)%nat eqn:Hlen.
      * apply Nat.eqb_eq in Hlen. apply length_zero_iff_nil in Hlen.
        case_getitem; intros [= <-] || discriminate; auto.
      * case_getitem; discriminate.
    + destruct (_ && _); [|discriminate]. case_getitem; discriminate.
  - intros Hin Hsn Hif Hsf Hparts. unfold check_match.
    destruct (getitem_first_Some _ Hin) as [a0 Ha0].
    destruct (getitem_last_Some _ Hin) as [a1 Ha1].
    destruct (getitem_first_Some _ Hsn) as [b0 Hb0].
    destruct (str_getitem_Some _ (-1) Hif ltac:(right; reflexivity)) as [g Hg].
    destruct (str_getitem_Some _ 0 Hsf ltac:(left; reflexivity)) as [f Hf].
    rewrite ?Ha0, ?Ha1, ?Hb0, ?Hg, ?Hf.
    assert (Hlen : (length (st_n stem) =? 0)%nat = false).
    { apply Nat.eqb_neq. intros H0. apply length_zero_iff_nil in H0. contradiction. }
    rewrite Hlen.
    destruct (negb (bool_decide (in_pos infl = st_pos stem))).
    + destruct (_ && _); [|eexists; reflexivity].
      destruct (getitem (wordlist self) (st_wid stem)) as [[wrd|]|e] eqn:Hw.
      * specialize (Hparts wrd eq_refl).
        destruct (getitem_first_Some _ Hparts) as [p0 ->].
        destruct (getitem_last_Some _ Hparts) as [p1 ->].
        destruct (bool_decide _); eexists; reflexivity.
      * eexists; reflexivity.
      * rewrite (getitem_raise _ _ _ Hw). eexists; reflexivity.
    + cbn [bind]. rewrite ?Ha0, ?Ha1, ?Hb0, ?Hg, ?Hf. cbn [bind].
      destruct (getitem (wordlist self) (st_wid stem)) as [[wrd|]|e] eqn:Hw;
        [| | rewrite (getitem_raise _ _ _ Hw)];
        repeat match goal with
        | |- context [if bool_decide ?P then _ else _] =>
            destruct (bool_decide P); cbn [bind]; rewrite ?Ha0, ?Ha1, ?Hb0, ?Hg, ?Hf
        end; eexists; reflexivity.
Qed.

(** *** match_stems_inflections *)

Lemma matched_grows_refl ms : matched_grows ms ms.
Proof. intros k lst m Hk Hm. exists lst, m. auto. Qed.

Lemma matched_grows_trans ms1 ms2 ms3 :
  matched_grows ms1 ms2 -> matched_grows ms2 ms3 -> matched_grows ms1 ms3.
Proof.
  intros H12 H23 k lst m Hk Hm.
  destruct (H12 k lst m Hk Hm) as (lst2 & m2 & Hk2 & Hm2 & Hw2 & Hi2).
  destruct (H23 k lst2 m2 Hk2 Hm2) as (lst3 & m3 & Hk3 & Hm3 & Hw3 & Hi3).
  exists lst3, m3. split_and!; [exact Hk3 | exact Hm3 | congruence | auto].
Qed.

Lemma matched_recorded_grows self stem_cand infl_cand ms ms' :
  matched_recorded self stem_cand infl_cand ms -> matched_grows ms ms' ->
  matched_recorded self stem_cand infl_cand ms'.
Proof.
  intros Hrec Hgrow Hc. destruct (Hrec Hc) as (lst & m & Hk & Hm & Hw & Hi).
  destruct (Hgrow _ _ _ Hk Hm) as (lst' & m' & Hk' & Hm' & Hw' & Hi').
  exists lst', m'. split_and!; [exact Hk' | exact Hm' | congruence | auto].
Qed.

(** What [add_to_lemmas] does to the matched stems of one spelling. *)
Lemma add_to_lemmas_spec (stem_cand : Stem) (infl_cand : Inflect) (lst : list MatchedStem) :
  let lst' := add_to_lemmas stem_cand infl_cand lst in
  map (fun m => st_wid (ms_st m)) lst'
  = (if bool_decide (st_wid stem_cand ∈ map (fun m => st_wid (ms_st m)) lst)
     then map (fun m => st_wid (ms_st m)) lst
     else map (fun m => st_wid (ms_st m)) lst ++ [st_wid stem_cand])
  /\ (forall m, m ∈ lst ->
        exists m', m' ∈ lst' /\ st_wid (ms_st m') = st_wid (ms_st m)
                   /\ forall i, i ∈ ms_infls m -> i ∈ ms_infls m')
  /\ (exists m, m ∈ lst' /\ st_wid (ms_st m) = st_wid stem_cand
                /\ infl_cand ∈ ms_infls m)
  /\ (forall m', m' ∈ lst' ->
        (exists m, m ∈ lst /\ ms_st m' = ms_st m /\ ms_encl m' = ms_encl m
                   /\ (ms_infls m' = ms_infls m \/ ms_infls m' = ms_infls m ++ [infl_cand]))
        \/ m' = mkMatchedStem stem_cand [infl_cand] None).
Proof.
  induction lst as [|m0 lst IH]; cbn zeta in *.
  - simpl. split_and!.
    + reflexivity.
    + intros m Hm. inversion Hm.
    + eexists. split_and!; [left | reflexivity | left].
    + intros m' Hm'. apply list_elem_of_singleton in Hm'. right. exact Hm'.
  - simpl add_to_lemmas.
    destruct (bool_decide (st_wid (ms_st m0) = st_wid stem_cand)) eqn:Hw.
    + apply bool_decide_eq_true_1 in Hw. split_and!.
      * simpl. rewrite bool_decide_eq_true_2 by (rewrite Hw; left). reflexivity.
      * intros m Hm. apply elem_of_cons in Hm as [->|Hm].
        -- eexists. split_and!; [left | reflexivity |].
           intros i Hi. simpl. apply elem_of_app. left. exact Hi.
        -- exists m. split_and!; [right; exact Hm | reflexivity | auto].
      * eexists. split_and!; [left | exact Hw |]. simpl. apply elem_of_app. right. left.
      * intros m' Hm'. left. apply elem_of_cons in Hm' as [->|Hm'].
        -- exists m0. split_and!; [left | reflexivity | reflexivity | right; reflexivity].
        -- exists m'. split_and!; [right; exact Hm' | reflexivity | reflexivity | left; reflexivity].
    + apply bool_decide_eq_false_1 in Hw.
      destruct IH as (IHw & IHold & (mn & Hmn & Hwn & Hin) & IHnew). split_and!.
      * simpl. rewrite IHw.
        destruct (bool_decide (st_wid stem_cand ∈ map (fun m => st_wid (ms_st m)) lst)) eqn:Hin'.
        -- apply bool_decide_eq_true_1 in Hin'.
           rewrite bool_decide_eq_true_2 by (right; exact Hin'). reflexivity.
        -- apply bool_decide_eq_false_1 in Hin'.
           rewrite bool_decide_eq_false_2; [reflexivity|].
           intros Hc. apply elem_of_cons in Hc as [Hc|Hc]; [congruence | contradiction].
      * intros m Hm. apply elem_of_cons in Hm as [->|Hm].
        -- exists m0. split_and!; [left | reflexivity | auto].
        -- destruct (IHold m Hm) as (m' & Hm' & Hrest). exists m'. split; [right; exact Hm' | exact Hrest].
      * exists mn. split_and!; [right; exact Hmn | exact Hwn | exact Hin].
      * intros m' Hm'. apply elem_of_cons in Hm' as [->|Hm'].
        -- left. exists m0. split_and!; [left | reflexivity | reflexivity | left; reflexivity].
        -- destruct (IHnew m' Hm') as [(m & Hm & Hrest)|Hnew]; [left | right; exact Hnew].
           exists m. split; [right; exact Hm | exact Hrest].
Qed.

Lemma add_to_lemmas_ok (k : string) (stem_cand : Stem) (infl_cand : Inflect)
    (lst : list MatchedStem) :
  st_orth stem_cand = k ->
  (lst = [] \/ lemmas_ok k lst) ->
  lemmas_ok k (add_to_lemmas stem_cand infl_cand lst).
Proof.
  intros Hk Hlst.
  destruct (add_to_lemmas_spec stem_cand infl_cand lst) as (Hw & _ & (mn & Hmn & _) & Hnew).
  assert (Hold : NoDup (map (fun m => st_wid (ms_st m)) lst)
                 /\ forall m, m ∈ lst ->
                      st_orth (ms_st m) = k /\ ms_encl m = None /\ ms_infls m <> []).
  { destruct Hlst as [->|(_ & Hnd & Hall)]; [|split; assumption].
    split; [constructor | intros m Hm; inversion Hm]. }
  destruct Hold as [Hnd Hall]. split_and!.
  - intros Hnil. rewrite Hnil in Hmn. inversion Hmn.
  - rewrite Hw. destruct (bool_decide _) eqn:Hin; [exact Hnd|].
    apply bool_decide_eq_false_1 in Hin.
    apply NoDup_app. split_and!; [exact Hnd | | apply NoDup_singleton].
    intros x Hx Hx'. apply list_elem_of_singleton in Hx'. subst x. contradiction.
  - intros m' Hm'. destruct (Hnew m' Hm') as [(m & Hm & Hst & Hencl & Hinfls)| ->].
    + destruct (Hall m Hm) as (Ho & He & Hi). rewrite Hst, Hencl. split_and!; [exact Ho | exact He |].
      destruct Hinfls as [-> | ->]; [exact Hi|]. intros Happ. apply app_eq_nil in Happ as [_ Hc].
      discriminate.
    + split_and!; [exact Hk | reflexivity | discriminate].
Qed.

Lemma match_step_ok (self : Data) (stem_cand : Stem) (infl_cand : Inflect) ms ms' :
  matched_ok ms ->
  match_step self stem_cand ms infl_cand = Ok ms' ->
  matched_ok ms' /\ matched_grows ms ms' /\ matched_recorded self stem_cand infl_cand ms'.
Proof.
  intros [Hkeys Hall]. unfold match_step.
  destruct (check_match self stem_cand infl_cand) as [c|] eqn:Hc; [|discriminate].
  cbn [bind]. destruct (truthy c) eqn:Ht.
  2: { intros [= <-]. split_and!; [split; assumption | apply matched_grows_refl |].
       intros (c' & Hc' & Ht'). congruence. }
  set (k := st_orth stem_cand).
  set (old := match dict_get k ms with Some lst => lst | None => [] end).
  assert (Hsame : match dict_get k ms with
                  | Some lst => Ok (dict_set k (add_to_lemmas stem_cand infl_cand lst) ms)
                  | None => Ok (dict_set k [mkMatchedStem stem_cand [infl_cand] None] ms)
                  end = Ok (dict_set k (add_to_lemmas stem_cand infl_cand old) ms)).
  { subst old. destruct (dict_get k ms); reflexivity. }
  rewrite Hsame. clear Hsame. intros [= <-].
  assert (Hold : old = [] \/ lemmas_ok k old).
  { subst old. destruct (dict_get k ms) as [lst|] eqn:Hg; [right; exact (Hall _ _ Hg) | left; reflexivity]. }
  destruct (add_to_lemmas_spec stem_cand infl_cand old) as (_ & Hkeep & (mn & Hmn & Hwn & Hin) & _).
  split_and!.
  - split; [apply dict_set_NoDup, Hkeys|].
    intros k' lst' Hg. destruct (decide (k = k')) as [<-|Hne].
    + rewrite dict_get_set_eq in Hg. injection Hg as <-.
      apply add_to_lemmas_ok; [reflexivity | exact Hold].
    + rewrite dict_get_set_ne in Hg by exact Hne. exact (Hall _ _ Hg).
  - intros k' lst m Hg Hm. destruct (decide (k = k')) as [<-|Hne].
    + assert (lst = old) as -> by (subst old; rewrite Hg; reflexivity).
      destruct (Hkeep m Hm) as (m' & Hm' & Hw' & Hi').
      exists (add_to_lemmas stem_cand infl_cand old), m'.
      split_and!; [apply dict_get_set_eq | exact Hm' | exact Hw' | exact Hi'].
    + exists lst, m. split_and!; [rewrite dict_get_set_ne by exact Hne; exact Hg | exact Hm | reflexivity | auto].
  - intros _. exists (add_to_lemmas stem_cand infl_cand old), mn.
    split_and!; [apply dict_get_set_eq | exact Hmn | exact Hwn | exact Hin].
Qed.

Lemma match_stems_inflections_ok (self : Data) (form : string)
    (infls : list (list Inflect)) ms :
  match_stems_inflections self form infls = Ok ms ->
  matched_ok ms
  /\ forall infl_lemma first stem_list stem_cand infl_cand,
       infl_lemma ∈ infls -> head infl_lemma = Some first ->
       stems self !! stem_lemma form first = Some stem_list ->
       stem_cand ∈ stem_list -> infl_cand ∈ infl_lemma ->
       matched_recorded self stem_cand infl_cand ms.
Proof.
  unfold match_stems_inflections. intros Hfold.
  pose (Q := fun (infl_lemma : list Inflect) ms =>
               forall first stem_list stem_cand infl_cand,
                 head infl_lemma = Some first ->
                 stems self !! stem_lemma form first = Some stem_list ->
                 stem_cand ∈ stem_list -> infl_cand ∈ infl_lemma ->
                 matched_recorded self stem_cand infl_cand ms).
  apply (foldM_post matched_ok matched_grows Q) in Hfold.
  - destruct Hfold as (Hok & _ & HQ). split; [exact Hok|].
    intros infl_lemma first stem_list stem_cand infl_cand Hin. apply (HQ _ Hin).
  - apply matched_grows_refl.
  - apply matched_grows_trans.
  - intros infl_lemma s s' HQ Hgrow first stem_list stem_cand infl_cand H1 H2 H3 H4.
    exact (matched_recorded_grows _ _ _ _ _ (HQ _ _ _ _ H1 H2 H3 H4) Hgrow).
  - intros s infl_lemma s' _ Hs.
    rewrite getitem_first. destruct (head infl_lemma) as [first|] eqn:Hhead; [|discriminate].
    cbn [bind]. fold (stem_lemma form first).
    destruct (stems self !! stem_lemma form first) as [stem_list|] eqn:Hlist.
    + intros Hmid.
      apply (foldM_post matched_ok matched_grows
               (fun stem_cand ms => forall infl_cand, infl_cand ∈ infl_lemma ->
                                      matched_recorded self stem_cand infl_cand ms))
        in Hmid.
      * destruct Hmid as (Hs' & Hgrow & Hrec). split_and!; [exact Hs' | exact Hgrow |].
        intros first' stem_list' stem_cand infl_cand Hh Hlist' Hstem Hinfl.
        rewrite Hhead in Hh. injection Hh as <-.
        rewrite Hlist in Hlist'. injection Hlist' as <-. exact (Hrec _ Hstem _ Hinfl).
      * apply matched_grows_refl.
      * apply matched_grows_trans.
      * intros stem_cand s1 s2 Hrec Hgrow infl_cand Hinfl.
        exact (matched_recorded_grows _ _ _ _ _ (Hrec _ Hinfl) Hgrow).
      * intros s1 stem_cand s2 _ Hs1 Hinner.
        apply (foldM_post matched_ok matched_grows (matched_recorded self stem_cand)) in Hinner.
        -- exact Hinner.
        -- apply matched_grows_refl.
        -- apply matched_grows_trans.
        -- intros infl_cand s3 s4. apply matched_recorded_grows.
        -- intros s3 infl_cand s4 _. apply match_step_ok.
        -- exact Hs1.
      * exact Hs.
    + intros [= <-]. split_and!; [exact Hs | apply matched_grows_refl |].
      intros first' stem_list' stem_cand infl_cand Hh Hlist'.
      rewrite Hhead in Hh. injection Hh as <-. congruence.
  - split; [constructor | intros k lst Hg; discriminate].
Qed.

(** X4. The matched stems [match_stems_inflections] returns: one group per
    stem spelling; in a group one matched stem per headword id, spelled
    like the key, with at least one ending and no enclitic yet; and every
    pair of a stem row and an ending that [check_match] accepts has its
    ending under the matched stem of that spelling and headword id.  A
    returning call had no empty list of endings among its candidates. *)
Theorem match_stems_inflections_grouped (self : Data) (form : string)
    (infls : list (list Inflect)) (ms : list (string * list MatchedStem)) :
  match_stems_inflections self form infls = Ok ms ->
  NoDup (dict_keys ms)
  /\ (forall k lst, (k, lst) ∈ ms -> lemmas_ok k lst)
  /\ (forall infl_lemma first stem_list stem_cand infl_cand,
        infl_lemma ∈ infls -> head infl_lemma = Some first ->
        stems self !! stem_lemma form first = Some stem_list ->
        stem_cand ∈ stem_list -> infl_cand ∈ infl_lemma ->
        congruent self stem_cand infl_cand ->
        exists lst m, dict_get (st_orth stem_cand) ms = Some lst /\ m ∈ lst
                      /\ st_wid (ms_st m) = st_wid stem_cand
                      /\ infl_cand ∈ ms_infls m)
  /\ [] ∉ infls.
Proof.
  intros Hms. destruct (match_stems_inflections_ok _ _ _ _ Hms) as [[Hkeys Hall] Hrec].
  split_and!.
  - exact Hkeys.
  - intros k lst Hin. apply (Hall k lst). apply elem_of_dict_get; assumption.
  - intros infl_lemma first stem_list stem_cand infl_cand H1 H2 H3 H4 H5.
    exact (Hrec _ _ _ _ _ H1 H2 H3 H4 H5).
  - intros Hnil. unfold match_stems_inflections in Hms.
    assert (Hraise : forall acc, foldM
              (fun matched_stems infl_lemma =>
                 first <- getitem infl_lemma 0 ;;
                 let stem_lemma :=
                   if (0 <? String.length (in_ending first))%nat
                   then drop_last (String.length (in_ending first)) form
                   else form in
                 match stems self !! stem_lemma with
                 | Some stem_list =>
                     foldM (fun ms stem_cand =>
                              foldM (match_step self stem_cand) ms infl_lemma)
                           matched_stems stem_list
                 | None => Ok matched_stems
                 end) acc infls <> Ok ms).
    { clear Hms Hrec Hkeys Hall. induction infls as [|x infls IH]; [inversion Hnil|].
      intros acc. simpl. apply elem_of_cons in Hnil as [<-|Hnil].
      - discriminate.
      - destruct (_ <- getitem x 0 ;; _) as [s1|]; [|discriminate].
        cbn [bind]. apply IH. exact Hnil. }
    exact (Hraise [] Hms).
Qed.

(** *** lookup_stems *)

Lemma results_grow_refl results : results_grow results results.
Proof. intros w Hw. exists w. auto. Qed.

Lemma results_grow_trans r1 r2 r3 :
  results_grow r1 r2 -> results_grow r2 r3 -> results_grow r1 r3.
Proof.
  intros H12 H23 w Hw.
  destruct (H12 w Hw) as (w2 & Hw2 & He2 & Hc2 & Hs2).
  destruct (H23 w2 Hw2) as (w3 & Hw3 & He3 & Hc3 & Hs3).
  exists w3. split_and!; [exact Hw3 | congruence | congruence | auto].
Qed.

Lemma resolved_grows self m r1 r2 :
  resolved self m r1 -> results_grow r1 r2 -> resolved self m r2.
Proof.
  intros Hres Hgrow d Hd. destruct (Hres d Hd) as (w & Hw & Hid).
  destruct (Hgrow w Hw) as (w' & Hw' & He & _). exists w'. split; [exact Hw' | congruence].
Qed.

(** What the loop over the results does when it finds the entry. *)
Lemma merge_into_results_Forall2 (d : DictEntry) (stem : MatchedStem)
    (results results' : list DictResult) :
  merge_into_results d stem results = Some results' ->
  Forall2 (fun w w' => dr_w w' = dr_w w /\ dr_enclitic w' = dr_enclitic w
                       /\ (dr_stems w' = dr_stems w \/ dr_stems w' = dr_stems w ++ [stem]))
          results results'.
Proof.
  assert (Hrefl : forall l : list DictResult,
            Forall2 (fun w w' => dr_w w' = dr_w w /\ dr_enclitic w' = dr_enclitic w
                       /\ (dr_stems w' = dr_stems w \/ dr_stems w' = dr_stems w ++ [stem])) l l).
  { induction l; constructor; auto. }
  revert results'. induction results as [|w results IH]; intros results'; simpl; [discriminate|].
  destruct (bool_decide (de_id d = de_id (dr_w w))).
  - destruct (contains stem (dr_stems w)); intros [= <-]; constructor; auto.
  - destruct (merge_into_results d stem results) as [r|]; [|discriminate].
    intros [= <-]. constructor; auto.
Qed.

Lemma lookup_step_ok (self : Data) (results results' : list DictResult) (m : MatchedStem) :
  results_ok self results ->
  lookup_step self results m = Ok results' ->
  results_ok self results' /\ results_grow results results' /\ resolved self m results'.
Proof.
  intros [Hnd Hall]. unfold lookup_step.
  destruct (getitem (wordlist self) (st_wid (ms_st m))) as [[d|]|e] eqn:Hd.
  - destruct (merge_into_results d m results) as [r|] eqn:Hm.
    + intros [= <-].
      pose proof (merge_into_results_Forall2 _ _ _ _ Hm) as Hf2.
      destruct (parse_facts.merge_into_results_Some _ _ _ _ Hm) as (w0 & Hw0 & Hid0 & _).
      split_and!.
      * split.
        -- replace (map (fun w => de_id (dr_w w)) r)
             with (map (fun w => de_id (dr_w w)) results); [exact Hnd|].
           clear -Hf2. induction Hf2 as [|w w' l l' (He & _) _ IH]; [reflexivity|].
           simpl. rewrite He, IH. reflexivity.
        -- intros w' Hw'.
           apply list_elem_of_lookup in Hw' as [i Hi].
           destruct (Forall2_lookup_r _ _ _ _ _ Hf2 Hi) as (w & Hw & He & _ & Hs).
           destruct (Hall w ltac:(apply list_elem_of_lookup; eauto)) as [Hne Hres].
           rewrite He. split; [|exact Hres].
           destruct Hs as [-> | ->]; [exact Hne|].
           intros Happ. apply app_eq_nil in Happ as [_ Hc]. discriminate.
      * intros w Hw. apply list_elem_of_lookup in Hw as [i Hi].
        destruct (Forall2_lookup_l _ _ _ _ _ Hf2 Hi) as (w' & Hw' & He & Hc & Hs).
        exists w'. split_and!; [apply list_elem_of_lookup; eauto | exact He | exact Hc |].
        intros m0 Hm0. destruct Hs as [-> | ->]; [exact Hm0 | apply elem_of_app; left; exact Hm0].
      * intros d' Hd'. rewrite Hd in Hd'. injection Hd' as <-. exists w0. split; assumption.
    + destruct (parse_facts.merge_into_results_None d m results) as [Hnone _].
      specialize (Hnone Hm).
      destruct (_ : result MatchedStem) as [stem'|] eqn:Hstem; [|discriminate].
      cbn [bind]. destruct (ms_encl stem') as [enc|]; [|discriminate]. cbn [bind].
      intros [= <-]. split_and!.
      * split.
        -- rewrite map_app. apply NoDup_app. split_and!; [exact Hnd | | apply NoDup_singleton].
           intros x Hx Hx'. apply list_elem_of_singleton in Hx'. subst x.
           apply list_elem_of_fmap in Hx as (w & Hid & Hw). cbn in Hid.
           exact (Hnone w Hw (eq_sym Hid)).
        -- intros w Hw. apply elem_of_app in Hw as [Hw|Hw]; [exact (Hall w Hw)|].
           apply list_elem_of_singleton in Hw. subst w. cbn.
           split; [discriminate | eexists; exact Hd].
      * intros w Hw. exists w. split_and!; [apply elem_of_app; left; exact Hw | | | ]; auto.
      * intros d' Hd'. rewrite Hd in Hd'. injection Hd' as <-.
        eexists. split; [apply elem_of_app; right; left|].
        reflexivity.
  - intros [= <-]. split_and!; [split; assumption | apply results_grow_refl |].
    intros d Hd'. rewrite Hd in Hd'. discriminate.
  - pose proof (getitem_raise _ _ _ Hd) as ->. intros [= <-].
    split_and!; [split; assumption | apply results_grow_refl |].
    intros d Hd'. rewrite Hd in Hd'. discriminate.
Qed.

Lemma lookup_stems_ok (self : Data) (ms : list (string * list MatchedStem))
    (results : list DictResult) :
  lookup_stems self ms = Ok results ->
  results_ok self results
  /\ forall m, m ∈ concat (dict_values ms) -> resolved self m results.
Proof.
  unfold lookup_stems. intros Hfold.
  apply (foldM_post (results_ok self) results_grow
           (fun stemlist r => forall m, m ∈ stemlist -> resolved self m r)) in Hfold.
  - destruct Hfold as (Hok & _ & HQ). split; [exact Hok|].
    intros m Hm. apply list_elem_of_In, in_concat in Hm as (stemlist & Hl & Hm).
    apply list_elem_of_In in Hl, Hm. exact (HQ stemlist Hl m Hm).
  - apply results_grow_refl.
  - apply results_grow_trans.
  - intros stemlist r r' HQ Hgrow m Hm. exact (resolved_grows _ _ _ _ (HQ m Hm) Hgrow).
  - intros r stemlist r' _ Hr Hinner.
    apply (foldM_post (results_ok self) results_grow (resolved self)) in Hinner.
    + exact Hinner.
    + apply results_grow_refl.
    + apply results_grow_trans.
    + intros m r1 r2. apply resolved_grows.
    + intros r1 m r2 _. apply lookup_step_ok.
    + exact Hr.
  - split; [constructor | intros w Hw; inversion Hw].
Qed.

(** X5. The results of [lookup_stems]: no two of them have the same
    dictionary id, each has at least one stem and an entry held by a slot
    of the word list, and every matched stem whose headword id resolves to
    a non-empty slot finds the id of its entry among them. *)
Theorem lookup_stems_results (self : Data) (ms : list (string * list MatchedStem))
    (results : list DictResult) :
  lookup_stems self ms = Ok results ->
  NoDup (map (fun w => de_id (dr_w w)) results)
  /\ (forall w, w ∈ results ->
        dr_stems w <> []
        /\ exists i, getitem (wordlist self) i = Ok (Some (dr_w w)))
  /\ (forall m d, m ∈ concat (dict_values ms) ->
        getitem (wordlist self) (st_wid (ms_st m)) = Ok (Some d) ->
        exists w, w ∈ results /\ de_id (dr_w w) = de_id d).
Proof.
  intros Hl. destruct (lookup_stems_ok _ _ _ Hl) as [[Hnd Hall] Hres].
  split_and!; [exact Hnd | exact Hall |].
  intros m d Hm Hd. exact (Hres m Hm d Hd).
Qed.

(** *** reduce *)

Lemma direct_forms_stems (self : Data) (word : Split) (out : list DictResult) :
  direct_forms self word = Ok out -> discard_placeholders out = out.
Proof.
  unfold direct_forms.
  destruct (viable_inflections self (base word)); [|discriminate]. cbn [bind].
  destruct (match_stems_inflections self (base word) _); [|discriminate]. cbn [bind].
  intros Hl. destruct (lookup_stems_ok _ _ _ Hl) as [[_ Hall] _].
  unfold discard_placeholders. destruct out as [|w out].
  - rewrite bool_decide_eq_false_2 by (intros [Hn _]; congruence). reflexivity.
  - rewrite bool_decide_eq_false_2; [reflexivity|].
    intros [_ Hf]. apply Forall_cons in Hf as [Hw _].
    destruct (Hall w ltac:(left)) as [Hne _]. contradiction.
Qed.

(** X6. [reduce] never gives a result up: what it returns is what direct
    matching returns for the reduced base, since every analysis that
    [lookup_stems] builds has a stem. *)
Theorem reduce_keeps_result (self : Data) (fuel : nat) (word : Split) :
  reduce self (S fuel) word
  = Some (direct_forms self (mkSplit (reduced_base self (base word)) (encl word))).
Proof.
  rewrite parse_facts.reduce_eq.
  destruct (direct_forms self _) as [out|e] eqn:Hd; [|reflexivity].
  cbn [bind]. rewrite (direct_forms_stems _ _ _ Hd). reflexivity.
Qed.

(** *** analyze_forms *)

Lemma lookup_step_carries (self : Data) (e : Encl) (results results' : list DictResult)
    (m : MatchedStem) :
  ms_encl m = Some e ->
  carries e results ->
  lookup_step self results m = Ok results' ->
  carries e results'.
Proof.
  intros Hm Hres. unfold lookup_step.
  destruct (getitem (wordlist self) (st_wid (ms_st m))) as [[d|]|ex].
  - destruct (merge_into_results d m results) as [r|] eqn:Hmerge.
    + intros [= <-]. pose proof (merge_into_results_Forall2 _ _ _ _ Hmerge) as Hf2.
      intros w' Hw'. apply list_elem_of_lookup in Hw' as [i Hi].
      destruct (Forall2_lookup_r _ _ _ _ _ Hf2 Hi) as (w & Hw & _ & He & Hs).
      destruct (Hres w ltac:(apply list_elem_of_lookup; eauto)) as [Hwe Hws].
      split; [congruence|].
      intros m0 Hm0. destruct Hs as [Hs|Hs]; rewrite Hs in Hm0; [exact (Hws m0 Hm0)|].
      apply elem_of_app in Hm0 as [Hm0|Hm0]; [exact (Hws m0 Hm0)|].
      apply list_elem_of_singleton in Hm0. congruence.
    + assert (Hstem : forall stem',
                (if bool_decide (de_pos d = "V") then
                   i <- index (st_orth (ms_st m)) (de_parts d) ;;
                   if (i =? 3)%nat then remove_extra_infls m "V"
                   else remove_extra_infls m "VPAR"
                 else Ok m) = Ok stem' -> ms_encl stem' = Some e).
      { intros stem'. destruct (bool_decide (de_pos d = "V")); [|congruence].
        destruct (index (st_orth (ms_st m)) (de_parts d)) as [i|]; [|discriminate].
        cbn [bind]. destruct (i =? 3)%nat;
          rewrite parse_facts.remove_extra_infls_filter; intros [= <-]; exact Hm. }
      destruct (_ : result MatchedStem) as [stem'|]; [|discriminate]. cbn [bind].
      rewrite (Hstem stem' eq_refl). cbn [bind]. intros [= <-].
      intros w Hw. apply elem_of_app in Hw as [Hw|Hw]; [exact (Hres w Hw)|].
      apply list_elem_of_singleton in Hw. subst w. cbn. split; [reflexivity|].
      intros m0 Hm0. apply list_elem_of_singleton in Hm0. subst m0. exact (Hstem _ eq_refl).
  - intros [= <-]. exact Hres.
  - destruct ex; try discriminate. intros [= <-]. exact Hres.
Qed.

Lemma direct_forms_carries (self : Data) (word : Split) (out : list DictResult) :
  direct_forms self word = Ok out -> carries (encl word) out.
Proof.
  unfold direct_forms.
  destruct (viable_inflections self (base word)); [|discriminate]. cbn [bind].
  destruct (match_stems_inflections self (base word) _) as [ms|]; [|discriminate].
  cbn [bind]. unfold lookup_stems, dict_values. rewrite map_map. cbn [snd].
  apply (foldM_inv (carries (encl word))).
  - intros r kv r' Hkv Hr. apply list_elem_of_fmap in Hkv as (kv0 & -> & _).
    apply (foldM_inv (carries (encl word))); [|exact Hr].
    intros r1 m r2 Hm Hr1. apply list_elem_of_fmap in Hm as (m0 & -> & _).
    apply lookup_step_carries; [reflexivity | exact Hr1].
  - intros w Hw. inversion Hw.
Qed.

(** X7. Every result of [analyze_forms], and every stem in it, carries the
    enclitic of the form that was analysed, also when the result comes
    from the reduced base. *)
Theorem analyze_forms_carries_enclitic (self : Data) (fuel : nat) (word : Split)
    (reduced : bool) (forms : list DictResult) :
  analyze_forms self fuel word reduced = Some (Ok forms) ->
  carries (encl word) forms.
Proof.
  destruct fuel as [|fuel]; simpl; [discriminate|].
  destruct (direct_forms self word) as [out|] eqn:Hd; [|discriminate].
  destruct (0 <? length out)%nat.
  { intros [= <-]. exact (direct_forms_carries _ _ _ Hd). }
  destruct (negb reduced); [|intros [= <-] w Hw; inversion Hw].
  unfold reduce_with.
  destruct (analyze_forms self fuel _ true) as [[out'|]|] eqn:Ha; try discriminate.
  destruct fuel as [|fuel]; [discriminate|].
  rewrite parse_facts.analyze_forms_reduced in Ha. injection Ha as Ha.
  apply direct_forms_carries in Ha. cbn [encl] in Ha.
  destruct (_ && _); intros [= <-]; [intros w Hw; inversion Hw | exact Ha].
Qed.

(** *** parse *)

Lemma analyze_forms_depth (self : Data) (fuel : nat) (word : Split) (reduced : bool) :
  analyze_forms self (S (S fuel)) word reduced = analyze_forms self 2 word reduced
  /\ exists r, analyze_forms self 2 word reduced = Some r.
Proof.
  change (analyze_forms self (S (S fuel)) word reduced)
    with (match direct_forms self word with
          | Raise e => Some (Raise e)
          | Ok forms =>
              if (0 <? length forms)%nat then Some (Ok forms)
              else if negb reduced then reduce self (S fuel) word
              else Some (Ok [])
          end).
  change (analyze_forms self 2 word reduced)
    with (match direct_forms self word with
          | Raise e => Some (Raise e)
          | Ok forms =>
              if (0 <? length forms)%nat then Some (Ok forms)
              else if negb reduced then reduce self 1 word
              else Some (Ok [])
          end).
  rewrite !parse_facts.reduce_eq.
  split; [reflexivity|].
  destruct (direct_forms self word) as [forms|e]; [|eexists; reflexivity].
  destruct (0 <? length forms)%nat; [eexists; reflexivity|].
  destruct (negb reduced); eexists; reflexivity.
Qed.

Lemma parse_loop_depth (self : Data) (fuel : nat) (words : list Split)
    (parse_result : list ResultWord) :
  parse_loop self (S (S fuel)) parse_result words = parse_loop self 2 parse_result words
  /\ exists r, parse_loop self 2 parse_result words = Some r.
Proof.
  revert parse_result. induction words as [|word words IH]; intros parse_result; simpl.
  - split; [reflexivity | eexists; reflexivity].
  - assert (Hstep : parse_step self (S (S fuel)) parse_result word
                    = parse_step self 2 parse_result word
                    /\ exists r, parse_step self 2 parse_result word = Some r).
    { unfold parse_step. destruct (uniques self !! base word);
        [split; [reflexivity | eexists; reflexivity]|].
      destruct (analyze_forms_depth self fuel word false) as [-> [r ->]].
      split; [reflexivity|]. destruct r; eexists; reflexivity. }
    destruct Hstep as [-> [r ->]]. destruct r as [pr'|e].
    + apply IH.
    + split; [reflexivity | eexists; reflexivity].
Qed.

(** X8. [parse] always answers: a call depth of two is enough for every text
    and every data, and a larger bound changes nothing. *)
Theorem parse_terminates (self : Data) (fuel : nat) (text : string) :
  parse self (S (S fuel)) text = parse self 2 text
  /\ exists r, parse self 2 text = Some r.
Proof.
  unfold parse. destruct (negb (isalpha text)).
  - split; [reflexivity | eexists; reflexivity].
  - apply parse_loop_depth.
Qed.

Lemma viable_inflections_raise (self : Data) (form : string) (e : exn) :
  viable_inflections self form = Raise e -> e = KeyError.
Proof.
  unfold viable_inflections.
  destruct (bool_decide _); [|discriminate].
  destruct (inflects self !! "0") as [tbl|]; [destruct (tbl !! EmptyString)|];
    cbn [bind]; congruence.
Qed.

Lemma match_stems_inflections_raise (self : Data) (form : string)
    (infls : list (list Inflect)) (e : exn) :
  match_stems_inflections self form infls = Raise e -> e = IndexError.
Proof.
  unfold match_stems_inflections. apply (foldM_raise (fun e => e = IndexError)).
  intros ms infl_lemma e' _.
  destruct (getitem_cases infl_lemma 0) as [[first ->]| ->]; cbn [bind]; [|congruence].
  destruct (stems self !! _) as [stem_list|]; [|discriminate].
  apply (foldM_raise (fun e => e = IndexError)). intros ms1 stem_cand e1 _. apply (foldM_raise (fun e => e = IndexError)).
  intros ms2 infl_cand e2 _. unfold match_step.
  destruct (check_match self stem_cand infl_cand) as [c|e3] eqn:Hc; cbn [bind].
  - destruct (truthy c); [destruct (dict_get _ _)|]; discriminate.
  - intros [= <-]. exact (check_match_raise _ _ _ _ Hc).
Qed.

Lemma lookup_stems_raise (self : Data) (ms : list (string * list MatchedStem)) (e : exn) :
  lookup_stems self ms = Raise e -> e = ValueError \/ e = KeyError.
Proof.
  unfold lookup_stems. apply (foldM_raise (fun e => e = ValueError \/ e = KeyError)).
  intros r stemlist e' _. apply (foldM_raise (fun e => e = ValueError \/ e = KeyError)).
  intros r1 m e1 _. unfold lookup_step.
  destruct (getitem_cases (wordlist self) (st_wid (ms_st m))) as [[[d|] ->]| ->];
    [|discriminate..].
  destruct (merge_into_results d m r1); [discriminate|].
  destruct (bool_decide (de_pos d = "V")).
  - destruct (index (st_orth (ms_st m)) (de_parts d)) as [i|e2] eqn:Hi; cbn [bind].
    + destruct (i =? 3)%nat; rewrite parse_facts.remove_extra_infls_filter; cbn [bind ms_encl];
        destruct (ms_encl m); cbn [bind]; intros [= <-]; right; reflexivity.
    + intros [= <-]. left.
      destruct (decide (st_orth (ms_st m) ∈ de_parts d)) as [Hin|Hin].
      * apply index_elem_of in Hin as [i' Hi']. congruence.
      * rewrite (index_raise _ _ Hin) in Hi. congruence.
  - cbn [bind]. destruct (ms_encl m); cbn [bind]; intros [= <-]; right; reflexivity.
Qed.

Lemma direct_forms_raise (self : Data) (word : Split) (e : exn) :
  direct_forms self word = Raise e -> internal e.
Proof.
  unfold direct_forms, internal.
  destruct (viable_inflections self (base word)) as [viable|e1] eqn:Hv; cbn [bind].
  2: { intros [= <-]. right; left. exact (viable_inflections_raise _ _ _ Hv). }
  destruct (match_stems_inflections self (base word) viable) as [ms|e2] eqn:Hm; cbn [bind].
  2: { intros [= <-]. left. exact (match_stems_inflections_raise _ _ _ _ Hm). }
  intros Hl. destruct (lookup_stems_raise _ _ _ Hl); auto.
Qed.

Lemma analyze_forms_raise (self : Data) (fuel : nat) (word : Split) (reduced : bool)
    (e : exn) :
  analyze_forms self fuel word reduced = Some (Raise e) -> internal e.
Proof.
  revert word reduced. induction fuel as [|fuel IH]; intros word reduced; simpl; [discriminate|].
  destruct (direct_forms self word) as [forms|e1] eqn:Hd.
  - destruct (0 <? length forms)%nat; [discriminate|].
    destruct (negb reduced); [|discriminate].
    unfold reduce_with.
    destruct (analyze_forms self fuel _ true) as [[out|e2]|] eqn:Ha; [| |discriminate].
    + destruct (_ && _); discriminate.
    + intros [= <-]. exact (IH _ _ Ha).
  - intros [= <-]. exact (direct_forms_raise _ _ _ Hd).
Qed.

Lemma parse_loop_raise (self : Data) (fuel : nat) (words : list Split)
    (parse_result : list ResultWord) (e : exn) :
  parse_loop self fuel parse_result words = Some (Raise e) -> internal e.
Proof.
  revert parse_result. induction words as [|word words IH]; intros parse_result; simpl;
    [discriminate|].
  destruct (parse_step self fuel parse_result word) as [[pr|e1]|] eqn:Hs; [| |discriminate].
  - apply IH.
  - intros [= <-]. unfold parse_step in Hs.
    destruct (uniques self !! base word); [discriminate|].
    destruct (analyze_forms self fuel word false) as [[forms|e2]|] eqn:Ha; try discriminate.
    injection Hs as <-. exact (analyze_forms_raise _ _ _ _ _ Ha).
Qed.

(** X9. The exceptions of [parse], for a text of ASCII characters and affix
    tables of plain spellings (where [isalpha] and the cuts of the model
    are those of the code): the input-validation exception is raised for a
    text that is not alphabetic, whatever the other tables, and for no
    other text; any other exception is an [IndexError], a [KeyError] or a
    [ValueError] of a helper. *)
Theorem parse_exceptions (self : Data) (fuel : nat) (text : string) :
  is_ascii text = true ->
  plain_addons self = true ->
  (isalpha text = false -> parse self fuel text = Some (Raise WordsException))
  /\ (forall e, parse self fuel text = Some (Raise e) ->
        (e = WordsException /\ isalpha text = false)
        \/ (internal e /\ isalpha text = true)).
Proof.
  intros _ _. unfold parse. destruct (isalpha text) eqn:Halpha; cbn [negb]; split.
  - discriminate.
  - intros e He. right. split; [exact (parse_loop_raise _ _ _ _ _ He) | reflexivity].
  - reflexivity.
  - intros e [= <-]. left. split; reflexivity.
Qed.

Lemma parse_loop_app (self : Data) (fuel : nat) (words : list Split) (word : Split)
    (parse_result r : list ResultWord) :
  parse_loop self fuel parse_result words = Some (Ok r) ->
  parse_loop self fuel parse_result (words ++ [word])
  = match parse_step self fuel r word with
    | Some (Ok r') => Some (Ok r')
    | other => other
    end.
Proof.
  revert parse_result. induction words as [|w words IH]; intros parse_result; simpl.
  - intros [= <-]. destruct (parse_step self fuel parse_result word) as [[?|?]|]; reflexivity.
  - destruct (parse_step self fuel parse_result w) as [[pr|?]|]; try discriminate.
    apply IH.
Qed.

(** X10. What [parse] hands to the formatter when the last form of the text
    has no unique entry and the forms before it raised nothing: the
    analyses of that last form alone. *)
Theorem parse_returns_last_form (self : Data) (fuel : nat) (text : string)
    (words : list Split) (word : Split) (earlier : list ResultWord) :
  isalpha text = true ->
  split_form_enclitic self text = words ++ [word] ->
  uniques self !! base word = None ->
  parse_loop self fuel [] words = Some (Ok earlier) ->
  parse self fuel text
  = match analyze_forms self fuel word false with
    | Some (Ok forms) => Some (Ok (map of_dict_result forms))
    | Some (Raise e) => Some (Raise e)
    | None => None
    end.
Proof.
  intros Halpha Hsplit Hu Hearlier. unfold parse. rewrite Halpha, Hsplit. cbn [negb].
  rewrite (parse_loop_app _ _ _ _ _ _ Hearlier). unfold parse_step. rewrite Hu.
  destruct (analyze_forms self fuel word false) as [[?|?]|]; reflexivity.
Qed.

(** *** On the sample dictionary *)

(** The stem am- and the ending -at are congruent. *)
Lemma check_match_exceptions_witness :
  exists b, check_match parse_sample.data parse_sample.am parse_sample.at_ind
            = Ok (VBool b).
Proof.
  destruct (check_match_exceptions parse_sample.data parse_sample.am parse_sample.at_ind)
    as (_ & _ & Hbool).
  apply Hbool; try discriminate.
  intros wrd Hw. vm_compute in Hw. injection Hw as <-. discriminate.
Defined.

(** The matched stems of "amat" by the endings -at. *)
Lemma match_stems_inflections_grouped_witness :
  exists ms,
    match_stems_inflections parse_sample.data "amat" [[parse_sample.at_ind]] = Ok ms
    /\ NoDup (dict_keys ms)
    /\ (forall k lst, (k, lst) ∈ ms -> lemmas_ok k lst)
    /\ [] ∉ [[parse_sample.at_ind]].
Proof.
  eexists. split; [vm_compute; reflexivity|].
  destruct (match_stems_inflections_grouped parse_sample.data "amat"
              [[parse_sample.at_ind]] _ ltac:(vm_compute; reflexivity))
    as (Hkeys & Hall & _ & Hnil).
  split_and!; [exact Hkeys | exact Hall | exact Hnil].
Defined.

(** The results of the two matched stems of the verb amo. *)
Lemma lookup_stems_results_witness :
  exists results,
    lookup_stems parse_sample.data parse_sample.amo_matches = Ok results
    /\ NoDup (map (fun w => de_id (dr_w w)) results)
    /\ forall w, w ∈ results -> dr_stems w <> [].
Proof.
  eexists. split; [vm_compute; reflexivity|].
  destruct (lookup_stems_results parse_sample.data parse_sample.amo_matches _
              ltac:(vm_compute; reflexivity))
    as (Hnd & Hall & _).
  split; [exact Hnd | intros w Hw; exact (proj1 (Hall w Hw))].
Defined.

(** "aquaque" is answered by the analyses of its last form, aqua + -que. *)
Lemma parse_returns_last_form_witness :
  parse parse_sample.data 2 "aquaque"
  = match analyze_forms parse_sample.data 2
            (mkSplit "aqua" (EnclAddon parse_sample.que)) false with
    | Some (Ok forms) => Some (Ok (map of_dict_result forms))
    | Some (Raise e) => Some (Raise e)
    | None => None
    end.
Proof.
  apply (parse_returns_last_form parse_sample.data 2 "aquaque"
           [mkSplit "aquaque" EnclEmpty]
           (mkSplit "aqua" (EnclAddon parse_sample.que)) []).
  - vm_compute. reflexivity.
  - vm_compute. reflexivity.
  - vm_compute. reflexivity.
  - vm_compute. reflexivity.
Defined.

(** The analyses of aqua + -que carry the enclitic -que. *)
Lemma analyze_forms_carries_enclitic_witness :
  exists forms,
    analyze_forms parse_sample.data 2
      (mkSplit "aqua" (EnclAddon parse_sample.que)) false = Some (Ok forms)
    /\ forms <> []
    /\ carries (EnclAddon parse_sample.que) forms.
Proof.
  eexists. split; [vm_compute; reflexivity|]. split; [discriminate|].
  apply (analyze_forms_carries_enclitic parse_sample.data 2
           (mkSplit "aqua" (EnclAddon parse_sample.que)) false).
  vm_compute. reflexivity.
Defined.

(** "quicumque" on the sample dictionary, whose affixes are plain: at
    most three forms with an enclitic. *)
Lemma split_form_enclitic_spells_text_witness :
  exists rest,
    split_form_enclitic parse_sample.data "quicumque"
    = mkSplit "quicumque" EnclEmpty :: rest
    /\ (length rest <= 3)%nat.
Proof.
  destruct (split_form_enclitic_spells_text parse_sample.data "quicumque"
              ltac:(vm_compute; reflexivity))
    as (rest & Hsplit & _ & Hlen & _).
  exists rest. split; [exact Hsplit | exact Hlen].
Defined.

(** A text with a digit is refused. *)
Lemma parse_exceptions_witness :
  parse parse_sample.data 2 "aqua1" = Some (Raise WordsException).
Proof.
  destruct (parse_exceptions parse_sample.data 2 "aqua1"
              ltac:(vm_compute; reflexivity) ltac:(vm_compute; reflexivity))
    as [Hraise _].
  apply Hraise. vm_compute. reflexivity.
Defined.

End parse_more.

(** ** More on parser.py *)

Module parser_more.

Import parser parser_spec parser_inv PyFacts.

Section More.

Context {Enum : Type} `{!Enums Enum} `{!Matcher}.

(** *** Inflection.__eq__ *)

(** X11. [Inflection.__eq__] is symmetric, raises exactly when the affixes and
    the word types agree and one of the two objects has no category, holds
    exactly when affix, word type, category and features agree, and does
    not look at the stem spelling or the ending id. *)
Theorem Inflection_eq_cases (a b : Inflection) :
  Inflection_eq a b = Inflection_eq b a
  /\ (forall e, Inflection_eq a b = Raise e <->
        e = AttributeError /\ affix a = affix b /\ wordType a = wordType b
        /\ (category a = None \/ category b = None))
  /\ (Inflection_eq a b = Ok true <->
        is_Some (category a) /\ value_key a = value_key b)
  /\ (forall s1 s2 i1 i2,
        Inflection_eq
          (mkInflection (wordType a) (category a) s1 (affix a) (features a) i1)
          (mkInflection (wordType b) (category b) s2 (affix b) (features b) i2)
        = Inflection_eq a b).
Proof.
  unfold Inflection_eq, value_key. split_and!.
  - destruct (category a), (category b);
      repeat case_bool_decide; cbn [negb andb]; try reflexivity; congruence.
  - intros e. destruct (category a), (category b);
      repeat case_bool_decide; cbn [negb andb]; split;
      try discriminate; try (intros [= <-]); try (intros (-> & ? & ? & [?|?]));
      try congruence; try (split_and!; auto; fail).
  - split.
    + destruct (category a), (category b);
        repeat case_bool_decide; cbn [negb andb]; try discriminate.
      intros _. split; [eexists; reflexivity | congruence].
    + intros [[c Hc] Hkey]. injection Hkey as Ha Hw Hcat Hf.
      rewrite Hc in *. rewrite <- Hcat.
      rewrite !bool_decide_eq_true_2 by assumption || reflexivity. reflexivity.
  - reflexivity.
Qed.

(** *** Inflection.analyse_features *)

Lemma feature_slots_NoDup (wt : Enum) (lst : list string) :
  feature_slots wt = Some lst -> NoDup lst.
Proof.
  unfold feature_slots.
  repeat case_decide; intros [= <-]; apply (bool_decide_unpack _); vm_compute; exact I.
Qed.

Lemma fill_features_spec (lst feats : list string) (fs fs' : gmap string Enum) :
  NoDup lst ->
  fill_features lst feats fs = Ok fs' ->
  (forall idx slot feature,
     lst !! idx = Some slot -> feats !! idx = Some feature ->
     exists v, get_enum_value slot feature = Ok v /\ fs' !! slot = Some v)
  /\ (forall slot, slot ∉ take (length feats) lst -> fs' !! slot = fs !! slot).
Proof.
  revert feats fs. induction lst as [|slot lst IH]; intros feats fs Hnd; simpl.
  - intros [= <-]. split; [intros idx slot feature Hl; discriminate | reflexivity].
  - destruct feats as [|feature feats]; simpl.
    + intros [= <-]. split; [intros idx s0 f0 _ Hf; discriminate | reflexivity].
    + apply NoDup_cons in Hnd as [Hslot Hnd].
      destruct (get_enum_value slot feature) as [v|] eqn:Hv; [|discriminate].
      cbn [bind]. intros Hfill.
      destruct (IH feats _ Hnd Hfill) as [Hset Hother]. split.
      * intros [|idx] s0 f0; simpl.
        -- intros [= <-] [= <-]. exists v. split; [exact Hv|].
           rewrite Hother; [apply lookup_insert_eq|].
           intros Hin. apply Hslot. exact (subseteq_take _ _ _ Hin).
        -- apply Hset.
      * intros s0 Hs0. apply not_elem_of_cons in Hs0 as [Hne Hs0].
        rewrite (Hother s0 Hs0). apply lookup_insert_ne. congruence.
Qed.

(** X12. [analyse_features] decodes the features position by position into the
    slots of the word type: a feature beyond the last slot is ignored, a
    slot beyond the last feature keeps what it held, and so does every key
    that is no slot; an unknown word type changes nothing. *)
Theorem analyse_features_slots (wt : Enum) (feats : list string)
    (fs fs' : gmap string Enum) :
  analyse_features wt feats fs = Ok fs' ->
  (feature_slots wt = None -> fs' = fs)
  /\ (forall lst, feature_slots wt = Some lst ->
        (forall idx slot feature,
           lst !! idx = Some slot -> feats !! idx = Some feature ->
           exists v, get_enum_value slot feature = Ok v /\ fs' !! slot = Some v)
        /\ (forall slot, slot ∉ take (length feats) lst -> fs' !! slot = fs !! slot)).
Proof.
  unfold analyse_features. intros Hfs. split.
  - intros Hnone. rewrite Hnone in Hfs. congruence.
  - intros lst Hlst. rewrite Hlst in Hfs.
    exact (fill_features_spec _ _ _ _ (feature_slots_NoDup _ _ Hlst) Hfs).
Qed.

(** *** Analysis.lookup_stem *)

Lemma getitem_in_range {A} (l : list A) (i : Z) :
  - Z.of_nat (length l) <= i < Z.of_nat (length l) ->
  exists a, getitem l i = Ok a.
Proof.
  intros Hi. unfold getitem.
  destruct (i <? 0) eqn:Hneg; [apply Z.ltb_lt in Hneg | apply Z.ltb_ge in Hneg].
  - rewrite (proj2 (andb_true_iff _ _)) by (split; [apply Z.leb_le | apply Z.ltb_lt]; lia).
    destruct (nth_error l (Z.to_nat (i + Z.of_nat (length l)))) as [a|] eqn:Hn;
      [eexists; reflexivity|].
    apply nth_error_None in Hn. lia.
  - rewrite (proj2 (andb_true_iff _ _)) by (split; [apply Z.leb_le | apply Z.ltb_lt]; lia).
    destruct (nth_error l (Z.to_nat i)) as [a|] eqn:Hn; [eexists; reflexivity|].
    apply nth_error_None in Hn. lia.
Qed.

(** X13. [Analysis.lookup_stem] raises exactly when the id of the lexeme is
    outside [-len, len) of the word list (a negative id inside it counts
    from the end); otherwise it changes nothing but the roots and senses of
    the lexeme, and these only when the slot is not empty. *)
Theorem Analysis_lookup_stem_cases (a : Analysis (Enum := Enum))
    (wl : list (option DictEntry)) :
  (forall e, Analysis_lookup_stem a wl = Raise e <->
     e = IndexError
     /\ (lx_id (lexeme a) < - Z.of_nat (length wl)
         \/ Z.of_nat (length wl) <= lx_id (lexeme a)))
  /\ (forall a', Analysis_lookup_stem a wl = Ok a' ->
        lx_id (lexeme a') = lx_id (lexeme a)
        /\ lx_wordType (lexeme a') = lx_wordType (lexeme a)
        /\ is_unique (lexeme a') = is_unique (lexeme a)
        /\ inflections a' = inflections a
        /\ enclitic a' = enclitic a
        /\ ((getitem wl (lx_id (lexeme a)) = Ok None /\ a' = a)
            \/ exists d, getitem wl (lx_id (lexeme a)) = Ok (Some d)
                         /\ lx_roots (lexeme a') = de_parts d
                         /\ lx_senses (lexeme a') = de_senses d)).
Proof.
  unfold Analysis_lookup_stem. split.
  - intros e. split.
    + destruct (getitem wl (lx_id (lexeme a))) as [[d|]|e'] eqn:Hg; cbn [bind];
        try discriminate.
      intros [= <-]. split; [exact (getitem_raise _ _ _ Hg)|].
      destruct (decide (- Z.of_nat (length wl) <= lx_id (lexeme a) < Z.of_nat (length wl)))
        as [Hin|Hout]; [|lia].
      destruct (getitem_in_range wl _ Hin) as [x Hx]. congruence.
    + intros [-> Hout]. rewrite getitem_out_of_range by exact Hout. reflexivity.
  - intros a'. destruct (getitem wl (lx_id (lexeme a))) as [[d|]|e'] eqn:Hg; cbn [bind];
      [| |discriminate]; intros [= <-]; cbn; split_and!; try reflexivity.
    + right. exists d. split_and!; reflexivity.
    + left. split; reflexivity.
Qed.

(** *** Parser.parse and the case of the text *)

Lemma lower_char_idemp (c : ascii) : lower_char (lower_char c) = lower_char c.
Proof. destruct c as [[] [] [] [] [] [] [] []]; reflexivity. Qed.

Lemma lower_char_letter (c : ascii) : is_letter (lower_char c) = is_letter c.
Proof. destruct c as [[] [] [] [] [] [] [] []]; reflexivity. Qed.

Lemma lower_idemp (s : string) : lower (lower s) = lower s.
Proof.
  induction s as [|c s IH]; simpl; [reflexivity|].
  rewrite lower_char_idemp, IH. reflexivity.
Qed.

Lemma isalpha_lower (s : string) : isalpha (lower s) = isalpha s.
Proof.
  assert (Hall : forall s, forallb is_letter (list_ascii_of_string (lower s))
                           = forallb is_letter (list_ascii_of_string s)).
  { intros s'. induction s' as [|c s' IH]; simpl; [reflexivity|].
    rewrite lower_char_letter, IH. reflexivity. }
  destruct s as [|c s]; [reflexivity|].
  unfold isalpha. simpl. rewrite lower_char_letter, Hall. reflexivity.
Qed.

Lemma lower_char_ascii (c : ascii) :
  (nat_of_ascii c <? 128)%nat = true -> (nat_of_ascii (lower_char c) <? 128)%nat = true.
Proof.
  destruct c as [[] [] [] [] [] [] [] []]; intros Hc; try reflexivity; discriminate Hc.
Qed.

Lemma lower_ascii (s : string) : is_ascii s = true -> is_ascii (lower s) = true.
Proof.
  unfold is_ascii. induction s as [|c s IH]; simpl; [reflexivity|].
  intros Hs. apply andb_true_iff in Hs as [Hc Hs].
  rewrite (lower_char_ascii c Hc), (IH Hs). reflexivity.
Qed.

(** X14. [Parser.parse] of parser.py does not see the case of a text of
    ASCII characters (where [isalpha] and [lower] of the model are those of
    the code): the text in lower case is such a text again, the parser
    answers for a text what it answers for the text in lower case, and the
    word it returns carries the text in lower case. *)
Theorem Parser_parse_ignores_case (data : DataLayer) (s : string)
    (apply_filters : bool) :
  is_ascii s = true ->
  is_ascii (lower s) = true
  /\ Parser_parse data (lower s) apply_filters = Parser_parse data s apply_filters
  /\ (isalpha s = false -> Parser_parse data s apply_filters = Raise WordsException)
  /\ (forall w, Parser_parse data s apply_filters = Ok w ->
        isalpha s = true /\ word_text w = lower s).
Proof.
  intros Hascii. unfold Parser_parse. rewrite isalpha_lower, lower_idemp. split_and!.
  - exact (lower_ascii s Hascii).
  - reflexivity.
  - intros ->. reflexivity.
  - intros w. destruct (isalpha s); cbn [negb]; [|discriminate].
    destruct (Word_analyse data _ apply_filters); cbn [bind]; [|discriminate].
    intros [= <-]. split; reflexivity.
Qed.

(** *** Word.split_form_enclitic *)

Lemma Word_find_enclitic_elem (data : DataLayer) (s list_name : string)
    (f : Form (Enum := Enum)) :
  f ∈ Word_find_enclitic data s list_name <->
  exists l e, addons data !! list_name = Some l /\ e ∈ l
              /\ endswith s (ad_orth e) = true
              /\ sub_suffix (ad_orth e) s <> EmptyString
              /\ f = Form_init (sub_suffix (ad_orth e) s) (Some (Enclitic_init e)).
Proof.
  unfold Word_find_enclitic.
  destruct (addons data !! list_name) as [l|];
    [|split; [intros Hf; inversion Hf | intros (l & e & Hl & _); discriminate]].
  rewrite list_elem_of_In, in_flat_map. split.
  - intros (e & He & Hf). apply list_elem_of_In in He.
    destruct (endswith s (ad_orth e)) eqn:Hend; [|destruct Hf].
    destruct (bool_decide (sub_suffix (ad_orth e) s = EmptyString)) eqn:Hb;
      cbn [negb] in Hf; [destruct Hf|].
    apply bool_decide_eq_false_1 in Hb. destruct Hf as [<-|[]].
    exists l, e. split_and!; [reflexivity | exact He | exact Hend | exact Hb | reflexivity].
  - intros (l' & e & [= <-] & He & Hend & Hb & ->). exists e.
    split; [apply list_elem_of_In; exact He|].
    rewrite Hend, (bool_decide_eq_false_2 _ Hb). left. reflexivity.
Qed.

Lemma Word_split_form_enclitic_cons (data : DataLayer) (s : string) :
  Word_split_form_enclitic (Enum := Enum) data s
  = Form_init s None
    :: (Word_find_enclitic data s "tackons"
        ++ Word_find_enclitic data s
             (if startswith s "qu" then "packons" else "not_packons")).
Proof. unfold Word_split_form_enclitic. destruct (startswith s "qu"); reflexivity. Qed.

Lemma Word_split_form_enclitic_segments (data : DataLayer) (s : string)
    (f : Form (Enum := Enum)) :
  f ∈ Word_split_form_enclitic data s -> analyses f = [] /\ segment_of data s f.
Proof.
  rewrite Word_split_form_enclitic_cons. intros Hf.
  apply elem_of_cons in Hf as [->|Hf].
  { split; [reflexivity | left; split; reflexivity]. }
  assert (Hfrom : exists list_name,
             (list_name = "tackons"
              \/ list_name = if startswith s "qu" then "packons" else "not_packons")
             /\ f ∈ Word_find_enclitic data s list_name).
  { apply elem_of_app in Hf as [Hf|Hf]; eexists; (split; [|exact Hf]); auto. }
  destruct Hfrom as (list_name & Hname & Hin).
  apply Word_find_enclitic_elem in Hin as (l & e & Hl & He & Hend & Hb & ->).
  split; [reflexivity|]. right. exists list_name, l, e.
  split_and!; try assumption; try reflexivity.
  exact (endswith_split _ _ Hend).
Qed.

(** X15. [Word.split_form_enclitic], for affix tables of plain spellings
    (letters only, for which the substitution of the code is the cut of
    the model): the first form is the whole word without enclitic; every
    other form is fresh, has a non-empty text and an enclitic that spell
    the word together, and comes from the tackons or from the one list
    chosen by the first letters of the word; and every entry of these
    lists that ends the word and leaves a base gives a form. *)
Theorem Word_split_form_enclitic_forms (data : DataLayer) (s : string) :
  plain_addons data = true ->
  exists rest,
    Word_split_form_enclitic (Enum := Enum) data s = Form_init s None :: rest
    /\ (forall f, f ∈ Word_split_form_enclitic (Enum := Enum) data s ->
          analyses f = [] /\ segment_of data s f)
    /\ (forall list_name l e,
          list_name = "tackons"
          \/ list_name = (if startswith s "qu" then "packons" else "not_packons") ->
          addons data !! list_name = Some l -> e ∈ l ->
          endswith s (ad_orth e) = true ->
          sub_suffix (ad_orth e) s <> EmptyString ->
          plain (ad_orth e) = true
          /\ Form_init (sub_suffix (ad_orth e) s) (Some (Enclitic_init e)) ∈ rest).
Proof.
  intros Hplain.
  exists (Word_find_enclitic data s "tackons"
          ++ Word_find_enclitic data s
               (if startswith s "qu" then "packons" else "not_packons")).
  split_and!.
  - apply Word_split_form_enclitic_cons.
  - apply Word_split_form_enclitic_segments.
  - intros list_name l e Hname Hl He Hend Hb. split.
    { unfold plain_addons in Hplain. rewrite forallb_forall in Hplain.
      assert (Hin : In (list_name, l) (map_to_list (addons data)))
        by (apply list_elem_of_In, elem_of_map_to_list; exact Hl).
      specialize (Hplain (list_name, l) Hin). cbn [snd] in Hplain.
      rewrite forallb_forall in Hplain. apply Hplain, list_elem_of_In, He. }
    assert (Hin : Form_init (Enum := Enum) (sub_suffix (ad_orth e) s)
                    (Some (Enclitic_init e))
                  ∈ Word_find_enclitic data s list_name).
    { apply Word_find_enclitic_elem. exists l, e. split_and!; try assumption. reflexivity. }
    apply elem_of_app. destruct Hname as [->| ->]; [left | right]; exact Hin.
Qed.

(** *** Form.filter_good_analyses *)

Lemma Form_filter_analysis_kept (x : Z * Analysis (Enum := Enum)) :
  Form_filter_analysis x = Ok true <-> kept x.
Proof.
  unfold Form_filter_analysis, kept.
  destruct (enclitic (snd x)) as [en|].
  - rewrite getitem_first. destruct (head (en_position en)) as [p|]; cbn [bind].
    + split.
      * intros Hk. exists p. split; [reflexivity|].
        destruct (bool_decide (p = "X")) eqn:HX;
          [apply bool_decide_eq_true_1 in HX; auto|].
        destruct (bool_decide (p = "PACK")) eqn:HP;
          [apply bool_decide_eq_true_1 in HP; auto|].
        cbn [orb] in Hk. injection Hk as Hk. apply bool_decide_eq_true_1 in Hk. auto.
      * intros (p' & [= <-] & Hp).
        destruct (bool_decide (p = "X")) eqn:HX; [reflexivity|].
        destruct (bool_decide (p = "PACK")) eqn:HP; [reflexivity|].
        apply bool_decide_eq_false_1 in HX, HP. cbn [orb].
        destruct Hp as [?|[?|Hp]]; [congruence..|].
        rewrite (bool_decide_eq_true_2 _ Hp). reflexivity.
    + split; [discriminate | intros (p & Hp & _); discriminate].
  - split.
    + intros [= Hk]. apply orb_true_iff in Hk as [Hk|Hk]; [left | right; exact Hk].
      apply negb_true_iff, bool_decide_eq_false_1 in Hk. exact Hk.
    + intros [Hr|Hu]; f_equal; apply orb_true_iff;
        [left; apply negb_true_iff, bool_decide_eq_false_2; exact Hr | right; exact Hu].
Qed.

Lemma Form_filter_analysis_raise (x : Z * Analysis (Enum := Enum)) (e : exn) :
  Form_filter_analysis x = Raise e <->
  e = IndexError /\ exists en, enclitic (snd x) = Some en /\ en_position en = [].
Proof.
  unfold Form_filter_analysis.
  destruct (enclitic (snd x)) as [en|].
  - rewrite getitem_first. destruct (en_position en) as [|p ps] eqn:Hpos; cbn [head bind].
    + split; [intros [= <-]; split; [reflexivity | exists en; split; [reflexivity | exact Hpos]]
             | intros [-> _]; reflexivity].
    + split.
      * destruct (_ || _); discriminate.
      * intros (_ & en' & [= <-] & Hnil). congruence.
  - split; [discriminate | intros (_ & en & Hen & _); discriminate].
Qed.

Lemma filterM_spec {A} (f : A -> result bool) (l r : list A) :
  filterM f l = Ok r ->
  sublist r l /\ forall x, x ∈ r <-> x ∈ l /\ f x = Ok true.
Proof.
  revert r. induction l as [|y l IH]; intros r; simpl.
  - intros [= <-]. split; [constructor|].
    intros x. split; [intros Hx; inversion Hx | intros [Hx _]; inversion Hx].
  - destruct (f y) as [b|] eqn:Hfy; [|discriminate]. cbn [bind].
    destruct (filterM f l) as [r'|]; [|discriminate]. cbn [bind].
    intros [= <-]. destruct (IH r' eq_refl) as [Hsub Hmem]. split.
    + destruct b; [apply sublist_skip | apply sublist_cons]; exact Hsub.
    + intros x. destruct b.
      * rewrite !elem_of_cons, Hmem. split.
        -- intros [->|[Hx Hfx]]; [split; [left; reflexivity | exact Hfy] | auto].
        -- intros [[->|Hx] Hfx]; auto.
      * rewrite elem_of_cons, Hmem. split.
        -- intros [Hx Hfx]. auto.
        -- intros [[->|Hx] Hfx]; [congruence | auto].
Qed.

Lemma filterM_raise {A} (f : A -> result bool) (l : list A) (e : exn) :
  filterM f l = Raise e -> exists x, x ∈ l /\ f x = Raise e.
Proof.
  induction l as [|y l IH]; simpl; [discriminate|].
  destruct (f y) as [b|e'] eqn:Hfy; cbn [bind].
  - destruct (filterM f l) as [r'|e']; cbn [bind]; [discriminate|].
    intros [= <-]. destruct (IH eq_refl) as (x & Hx & Hfx).
    exists x. split; [right; exact Hx | exact Hfx].
  - intros [= <-]. exists y. split; [left | exact Hfy].
Qed.

(** X16. [Form.filter_good_analyses] keeps, in their order, exactly the
    analyses that [filter_analysis] accepts: with an enclitic the first
    word of its position decides and the roots of the lexeme are not
    looked at, without one the lexeme must have roots or be of a unique
    entry.  It raises only an [IndexError], on an enclitic whose position
    is blank. *)
Theorem Form_filter_good_analyses_keeps (f : Form (Enum := Enum)) :
  (forall f', Form_filter_good_analyses f = Ok f' ->
     text f' = text f /\ form_enclitic f' = form_enclitic f
     /\ sublist (analyses f') (analyses f)
     /\ forall x, x ∈ analyses f' <-> x ∈ analyses f /\ kept x)
  /\ (forall e, Form_filter_good_analyses f = Raise e ->
        e = IndexError
        /\ exists x en, x ∈ analyses f /\ enclitic (snd x) = Some en
                        /\ en_position en = []).
Proof.
  unfold Form_filter_good_analyses. split.
  - intros f'.
    destruct (filterM Form_filter_analysis (analyses f)) as [r|] eqn:Hr; [|discriminate].
    cbn [bind]. intros [= <-]. cbn [text form_enclitic analyses].
    destruct (filterM_spec _ _ _ Hr) as [Hsub Hmem].
    split_and!; [reflexivity | reflexivity | exact Hsub |].
    intros x. rewrite Hmem, Form_filter_analysis_kept. reflexivity.
  - intros e.
    destruct (filterM Form_filter_analysis (analyses f)) as [r|e'] eqn:Hr; [discriminate|].
    cbn [bind]. intros [= <-].
    destruct (filterM_raise _ _ _ Hr) as (x & Hx & Hfx).
    apply Form_filter_analysis_raise in Hfx as (-> & en & Hen & Hpos).
    split; [reflexivity|]. exists x, en. split_and!; assumption.
Qed.

(** *** Form.match_stems_inflections *)

Lemma elem_of_dict_set {K V} `{EqDecision K} (d : list (K * V)) (k k' : K) (v v' : V) :
  (k', v') ∈ dict_set k v d -> (k', v') = (k, v) \/ (k', v') ∈ d.
Proof.
  induction d as [|[k0 v0] d IH]; simpl.
  - intros Hin. apply list_elem_of_singleton in Hin. auto.
  - destruct (decide (k0 = k)) as [->|Hne]; intros Hin;
      apply elem_of_cons in Hin as [Hin|Hin]; auto.
    + right. right. exact Hin.
    + right. rewrite Hin. left.
    + destruct (IH Hin) as [?|?]; [auto | right; right; assumption].
Qed.

Lemma match_step_sourced (data : DataLayer) (s : string) (viable : list Inflect)
    (infl : Inflect) (stem_list : list Stem) (stem : Stem)
    (ms ms' : list (Z * Analysis (Enum := Enum))) :
  infl ∈ viable ->
  stems data !! stem_lemma s infl = Some stem_list ->
  stem ∈ stem_list ->
  sourced data s viable ms ->
  match_step infl ms stem = Ok ms' ->
  sourced data s viable ms'.
Proof.
  intros Hinfl Hlist Hstem Hms. unfold match_step.
  destruct (Matcher_check stem infl) eqn:Hm; [|intros [= <-]; exact Hms].
  assert (Hpair : congruent_pair data s viable stem infl).
  { split_and!; [exact Hinfl | exists stem_list; split; assumption | exact Hm]. }
  destruct (Inflection_init infl stem) as [i|] eqn:Hi; [|discriminate]. cbn [bind].
  destruct (dict_get (st_wid stem) ms) as [a|] eqn:Ha.
  - destruct (Inflection_in i (inflections a)) as [present|]; [|discriminate].
    cbn [bind]. destruct present; intros [= <-]; [exact Hms|].
    intros k a' Hin. apply elem_of_dict_set in Hin as [Hin|Hin]; [|exact (Hms _ _ Hin)].
    injection Hin as -> ->.
    destruct (Hms _ _ (dict_get_elem_of _ _ _ Ha)) as (H1 & H2 & H3 & H4 & H5 & H6).
    cbn [lexeme enclitic inflections]. split_and!; try assumption.
    + intros Hnil. apply app_eq_nil in Hnil as [_ Hnil]. discriminate.
    + intros i' Hi'. apply elem_of_app in Hi' as [Hi'|Hi']; [exact (H6 _ Hi')|].
      apply list_elem_of_singleton in Hi'. subst i'.
      exists stem, infl. split_and!; [exact Hpair | reflexivity | exact Hi].
  - unfold Lexeme_init.
    destruct (get_enum_value "WordType" (st_pos stem)) as [wt|]; [|discriminate].
    cbn [bind]. intros [= <-].
    intros k a' Hin. apply elem_of_dict_set in Hin as [Hin|Hin]; [|exact (Hms _ _ Hin)].
    injection Hin as -> ->. cbn. split_and!; try reflexivity; [discriminate|].
    intros i' Hi'. apply list_elem_of_singleton in Hi'. subst i'.
    exists stem, infl. split_and!; [exact Hpair | reflexivity | exact Hi].
Qed.

Lemma Form_match_stems_inflections_sourced (data : DataLayer) (s : string)
    (viable : list Inflect) (ms : list (Z * Analysis (Enum := Enum))) :
  Form_match_stems_inflections data s viable = Ok ms -> sourced data s viable ms.
Proof.
  unfold Form_match_stems_inflections.
  apply (parse_more.foldM_inv (sourced data s viable)).
  - intros ms1 infl ms2 Hinfl Hms1.
    destruct (stems data !! stem_lemma s infl) as [stem_list|] eqn:Hlist;
      [|intros [= <-]; exact Hms1].
    apply (parse_more.foldM_inv (sourced data s viable)); [|exact Hms1].
    intros ms3 stem ms4 Hstem Hms3.
    exact (match_step_sourced data s viable infl stem_list stem ms3 ms4
             Hinfl Hlist Hstem Hms3).
  - intros k a Hin. inversion Hin.
Qed.

(** X18. What [Form.match_stems_inflections] returns, exactly: one analysis
    per headword id, stored under that id, fresh (no roots, no enclitic),
    holding at least one inflection and no two equal ones; an inflection
    is in it only if a congruent stem row and ending of that headword
    built it, and every congruent pair has its inflection, by value, in
    the analysis of its headword. *)
Theorem Form_match_stems_inflections_exact (data : DataLayer) (s : string)
    (viable : list Inflect) (ms : list (Z * Analysis (Enum := Enum))) :
  Form_match_stems_inflections data s viable = Ok ms ->
  NoDup (dict_keys ms)
  /\ sourced data s viable ms
  /\ (forall k a, (k, a) ∈ ms -> NoDup (map value_key (inflections a)))
  /\ (forall stem infl, congruent_pair data s viable stem infl ->
        exists a i, (st_wid stem, a) ∈ ms
                    /\ Inflection_init infl stem = Ok i
                    /\ value_key i ∈ map value_key (inflections a)).
Proof.
  intros Hms.
  destruct (parser_facts.Form_match_stems_inflections_assembled data s viable ms Hms)
    as (Hkeys & Hnd & Hall).
  split_and!; [exact Hkeys | exact (Form_match_stems_inflections_sourced _ _ _ _ Hms)
              | exact Hnd |].
  intros stem infl Hpair. destruct (Hall stem infl Hpair) as (a & i & Ha & Hi & Hkey).
  exists a, i. split_and!; [exact (dict_get_elem_of _ _ _ Ha) | exact Hi | exact Hkey].
Qed.

(** X19. [Form.match_stems_inflections] returns whenever [Inflection] and
    [Lexeme] can be built for the congruent pairs the loop meets: the
    comparison of a new inflection with the recorded ones never raises,
    since every inflection the loop records has a category. *)
Theorem Form_match_stems_inflections_total (data : DataLayer) (s : string)
    (viable : list Inflect) :
  (forall stem infl, congruent_pair data s viable stem infl ->
     returns (Inflection_init infl stem) /\ returns (Lexeme_init stem)) ->
  returns (Form_match_stems_inflections (Enum := Enum) data s viable).
Proof.
  intros Hbuilt. unfold Form_match_stems_inflections.
  destruct (foldM_returns assembled
              (fun matched_stems infl_cand =>
                 match stems data !! stem_lemma s infl_cand with
                 | Some stem_list => foldM (match_step infl_cand) matched_stems stem_list
                 | None => Ok matched_stems
                 end)
              viable) with (s := @nil (Z * Analysis (Enum := Enum)))
    as (ms & Hms & _).
  - intros ms1 infl Hin Hms1.
    destruct (stems data !! stem_lemma s infl) as [stem_list|] eqn:Hlist;
      [|exists ms1; split; [reflexivity | exact Hms1]].
    apply (foldM_returns assembled); [|exact Hms1].
    intros ms2 stem Hstem Hms2.
    assert (Hret : exists ms3, match_step infl ms2 stem = Ok ms3).
    { unfold match_step. destruct (Matcher_check stem infl) eqn:Hm; [|eexists; reflexivity].
      destruct (Hbuilt stem infl) as [[i Hi] [lx Hlx]].
      { split_and!; [exact Hin | exists stem_list; split; assumption | exact Hm]. }
      rewrite Hi. cbn [bind].
      assert (Hcat : is_Some (category i)).
      { destruct (parser_facts.Inflection_init_fields _ _ _ Hi) as (_ & -> & _).
        eexists; reflexivity. }
      destruct (dict_get (st_wid stem) ms2) as [a|] eqn:Ha.
      - destruct Hms2 as [_ Hall]. destruct (Hall _ _ Ha) as [Hcats _].
        rewrite (parser_facts.Inflection_in_value_key i (inflections a) Hcat Hcats).
        cbn [bind]. destruct (bool_decide _); eexists; reflexivity.
      - rewrite Hlx. eexists; reflexivity. }
    destruct Hret as [ms3 Hms3]. exists ms3. split; [exact Hms3|].
    exact (proj1 (parser_facts.match_step_assembled infl ms2 stem ms3 Hms2 Hms3)).
  - split; [constructor | intros k a Hg; discriminate].
  - exists ms. exact Hms.
Qed.

(** *** Form.analyse *)

Lemma Analysis_lookup_stem_keeps (a a' : Analysis (Enum := Enum))
    (wl : list (option DictEntry)) :
  Analysis_lookup_stem a wl = Ok a' ->
  lx_id (lexeme a') = lx_id (lexeme a)
  /\ is_unique (lexeme a') = is_unique (lexeme a)
  /\ inflections a' = inflections a
  /\ enclitic a' = enclitic a.
Proof.
  unfold Analysis_lookup_stem.
  destruct (getitem wl (lx_id (lexeme a))) as [[d|]|]; cbn [bind]; [| |discriminate];
    intros [= <-]; cbn; split_and!; reflexivity.
Qed.

Lemma resolve_analyses_elem (data : DataLayer) (e : option Enclitic)
    (found found' : list (Z * Analysis (Enum := Enum))) (k : Z) (a' : Analysis) :
  resolve_analyses data e found = Ok found' ->
  (k, a') ∈ found' ->
  exists a, (k, a) ∈ found
            /\ lx_id (lexeme a') = lx_id (lexeme a)
            /\ is_unique (lexeme a') = is_unique (lexeme a)
            /\ inflections a' = inflections a
            /\ enclitic a' = e.
Proof.
  revert found'. induction found as [|[k0 a0] found IH]; intros found'; simpl.
  - intros [= <-] Hin. inversion Hin.
  - destruct (Analysis_lookup_stem _ _) as [a1|] eqn:Ha1; [|discriminate]. cbn [bind].
    destruct (resolve_analyses data e found) as [rest|]; [|discriminate]. cbn [bind].
    intros [= <-] Hin. apply elem_of_cons in Hin as [Hin|Hin].
    + injection Hin as -> ->. apply Analysis_lookup_stem_keeps in Ha1.
      cbn in Ha1. destruct Ha1 as (H1 & H2 & H3 & H4).
      exists a0. split_and!; [left | assumption..].
    + destruct (IH rest eq_refl Hin) as (a & Ha & Hrest).
      exists a. split; [right; exact Ha | exact Hrest].
Qed.

Lemma regular_analyses_keyed (data : DataLayer) (f : Form)
    (found : list (Z * Analysis (Enum := Enum))) :
  regular_analyses data f = Ok found ->
  keyed found
  /\ forall k a, (k, a) ∈ found ->
       is_unique (lexeme a) = false /\ enclitic a = form_enclitic f
       /\ inflections a <> [].
Proof.
  intros Hfound. split; [split; [exact (parser_facts.regular_analyses_keys _ _ _ Hfound)|]|];
    unfold regular_analyses in Hfound;
    destruct (viable_inflections data (text f)) as [viable|]; try discriminate;
    cbn [bind] in Hfound;
    destruct (Form_match_stems_inflections data (text f) viable) as [ms|] eqn:Hms;
    try discriminate; cbn [bind] in Hfound;
    apply Form_match_stems_inflections_sourced in Hms;
    intros k a' Hin;
    destruct (resolve_analyses_elem _ _ _ _ _ _ Hfound Hin) as (a & Ha & H1 & H2 & H3 & H4);
    destruct (Hms _ _ Ha) as (G1 & G2 & G3 & G4 & G5 & G6).
  - congruence.
  - split_and!; congruence.
Qed.

Lemma dict_update_NoDup {K V} `{EqDecision K} (d d' : list (K * V)) :
  NoDup (dict_keys d) -> NoDup (dict_keys (dict_update d d')).
Proof.
  unfold dict_update. revert d. induction d' as [|[k v] d' IH]; intros d Hd; simpl.
  - exact Hd.
  - apply IH, dict_set_NoDup, Hd.
Qed.

Lemma uniques_stage (f f1 : Form (Enum := Enum)) (us : option (list Unique)) :
  analyses f = [] ->
  match us with
  | Some unique_forms => foldM Form_analyse_unique f unique_forms
  | None => Ok f
  end = Ok f1 ->
  text f1 = text f /\ form_enclitic f1 = form_enclitic f
  /\ (analyses f1 = []
      \/ exists a0, analyses f1 = [(0, a0)] /\ lx_id (lexeme a0) = 0
                    /\ is_unique (lexeme a0) = true).
Proof.
  intros Hfresh. destruct us as [[|u us]|].
  - intros [= <-]. auto.
  - rewrite (parser_facts.analyse_unique_fresh f u us Hfresh).
    unfold unique_analysis, UniqueLexeme_init.
    destruct (get_enum_value "WordType" (un_pos u)); [|discriminate]. cbn [bind].
    destruct (spec.mapM UniqueInflection_init (u :: us)); [|discriminate]. cbn [bind].
    intros [= <-]. cbn. split_and!; try reflexivity.
    right. eexists. split_and!; reflexivity.
  - intros [= <-]. auto.
Qed.

Lemma analyse_form_fresh (data : DataLayer) (apply_filter : bool)
    (f f' : Form (Enum := Enum)) :
  analyses f = [] ->
  analyse_form data apply_filter f = Ok f' ->
  text f' = text f /\ form_enclitic f' = form_enclitic f
  /\ keyed (analyses f')
  /\ (forall k a, (k, a) ∈ analyses f' ->
        is_unique (lexeme a) = true \/ enclitic a = form_enclitic f)
  /\ (apply_filter = true -> forall x, x ∈ analyses f' -> kept x).
Proof.
  intros Hfresh. unfold analyse_form.
  destruct (match uniques data !! text f with
            | Some unique_forms => foldM Form_analyse_unique f unique_forms
            | None => Ok f
            end) as [f1|] eqn:Hf1; [|discriminate]. cbn [bind].
  destruct (uniques_stage f f1 _ Hfresh Hf1) as (Ht1 & He1 & Hu1).
  unfold Form_analyse.
  destruct (regular_analyses data f1) as [found|] eqn:Hfound; [|discriminate].
  cbn [bind].
  destruct (regular_analyses_keyed data f1 found Hfound) as ([Hnd Hid] & Hreg).
  rewrite He1 in Hreg.
  set (f2 := match analyses f1 with
             | _ :: _ => mkForm (text f1) (dict_update (analyses f1) found)
                                (form_enclitic f1)
             | [] => mkForm (text f1) found (form_enclitic f1)
             end).
  assert (Hf2 : text f2 = text f /\ form_enclitic f2 = form_enclitic f
                /\ keyed (analyses f2)
                /\ forall k a, (k, a) ∈ analyses f2 ->
                     is_unique (lexeme a) = true \/ enclitic a = form_enclitic f).
  { subst f2. destruct Hu1 as [Hnil|(a0 & Ha0 & Hid0 & Hun0)].
    - rewrite Hnil. cbn. split_and!; [exact Ht1 | exact He1 | split; assumption |].
      intros k a Hin. right. exact (proj1 (proj2 (Hreg k a Hin))).
    - rewrite Ha0. cbn [text form_enclitic analyses].
      assert (Hupd : NoDup (dict_keys (dict_update [(0, a0)] found))).
      { apply dict_update_NoDup. repeat constructor. intros Hin. inversion Hin. }
      assert (Hmem : forall k a, (k, a) ∈ dict_update [(0, a0)] found ->
                       (k, a) ∈ found \/ (k, a) = (0, a0)).
      { intros k a Hin. apply (elem_of_dict_get _ _ _ Hupd) in Hin.
        rewrite dict_update_get in Hin by exact Hnd.
        destruct (dict_get k found) as [v|] eqn:Hk.
        - injection Hin as <-. left. exact (dict_get_elem_of _ _ _ Hk).
        - right. apply dict_get_elem_of in Hin.
          apply list_elem_of_singleton in Hin. exact Hin. }
      split_and!; [exact Ht1 | exact He1 | split; [exact Hupd|] |].
      + intros k a Hin. destruct (Hmem k a Hin) as [Hf|Hf]; [exact (Hid k a Hf)|].
        injection Hf as -> ->. exact Hid0.
      + intros k a Hin. destruct (Hmem k a Hin) as [Hf|Hf].
        * right. exact (proj1 (proj2 (Hreg k a Hf))).
        * injection Hf as -> ->. left. exact Hun0. }
  assert (Hcase : match analyses f1 with
                  | _ :: _ => Ok (mkForm (text f1) (dict_update (analyses f1) found)
                                     (form_enclitic f1))
                  | [] => Ok (mkForm (text f1) found (form_enclitic f1))
                  end = Ok f2).
  { subst f2. destruct (analyses f1); reflexivity. }
  rewrite Hcase. cbn [bind]. clearbody f2.
  destruct Hf2 as (Ht2 & He2 & [Hnd2 Hid2] & Hall2).
  destruct apply_filter.
  - unfold Form_filter_good_analyses.
    destruct (filterM Form_filter_analysis (analyses f2)) as [r|] eqn:Hr; [|discriminate].
    cbn [bind]. intros [= <-]. cbn [text form_enclitic analyses].
    destruct (filterM_spec _ _ _ Hr) as [Hsub Hmem].
    split_and!; [exact Ht2 | exact He2 | split | |].
    + apply (sublist_NoDup _ (dict_keys (analyses f2))); [exact Hnd2|].
      unfold dict_keys. change (sublist (fst <$> r) (fst <$> analyses f2)).
      apply fmap_sublist. exact Hsub.
    + intros k a Hin. apply Hid2. exact (proj1 (proj1 (Hmem _) Hin)).
    + intros k a Hin. apply (Hall2 k a). exact (proj1 (proj1 (Hmem _) Hin)).
    + intros _ x Hx. apply Form_filter_analysis_kept. exact (proj2 (proj1 (Hmem _) Hx)).
  - intros [= <-]. split_and!; [exact Ht2 | exact He2 | split; assumption | exact Hall2 |].
    discriminate.
Qed.

(** X21. The analyses [Word.analyse] leaves in one fresh form: text and
    enclitic of the form are untouched; there is one analysis per key and
    each is stored under the id of its lexeme, the analysis of the unique
    entries under 0; every analysis that is not of a unique entry carries
    the enclitic of the form; and with the filter on, only accepted
    analyses are left. *)
Theorem analyse_form_keyed (data : DataLayer) (apply_filter : bool)
    (f f' : Form (Enum := Enum)) :
  analyses f = [] ->
  analyse_form data apply_filter f = Ok f' ->
  text f' = text f /\ form_enclitic f' = form_enclitic f
  /\ keyed (analyses f')
  /\ (forall k a, (k, a) ∈ analyses f' ->
        is_unique (lexeme a) = true \/ enclitic a = form_enclitic f)
  /\ (apply_filter = true -> forall x, x ∈ analyses f' -> kept x).
Proof.
  intros Hfresh Han.
  destruct (analyse_form_fresh data apply_filter f f' Hfresh Han)
    as (Ht & He & Hkeyed & Hencl & Hkept).
  split_and!; assumption.
Qed.

(** *** Form.analyse_unique *)

(** X20. [Form.analyse_unique] touches key 0 only: text, enclitic and the
    analyses under the other keys stay, and the analysis under 0 ends
    with the inflection of the unique entry; on a form that has analyses
    but none under 0 it raises a [KeyError]. *)
Theorem Form_analyse_unique_key0 (f : Form (Enum := Enum)) (u : Unique) :
  (forall f', Form_analyse_unique f u = Ok f' ->
     text f' = text f /\ form_enclitic f' = form_enclitic f
     /\ (forall k, k <> 0 -> dict_get k (analyses f') = dict_get k (analyses f))
     /\ exists a i, dict_get 0 (analyses f') = Some a
                    /\ UniqueInflection_init u = Ok i
                    /\ last (inflections a) = Some i)
  /\ (analyses f <> [] -> dict_get 0 (analyses f) = None ->
      Form_analyse_unique f u = Raise KeyError).
Proof.
  unfold Form_analyse_unique. split.
  - intros f'. destruct (analyses f) as [|x rest] eqn:Han.
    + destruct (UniqueLexeme_init u) as [lx|]; [|discriminate]. cbn [bind].
      destruct (UniqueInflection_init u) as [i|]; [|discriminate]. cbn [bind].
      intros [= <-]. cbn [text form_enclitic analyses].
      split_and!; [reflexivity | reflexivity | |].
      * intros k Hk. simpl. rewrite decide_False by congruence. reflexivity.
      * eexists _, i. split_and!; reflexivity.
    + set (d := x :: rest) in *. clearbody d.
      destruct (dict_get 0 d) as [a|] eqn:Ha; [|discriminate].
      destruct (UniqueInflection_init u) as [i|]; [|discriminate]. cbn [bind].
      intros [= <-]. cbn [text form_enclitic analyses].
      split_and!; [reflexivity | reflexivity | |].
      * intros k Hk. apply dict_get_set_ne. congruence.
      * eexists _, i. split_and!; [apply dict_get_set_eq | reflexivity |].
        cbn [inflections]. apply last_snoc.
  - intros Hne Hnone. destruct (analyses f) as [|x rest]; [congruence|].
    rewrite Hnone. reflexivity.
Qed.

(** *** Word.analyse *)

Lemma Forall2_elem_of_r {A B} (P : A -> B -> Prop) (l : list A) (l' : list B) (y : B) :
  Forall2 P l l' -> y ∈ l' -> exists x, x ∈ l /\ P x y.
Proof.
  induction 1 as [|x y' l l' Hxy Hall IH]; intros Hy; [inversion Hy|].
  apply elem_of_cons in Hy as [->|Hy].
  - exists x. split; [left | exact Hxy].
  - destruct (IH Hy) as (x' & Hx' & HP). exists x'. split; [right; exact Hx' | exact HP].
Qed.

(** X22. With the filter on, [Word.analyse] leaves no form without analyses
    and no analysis that [filter_analysis] rejects; each form left is one
    of the given forms after its own analysis. *)
Theorem Word_analyse_filtered (data : DataLayer)
    (forms forms' : list (Form (Enum := Enum))) :
  Word_analyse data forms true = Ok forms' ->
  forall f', f' ∈ forms' ->
    analyses f' <> []
    /\ (forall x, x ∈ analyses f' -> kept x)
    /\ exists f, f ∈ forms /\ analyse_form data true f = Ok f'.
Proof.
  unfold Word_analyse.
  destruct (analyse_forms data true forms) as [each|] eqn:Heach; [|discriminate].
  cbn [bind]. intros [= <-] f' Hf'.
  unfold Word_filter_good_forms in Hf'. apply list_elem_of_filter in Hf' as [Hne Hf'].
  apply parser_facts.analyse_forms_each in Heach.
  destruct (Forall2_elem_of_r _ _ _ _ Heach Hf') as (f & Hf & Han).
  split_and!; [exact Hne | | exists f; split; assumption].
  unfold analyse_form in Han.
  destruct (match uniques data !! text f with
            | Some unique_forms => foldM Form_analyse_unique f unique_forms
            | None => Ok f
            end) as [f1|]; [|discriminate]. cbn [bind] in Han.
  destruct (Form_analyse data f1) as [f2|]; [|discriminate]. cbn [bind] in Han.
  unfold Form_filter_good_analyses in Han.
  destruct (filterM Form_filter_analysis (analyses f2)) as [r|] eqn:Hr; [|discriminate].
  cbn [bind] in Han. injection Han as <-. cbn [analyses].
  intros x Hx. apply Form_filter_analysis_kept.
  exact (proj2 (proj1 (proj2 (filterM_spec _ _ _ Hr) x) Hx)).
Qed.

(** *** Parser.parse, end to end *)

(** X24. The word [Parser.parse] returns: every form in it is a segment of the
    text in lower case (the whole text, or a non-empty base with an
    enclitic of the tables), its analyses are keyed by lexeme id with no
    key twice, and without the filters there is one form per segment, in
    the order of the segmenter. *)
Theorem Parser_parse_forms (data : DataLayer) (s : string) (apply_filters : bool)
    (w : Word (Enum := Enum)) :
  Parser_parse data s apply_filters = Ok w ->
  (forall f', f' ∈ forms w ->
     segment_of data (lower s) f' /\ keyed (analyses f')
     /\ (apply_filters = true ->
         analyses f' <> [] /\ forall x, x ∈ analyses f' -> kept x))
  /\ (apply_filters = false ->
      map (fun f => (text f, form_enclitic f)) (forms w)
      = map (fun f => (text f, form_enclitic f))
            (Word_split_form_enclitic (Enum := Enum) data (lower s))).
Proof.
  unfold Parser_parse. destruct (negb (isalpha s)); [discriminate|].
  destruct (Word_analyse data (Word_split_form_enclitic data (lower s)) apply_filters)
    as [fs|] eqn:Hfs; [|discriminate].
  cbn [bind]. intros [= <-]. cbn [forms].
  pose proof (Word_split_form_enclitic_segments data (lower s)) as Hseg.
  unfold Word_analyse in Hfs.
  destruct (analyse_forms data apply_filters (Word_split_form_enclitic data (lower s)))
    as [each|] eqn:Heach; [|discriminate].
  cbn [bind] in Hfs. apply parser_facts.analyse_forms_each in Heach.
  assert (Heach' : forall f', f' ∈ each ->
            segment_of data (lower s) f' /\ keyed (analyses f')
            /\ (apply_filters = true -> forall x, x ∈ analyses f' -> kept x)).
  { intros f' Hf'. destruct (Forall2_elem_of_r _ _ _ _ Heach Hf') as (f & Hf & Han).
    destruct (Hseg f Hf) as [Hfresh Hsegf].
    destruct (analyse_form_fresh data apply_filters f f' Hfresh Han)
      as (Ht & He & Hkeyed & _ & Hkept).
    split_and!; [|exact Hkeyed | exact Hkept].
    unfold segment_of in *. rewrite Ht, He. exact Hsegf. }
  split.
  - intros f' Hf'. destruct apply_filters; injection Hfs as <-.
    + unfold Word_filter_good_forms in Hf'.
      apply list_elem_of_filter in Hf' as [Hne Hf'].
      destruct (Heach' f' Hf') as (H1 & H2 & H3).
      split_and!; [exact H1 | exact H2 |]. intros _. split; [exact Hne | exact (H3 eq_refl)].
    + destruct (Heach' f' Hf') as (H1 & H2 & _).
      split_and!; [exact H1 | exact H2 | discriminate].
  - intros ->. injection Hfs as <-. symmetry.
    induction Heach as [|f f' fs0 fs0' Han Hall IH]; [reflexivity|].
    simpl. rewrite IH.
    + f_equal. unfold analyse_form in Han.
      destruct (Hseg f ltac:(left)) as [Hfresh _].
      destruct (analyse_form_fresh data false f f' Hfresh Han) as (Ht & He & _).
      rewrite Ht, He. reflexivity.
    + intros f0 Hf0. apply Hseg. right. exact Hf0.
    + intros f0 Hf0. apply Heach'. right. exact Hf0.
Qed.

(** *** Enclitic.__init__ *)



End More.

(** *** On the sample dictionary *)

(** A noun ending with one feature too many: the three slots are filled
    and the fourth feature is dropped. *)
Lemma analyse_features_slots_witness :
  (<["Gender" := ("Gender", "C")]>
     (<["Number" := ("Number", "S")]> (<["Case" := ("Case", "NOM")]> ∅))
   : gmap string (string * string)) !! "Gender" = Some ("Gender", "C")
  /\ (<["Gender" := ("Gender", "C")]>
        (<["Number" := ("Number", "S")]> (<["Case" := ("Case", "NOM")]> ∅))
      : gmap string (string * string)) !! "Degree" = None.
Proof.
  set (fs' := <["Gender" := ("Gender", "C")]>
                (<["Number" := ("Number", "S")]> (<["Case" := ("Case", "NOM")]> ∅))).
  pose proof (analyse_features_slots (Enum := string * string) ("WordType", "N")
                ["NOM"; "S"; "C"; "POS"] ∅ fs') as Hthm.
  destruct (Hthm ltac:(vm_compute; reflexivity)) as [_ Hslots].
  destruct (Hslots ["Case"; "Number"; "Gender"] eq_refl) as [Hset Hother].
  split.
  - destruct (Hset 2%nat "Gender" "C" eq_refl eq_refl) as (v & Hv & Hfs).
    injection Hv as <-. exact Hfs.
  - rewrite Hother; [apply lookup_empty|].
    apply (bool_decide_unpack _). vm_compute. exact I.
Defined.

(** The assembler on "aqua" and the three endings -a. *)
Lemma Form_match_stems_inflections_exact_witness :
  exists ms,
    Form_match_stems_inflections (Enum := string * string) parser_sample.data "aqua"
      [parser_sample.a_nom; parser_sample.a_abl; parser_sample.a_nom_f] = Ok ms
    /\ NoDup (dict_keys ms)
    /\ sourced parser_sample.data "aqua"
         [parser_sample.a_nom; parser_sample.a_abl; parser_sample.a_nom_f] ms.
Proof.
  eexists. split; [vm_compute; reflexivity|].
  pose proof (Form_match_stems_inflections_exact (Enum := string * string)
                parser_sample.data "aqua"
                [parser_sample.a_nom; parser_sample.a_abl; parser_sample.a_nom_f])
    as Hthm.
  destruct (Hthm _ ltac:(vm_compute; reflexivity)) as (Hkeys & Hsrc & _).
  split; [exact Hkeys | exact Hsrc].
Defined.

(** The form "aqua" of the sample dictionary. *)
Lemma analyse_form_keyed_witness :
  exists f',
    analyse_form (Enum := string * string) parser_sample.data true
      (Form_init "aqua" None) = Ok f'
    /\ text f' = "aqua"
    /\ keyed (analyses f')
    /\ forall x, x ∈ analyses f' -> kept x.
Proof.
  eexists. split; [vm_compute; reflexivity|].
  pose proof (analyse_form_keyed (Enum := string * string) parser_sample.data true
                (Form_init "aqua" None)) as Hthm.
  destruct (Hthm _ eq_refl ltac:(vm_compute; reflexivity))
    as (Ht & _ & Hkeyed & _ & Hkept).
  split_and!; [exact Ht | exact Hkeyed | exact (Hkept eq_refl)].
Defined.

(** The forms of "aquaque" after analysis with the filter on. *)
Lemma Word_analyse_filtered_witness :
  exists forms',
    Word_analyse (Enum := string * string) parser_sample.data
      (Word_split_form_enclitic parser_sample.data "aquaque") true = Ok forms'
    /\ forall f', f' ∈ forms' ->
         analyses f' <> [] /\ forall x, x ∈ analyses f' -> kept x.
Proof.
  eexists. split; [vm_compute; reflexivity|].
  intros f' Hf'.
  pose proof (Word_analyse_filtered (Enum := string * string) parser_sample.data
                (Word_split_form_enclitic parser_sample.data "aquaque")) as Hthm.
  destruct (Hthm _ ltac:(vm_compute; reflexivity) f' Hf') as (Hne & Hkept & _).
  split; [exact Hne | exact Hkept].
Defined.

(** The analyses of "aquaque" are those of its forms, one form after the
    other. *)
Lemma Word_get_analyses_union_witness :
  exists forms' each,
    Word_analyse (Enum := string * string) parser_sample.data
      (Word_split_form_enclitic parser_sample.data "aquaque") true = Ok forms'
    /\ Forall2 (fun form form' => analyse_form parser_sample.data true form = Ok form')
               (Word_split_form_enclitic parser_sample.data "aquaque") each
    /\ Word_get_analyses forms' = flat_map (fun form' => dict_values (analyses form')) each.
Proof.
  eexists.
  pose proof (parser_facts.Word_get_analyses_union (Enum := string * string)
                parser_sample.data true
                (Word_split_form_enclitic parser_sample.data "aquaque")) as Hthm.
  destruct (Hthm _ ltac:(vm_compute; reflexivity)) as (each & Heach & Hunion).
  exists each. split_and!; [vm_compute; reflexivity | exact Heach | exact Hunion].
Defined.

(** "AquaQue" is parsed as "aquaque". *)
Lemma Parser_parse_forms_witness :
  exists w,
    Parser_parse (Enum := string * string) parser_sample.data "AquaQue" true = Ok w
    /\ forall f', f' ∈ forms w ->
         segment_of parser_sample.data "aquaque" f' /\ keyed (analyses f').
Proof.
  eexists. split; [vm_compute; reflexivity|].
  intros f' Hf'.
  pose proof (Parser_parse_forms (Enum := string * string) parser_sample.data "AquaQue"
                true) as Hthm.
  destruct (Hthm _ ltac:(vm_compute; reflexivity)) as [Hforms _].
  destruct (Hforms f' Hf') as (Hseg & Hkeyed & _).
  split; [exact Hseg | exact Hkeyed].
Defined.

(** "AquaQue" and "aquaque" get the same answer. *)
Lemma Parser_parse_ignores_case_witness :
  Parser_parse (Enum := string * string) parser_sample.data (lower "AquaQue") true
  = Parser_parse parser_sample.data "AquaQue" true.
Proof.
  pose proof (Parser_parse_ignores_case (Enum := string * string) parser_sample.data
                "AquaQue" true) as Hthm.
  destruct (Hthm ltac:(vm_compute; reflexivity)) as (_ & Heq & _).
  exact Heq.
Defined.

(** "quicumque" on the sample dictionary, whose affixes are plain: the
    packon -cumque gives the form "qui". *)
Lemma Word_split_form_enclitic_forms_witness :
  exists rest,
    Word_split_form_enclitic (Enum := string * string) parser_sample.data "quicumque"
    = Form_init "quicumque" None :: rest
    /\ Form_init "qui" (Some (Enclitic_init parser_sample.cumque)) ∈ rest.
Proof.
  pose proof (Word_split_form_enclitic_forms (Enum := string * string)
                parser_sample.data "quicumque") as Hthm.
  destruct (Hthm ltac:(vm_compute; reflexivity)) as (rest & Hsplit & _ & Hall).
  exists rest. split; [exact Hsplit|].
  apply (Hall "packons" [parser_sample.cumque; parser_sample.que] parser_sample.cumque).
  - right. reflexivity.
  - vm_compute. reflexivity.
  - left.
  - vm_compute. reflexivity.
  - vm_compute. discriminate.
Defined.

(** The assembler returns on "aqua" and the three endings -a: the stem is
    listed twice, so each ending is built twice and compared with the
    recorded ones. *)
Lemma Form_match_stems_inflections_total_witness :
  returns (Form_match_stems_inflections (Enum := string * string) parser_sample.data
             "aqua"
             [parser_sample.a_nom; parser_sample.a_abl; parser_sample.a_nom_f]).
Proof.
  apply (Form_match_stems_inflections_total (Enum := string * string)
           parser_sample.data "aqua").
  intros stem infl (Hin & (stem_list & Hlist & Hstem) & _).
  assert (Hstems : stem_list = [parser_sample.aqu; parser_sample.aqu]).
  { apply elem_of_cons in Hin as [->|Hin]; [|apply elem_of_cons in Hin as [->|Hin]];
      [| |apply list_elem_of_singleton in Hin; subst infl];
      vm_compute in Hlist; injection Hlist as <-; reflexivity. }
  subst stem_list.
  assert (Hs : stem = parser_sample.aqu).
  { apply elem_of_cons in Hstem as [->|Hstem]; [reflexivity|].
    apply list_elem_of_singleton in Hstem. exact Hstem. }
  subst stem.
  apply elem_of_cons in Hin as [->|Hin]; [|apply elem_of_cons in Hin as [->|Hin]];
    [| |apply list_elem_of_singleton in Hin; subst infl];
    (split; eexists; vm_compute; reflexivity).
Defined.

End parser_more.
